(** * Dataset Builder: snapshot differ, local store, commit log and session server

    A shallow embedding of the parts of the Dataset Builder sources that the
    specification talks about:

    - [Differ]: [App._computeDiff] of the REST/WebSocket front end
      (public/js/app.js);
    - [LocalStore]: the localStorage-backed [Store] of the earlier front end
      ([duplicateChunk], [isChunkIdTaken], [importProject], [exportJSON], and
      the operations on projects, categories and chunks) with the editor's
      [_saveCurrentChunk];
    - [CommitLog]: the bounded history of lib/store, which is not part of the
      sources at hand and is modelled from the specification;
    - [Server]: the session registry, the broadcast helpers, the HTTP mutation
      handlers and the WebSocket connection handlers of the server;
    - [AppHelpers]: [App._formatTimeAgo] and [App._escAttr].

    JavaScript strings are modelled by [string]; one character stands for one
    code unit.  JavaScript arrays are lists.  A [Map] and a [Set] remember
    insertion order, so they are lists with unique keys. *)

From Stdlib Require Import String Ascii ZArith List Lia Bool.
From stdpp Require Import gmap strings list fin_maps pretty sorting.
Import ListNotations.

Local Open Scope Z_scope.
Local Open Scope nat_scope.
Local Open Scope list_scope.

(** ** The JavaScript runtime pieces the sources rely on *)

Module Js.

(** [Array.prototype.push]. *)
Definition push {A} (arr : list A) (x : A) : list A := arr ++ [x].

(** [Array.prototype.findIndex]: the index of the first element satisfying
    [p], or -1. *)
Fixpoint findIndex_from {A} (p : A -> bool) (arr : list A) (i : Z) : Z :=
  match arr with
  | [] => (-1)%Z
  | x :: rest => if p x then i else findIndex_from p rest (i + 1)%Z
  end.

Definition findIndex {A} (p : A -> bool) (arr : list A) : Z :=
  findIndex_from p arr 0%Z.

(** [arr.splice(start, 1)]: a negative [start] counts from the end, and a
    start beyond the end removes nothing. *)
Definition splice1 {A} (start : Z) (arr : list A) : list A :=
  let len := Z.of_nat (length arr) in
  let actual := if (start <? 0)%Z then Z.max (len + start) 0 else Z.min start len in
  delete (Z.to_nat actual) arr.

(** [String.prototype.includes]. *)
Fixpoint includes (hay needle : string) : bool :=
  String.prefix needle hay
  || match hay with
     | EmptyString => false
     | String _ rest => includes rest needle
     end.

(** [Array.prototype.join]. *)
Fixpoint join (sep : string) (parts : list string) : string :=
  match parts with
  | [] => ""
  | [p] => p
  | p :: rest => p +:+ sep +:+ join sep rest
  end.

(** White space as [String.prototype.trim] sees it, among the code units
    below 256: TAB, LF, VT, FF, CR, space and NBSP. *)
Definition is_white (c : ascii) : bool :=
  let n := nat_of_ascii c in
  ((9 <=? n) && (n <=? 13)) || (n =? 32) || (n =? 160).

Fixpoint trimStart (s : string) : string :=
  match s with
  | EmptyString => EmptyString
  | String c rest => if is_white c then trimStart rest else s
  end.

(** Drops trailing white space: a white character is kept only when
    something non-white follows it. *)
Fixpoint trimEnd (s : string) : string :=
  match s with
  | EmptyString => EmptyString
  | String c rest =>
      match trimEnd rest with
      | EmptyString => if is_white c then EmptyString else String c EmptyString
      | rest' => String c rest'
      end
  end.

Definition trim (s : string) : string := trimEnd (trimStart s).

(** Truthiness of a string: only the empty string is falsy. *)
Definition truthy (s : string) : bool :=
  match s with EmptyString => false | _ => true end.

(** [s || ''] for a possibly undefined string. *)
Definition orEmpty (s : option string) : string :=
  match s with Some v => v | None => "" end.

(** *** [Map]: string keys, insertion order kept, [set] on an existing key
    overwrites the value in place. *)

Definition Map (V : Type) := list (string * V).

Fixpoint map_set {V} (k : string) (v : V) (m : Map V) : Map V :=
  match m with
  | [] => [(k, v)]
  | (k', v') :: rest =>
      if String.eqb k k' then (k, v) :: rest else (k', v') :: map_set k v rest
  end.

Fixpoint map_get {V} (k : string) (m : Map V) : option V :=
  match m with
  | [] => None
  | (k', v') :: rest => if String.eqb k k' then Some v' else map_get k rest
  end.

Definition map_has {V} (k : string) (m : Map V) : bool :=
  match map_get k m with Some _ => true | None => false end.

(** [new Map(entries)]. *)
Definition map_of {V} (entries : list (string * V)) : Map V :=
  fold_left (fun m kv => map_set (fst kv) (snd kv) m) entries [].

(** *** [Set] of strings: insertion order kept. *)

Definition set_add (k : string) (s : list string) : list string :=
  if existsb (String.eqb k) s then s else s ++ [k].

Definition set_of (keys : list string) : list string :=
  fold_left (fun s k => set_add k s) keys [].

(** *** Plain objects with string values, as the list of their own entries in
    [Object.keys] order.  The objects are ordinary ones: their prototype is
    [Object.prototype]. *)

Definition Obj := list (string * string).

(** [Object.keys(o)] *)
Definition keys (o : Obj) : list string := map fst o.

(** The value of the object's own property [k], [None] when it has none. *)
Definition prop (o : Obj) (k : string) : option string := map_get k o.

(** The names every ordinary object inherits from [Object.prototype]. *)
Definition prototypeNames : list string :=
  ["constructor"; "__defineGetter__"; "__defineSetter__"; "hasOwnProperty";
   "__lookupGetter__"; "__lookupSetter__"; "isPrototypeOf"; "propertyIsEnumerable";
   "toString"; "valueOf"; "__proto__"; "toLocaleString"].

Definition inherited (k : string) : bool := existsb (String.eqb k) prototypeNames.

(** What the read [o[k]] evaluates to: the string of the object's own
    property; or, when it has none and [k] names a member of
    [Object.prototype], that member; or [undefined]. *)
Inductive Value :=
  | Str (s : string)
  | Member (name : string)
  | Undefined.

#[global] Instance Value_eq_dec : EqDecision Value.
Proof. solve_decision. Defined.

(** [o[k]] *)
Definition get (o : Obj) (k : string) : Value :=
  match prop o k with
  | Some v => Str v
  | None => if inherited k then Member k else Undefined
  end.

(** [`${v || ''}`].  A member of [Object.prototype] is an object, so it is
    truthy and printed through its [toString]: [__proto__] reads as
    [Object.prototype] itself, the other members are built-in functions,
    whose text is written here the way V8 prints it. *)
Definition shown (v : Value) : string :=
  match v with
  | Str s => s
  | Undefined => ""
  | Member name =>
      if String.eqb name "__proto__" then "[object Object]"
      else "function " +:+ (if String.eqb name "constructor" then "Object" else name)
           +:+ "() { [native code] }"
  end.

(** [o[k] = v] for a string [v].  A key the object does not have yet is put
    last.  (JavaScript lists a key that is an array index before the string
    keys; for such a key the list is not in [Object.keys] order, and what is
    proved below for arbitrary keys is stated by lookup.)  The name
    [__proto__] is special: unless the object has a property of its own
    under that name, the assignment reaches the setter of
    [Object.prototype], which ignores a value that is not an object, and
    nothing is written. *)
Definition assign (o : Obj) (k v : string) : Obj :=
  if String.eqb k "__proto__" && negb (map_has k o) then o else map_set k v o.

(** The same [Map] with a function applied to every value. *)
Definition map_values {V W} (g : V -> W) (m : Map V) : Map W :=
  map (fun kv => (fst kv, g (snd kv))) m.

End Js.

(** ** The snapshot differ: [App._computeDiff] *)

Module Differ.
Import Js.

(** A chunk as it is stored in a project snapshot. *)
Record Chunk := {
  ch_uid : string;                          (* _uid, the stable identifier *)
  ch_id : string;                           (* id, the user-facing one *)
  ch_text : option string;
  ch_metadata : option Obj;                 (* page_title, source, license *)
  ch_customFields : list (string * string)  (* [{ key, value }] *)
}.

Record Category := {
  cat_id : string;
  cat_name : string;
  cat_expanded : bool;
  cat_chunks : list Chunk
}.

Record Snapshot := {
  snap_name : string;
  snap_categories : option (list Category)
}.

Inductive DiffType := added | deleted | modified.

Record DiffRecord := { d_type : DiffType; d_text : string }.

Definition DiffType_eqb (a b : DiffType) : bool :=
  match a, b with
  | added, added | deleted, deleted | modified, modified => true
  | _, _ => false
  end.

(** [snap.categories || []] *)
Definition categories (s : Snapshot) : list Category :=
  match snap_categories s with Some cs => cs | None => [] end.

(** [ch.metadata || {}] *)
Definition metadata (ch : Chunk) : Obj :=
  match ch_metadata ch with Some o => o | None => [] end.

(** *** The template literals *)

(** The double-quote character. *)
Definition dquote : string := String (ascii_of_nat 34) EmptyString.

(** [`"${s}"`] *)
Definition quoted (s : string) : string := dquote +:+ s +:+ dquote.

Definition arrow : string := " → ".

(** [`(${cat.chunks.length} chunks)`] *)
Definition chunkCount (cat : Category) : string :=
  "(" +:+ pretty (length (cat_chunks cat)) +:+ " chunks)".

Definition categoryListed (cat : Category) : DiffRecord :=
  {| d_type := added;
     d_text := "Category " +:+ quoted (cat_name cat) +:+ " " +:+ chunkCount cat |}.

Definition chunkListed (ch : Chunk) (cat : Category) : DiffRecord :=
  {| d_type := added;
     d_text := "Chunk " +:+ quoted (ch_id ch) +:+ " in " +:+ quoted (cat_name cat) |}.

Definition categoryRemoved (cat : Category) : DiffRecord :=
  {| d_type := deleted;
     d_text := "Category " +:+ quoted (cat_name cat) +:+ " removed " +:+ chunkCount cat |}.

Definition categoryAdded (cat : Category) : DiffRecord :=
  {| d_type := added;
     d_text := "Category " +:+ quoted (cat_name cat) +:+ " added " +:+ chunkCount cat |}.

Definition categoryRenamed (prevCat currCat : Category) : DiffRecord :=
  {| d_type := modified;
     d_text := "Category renamed: " +:+ quoted (cat_name prevCat) +:+ arrow
               +:+ quoted (cat_name currCat) |}.

Definition chunkRemoved (ch : Chunk) (currCat : Category) : DiffRecord :=
  {| d_type := deleted;
     d_text := "Chunk " +:+ quoted (ch_id ch) +:+ " removed from "
               +:+ quoted (cat_name currCat) |}.

Definition chunkAdded (ch : Chunk) (currCat : Category) : DiffRecord :=
  {| d_type := added;
     d_text := "Chunk " +:+ quoted (ch_id ch) +:+ " added to "
               +:+ quoted (cat_name currCat) |}.

Definition idChange (prevCh currCh : Chunk) : string :=
  "id: " +:+ quoted (ch_id prevCh) +:+ arrow +:+ quoted (ch_id currCh).

Definition textChange (prevCh currCh : Chunk) : string :=
  let prevLen := String.length (orEmpty (ch_text prevCh)) in
  let currLen := String.length (orEmpty (ch_text currCh)) in
  "text changed (" +:+ pretty prevLen +:+ arrow +:+ pretty currLen +:+ " chars)".

(** [`${k}: "${pv || ''}" → "${cv || ''}"`] *)
Definition valueChange (k : string) (pv cv : Value) : string :=
  k +:+ ": " +:+ quoted (shown pv) +:+ arrow +:+ quoted (shown cv).

(** The same line for two values given as the objects' own entries, an
    absent one reading as the empty text. *)
Definition metaChange (k : string) (pv cv : option string) : string :=
  k +:+ ": " +:+ quoted (orEmpty pv) +:+ arrow +:+ quoted (orEmpty cv).

Definition chunkModified (currCh : Chunk) (currCat : Category)
    (changes : list string) : DiffRecord :=
  {| d_type := modified;
     d_text := "Chunk " +:+ quoted (ch_id currCh) +:+ " in " +:+ quoted (cat_name currCat)
               +:+ ": " +:+ join ", " changes |}.

(** The value stored per uid while looking for moved chunks:
    [{ cat: cat.name, ch }]. *)
Record ChunkInfo := { info_cat : string; info_ch : Chunk }.

Definition chunkMoved (prevInfo currInfo : ChunkInfo) : DiffRecord :=
  {| d_type := modified;
     d_text := "Chunk " +:+ quoted (ch_id (info_ch currInfo)) +:+ " moved: "
               +:+ quoted (info_cat prevInfo) +:+ arrow +:+ quoted (info_cat currInfo) |}.

(** *** The function, loop by loop *)

(** The branch taken when there is no previous snapshot. *)
Definition diffFromNothing (curr : Snapshot) : list DiffRecord :=
  fold_left (fun diffs cat =>
    let diffs := push diffs (categoryListed cat) in
    fold_left (fun diffs ch => push diffs (chunkListed ch cat)) (cat_chunks cat) diffs)
    (categories curr) [].

(** [new Map(cats.map(c => [c.id, c]))] *)
Definition catMap (cats : list Category) : Map Category :=
  map_of (map (fun c => (cat_id c, c)) cats).

(** [new Map(chunks.map(ch => [ch._uid, ch]))] *)
Definition chunkMap (chunks : list Chunk) : Map Chunk :=
  map_of (map (fun ch => (ch_uid ch, ch)) chunks).

(** The loop "Deleted categories". *)
Definition deletedCategories (prevCats currCats : Map Category)
    (diffs : list DiffRecord) : list DiffRecord :=
  fold_left (fun diffs kv =>
    if negb (map_has (fst kv) currCats) then push diffs (categoryRemoved (snd kv))
    else diffs)
    prevCats diffs.

(** The loop "Added categories". *)
Definition addedCategories (prevCats currCats : Map Category)
    (diffs : list DiffRecord) : list DiffRecord :=
  fold_left (fun diffs kv =>
    if negb (map_has (fst kv) prevCats) then push diffs (categoryAdded (snd kv))
    else diffs)
    currCats diffs.

(** The [changes] array built for one chunk found in both snapshots. *)
Definition chunkChanges (prevCh currCh : Chunk) : list string :=
  let changes := [] in
  let changes :=
    if negb (String.eqb (ch_id prevCh) (ch_id currCh))
    then push changes (idChange prevCh currCh) else changes in
  let changes :=
    if negb (bool_decide (ch_text prevCh = ch_text currCh))
    then push changes (textChange prevCh currCh) else changes in
  let metaKeys := set_of (keys (metadata prevCh) ++ keys (metadata currCh)) in
  fold_left (fun changes k =>
    let pv := get (metadata prevCh) k in
    let cv := get (metadata currCh) k in
    if negb (bool_decide (pv = cv)) then push changes (valueChange k pv cv) else changes)
    metaKeys changes.

(** The three chunk loops run for one category present in both snapshots:
    chunks gone, chunks new, chunks changed. *)
Definition removedChunks (prevChunks currChunks : Map Chunk) (currCat : Category)
    (diffs : list DiffRecord) : list DiffRecord :=
  fold_left (fun diffs kv =>
    if negb (map_has (fst kv) currChunks) then push diffs (chunkRemoved (snd kv) currCat)
    else diffs)
    prevChunks diffs.

Definition addedChunks (prevChunks currChunks : Map Chunk) (currCat : Category)
    (diffs : list DiffRecord) : list DiffRecord :=
  fold_left (fun diffs kv =>
    if negb (map_has (fst kv) prevChunks) then push diffs (chunkAdded (snd kv) currCat)
    else diffs)
    currChunks diffs.

Definition changedChunks (prevChunks currChunks : Map Chunk) (currCat : Category)
    (diffs : list DiffRecord) : list DiffRecord :=
  fold_left (fun diffs kv =>
    match map_get (fst kv) prevChunks with
    | None => diffs
    | Some prevCh =>
        let changes := chunkChanges prevCh (snd kv) in
        if (0 <? length changes) then push diffs (chunkModified (snd kv) currCat changes)
        else diffs
    end)
    currChunks diffs.

Definition compareChunks (prevCat currCat : Category)
    (diffs : list DiffRecord) : list DiffRecord :=
  let prevChunks := chunkMap (cat_chunks prevCat) in
  let currChunks := chunkMap (cat_chunks currCat) in
  let diffs := removedChunks prevChunks currChunks currCat diffs in
  let diffs := addedChunks prevChunks currChunks currCat diffs in
  changedChunks prevChunks currChunks currCat diffs.

(** The loop "Modified categories". *)
Definition modifiedCategories (prevCats currCats : Map Category)
    (diffs : list DiffRecord) : list DiffRecord :=
  fold_left (fun diffs kv =>
    match map_get (fst kv) prevCats with
    | None => diffs
    | Some prevCat =>
        let currCat := snd kv in
        let diffs :=
          if negb (String.eqb (cat_name prevCat) (cat_name currCat))
          then push diffs (categoryRenamed prevCat currCat) else diffs in
        compareChunks prevCat currCat diffs
    end)
    currCats diffs.

(** [allPrevChunkUids] / [allCurrChunkUids] *)
Definition allChunkUids (cats : list Category) : Map ChunkInfo :=
  fold_left (fun m cat =>
    fold_left (fun m ch =>
      map_set (ch_uid ch) {| info_cat := cat_name cat; info_ch := ch |} m)
      (cat_chunks cat) m)
    cats [].

(** The predicate handed to [findIndex] for the add and the delete record. *)
Definition mentions (ty : DiffType) (info : ChunkInfo) (d : DiffRecord) : bool :=
  DiffType_eqb (d_type d) ty
  && includes (d_text d) (quoted (ch_id (info_ch info)))
  && includes (d_text d) (quoted (info_cat info)).

(** The body of the last loop for one chunk found under two category names.
    Both indices are computed before anything is removed. *)
Definition replaceByMove (prevInfo currInfo : ChunkInfo)
    (diffs : list DiffRecord) : list DiffRecord :=
  let addIdx := findIndex (mentions added currInfo) diffs in
  let delIdx := findIndex (mentions deleted prevInfo) diffs in
  let diffs := if negb (addIdx =? -1)%Z then splice1 addIdx diffs else diffs in
  let diffs :=
    if negb (delIdx =? -1)%Z then
      splice1 (if (delIdx >? addIdx)%Z then (delIdx - 1)%Z else delIdx) diffs
    else diffs in
  push diffs (chunkMoved prevInfo currInfo).

(** The loop "Check for chunks moved between categories". *)
Definition movedChunks (allPrevChunkUids allCurrChunkUids : Map ChunkInfo)
    (diffs : list DiffRecord) : list DiffRecord :=
  fold_left (fun diffs kv =>
    match map_get (fst kv) allPrevChunkUids with
    | None => diffs
    | Some prevInfo =>
        if negb (String.eqb (info_cat prevInfo) (info_cat (snd kv)))
        then replaceByMove prevInfo (snd kv) diffs
        else diffs
    end)
    allCurrChunkUids diffs.

(** The records collected before the moved-chunk loop starts. *)
Definition perCategoryDiff (prev curr : Snapshot) : list DiffRecord :=
  let prevCats := catMap (categories prev) in
  let currCats := catMap (categories curr) in
  let diffs := [] in
  let diffs := deletedCategories prevCats currCats diffs in
  let diffs := addedCategories prevCats currCats diffs in
  modifiedCategories prevCats currCats diffs.

(** [_computeDiff(prev, curr)]; [None] is a null [prev]. *)
Definition _computeDiff (prev : option Snapshot) (curr : Snapshot) : list DiffRecord :=
  match prev with
  | None => diffFromNothing curr
  | Some prev =>
      let diffs := perCategoryDiff prev curr in
      movedChunks (allChunkUids (categories prev)) (allChunkUids (categories curr)) diffs
  end.

(** *** The order of the output, as a list expression

    The same records written as what each pass contributes, in the order in
    which the passes run; [perCategoryDiff_order] below shows that the loops
    build exactly this list. *)

Definition categoryDeletions (prevCats currCats : Map Category) : list DiffRecord :=
  flat_map (fun kv => if map_has (fst kv) currCats then [] else [categoryRemoved (snd kv)])
    prevCats.

Definition categoryAdditions (prevCats currCats : Map Category) : list DiffRecord :=
  flat_map (fun kv => if map_has (fst kv) prevCats then [] else [categoryAdded (snd kv)])
    currCats.

Definition renameRecord (prevCat currCat : Category) : list DiffRecord :=
  if String.eqb (cat_name prevCat) (cat_name currCat) then []
  else [categoryRenamed prevCat currCat].

Definition chunkDeletions (prevCat currCat : Category) : list DiffRecord :=
  flat_map (fun kv =>
    if map_has (fst kv) (chunkMap (cat_chunks currCat)) then []
    else [chunkRemoved (snd kv) currCat])
    (chunkMap (cat_chunks prevCat)).

Definition chunkAdditions (prevCat currCat : Category) : list DiffRecord :=
  flat_map (fun kv =>
    if map_has (fst kv) (chunkMap (cat_chunks prevCat)) then []
    else [chunkAdded (snd kv) currCat])
    (chunkMap (cat_chunks currCat)).

Definition chunkModifications (prevCat currCat : Category) : list DiffRecord :=
  flat_map (fun kv =>
    match map_get (fst kv) (chunkMap (cat_chunks prevCat)) with
    | None => []
    | Some prevCh =>
        match chunkChanges prevCh (snd kv) with
        | [] => []
        | changes => [chunkModified (snd kv) currCat changes]
        end
    end)
    (chunkMap (cat_chunks currCat)).

(** What one category of the current snapshot contributes when the previous
    snapshot has a category with the same id. *)
Definition categoryBlock (prevCats : Map Category) (kv : string * Category)
    : list DiffRecord :=
  match map_get (fst kv) prevCats with
  | None => []
  | Some prevCat =>
      renameRecord prevCat (snd kv) ++ chunkDeletions prevCat (snd kv)
      ++ chunkAdditions prevCat (snd kv) ++ chunkModifications prevCat (snd kv)
  end.

Definition expectedOrder (prev curr : Snapshot) : list DiffRecord :=
  let prevCats := catMap (categories prev) in
  let currCats := catMap (categories curr) in
  categoryDeletions prevCats currCats ++ categoryAdditions prevCats currCats
  ++ flat_map (categoryBlock prevCats) currCats.

Definition moveRecords (prev curr : Snapshot) : list DiffRecord :=
  flat_map (fun kv =>
    match map_get (fst kv) (allChunkUids (categories prev)) with
    | None => []
    | Some prevInfo =>
        if String.eqb (info_cat prevInfo) (info_cat (snd kv)) then []
        else [chunkMoved prevInfo (snd kv)]
    end)
    (allChunkUids (categories curr)).

(** *** Classifying a record by its type and the way its text starts *)

Definition isCategoryDeletion (d : DiffRecord) : bool :=
  DiffType_eqb (d_type d) deleted && String.prefix "Category " (d_text d).

Definition isCategoryAddition (d : DiffRecord) : bool :=
  DiffType_eqb (d_type d) added && String.prefix "Category " (d_text d).

Definition isCategoryModification (d : DiffRecord) : bool :=
  DiffType_eqb (d_type d) modified && String.prefix "Category renamed: " (d_text d).

Definition isChunkRecord (d : DiffRecord) : bool :=
  String.prefix "Chunk " (d_text d).

Definition isChunkModification (d : DiffRecord) : bool :=
  DiffType_eqb (d_type d) modified && String.prefix "Chunk " (d_text d).

(** *** Small snapshots used in the examples below *)

Definition mkChunk (uid id text : string) : Chunk :=
  {| ch_uid := uid; ch_id := id; ch_text := Some text;
     ch_metadata := Some [("page_title", ""); ("source", ""); ("license", "")];
     ch_customFields := [] |}.

Definition mkCat (id name : string) (chunks : list Chunk) : Category :=
  {| cat_id := id; cat_name := name; cat_expanded := true; cat_chunks := chunks |}.

Definition mkSnap (cats : list Category) : Snapshot :=
  {| snap_name := "d"; snap_categories := Some cats |}.

(** A chunk moved from category A into a category that is new in the current
    snapshot. *)
Definition movedToNew_prev : Snapshot :=
  mkSnap [mkCat "a" "A" [mkChunk "u1" "x" "hello"]].
Definition movedToNew_curr : Snapshot :=
  mkSnap [mkCat "a" "A" []; mkCat "b" "B" [mkChunk "u1" "x" "hello"]].

(** The same chunk moved from A to B when B exists in both snapshots. *)
Definition movedBetween_prev : Snapshot :=
  mkSnap [mkCat "a" "A" [mkChunk "u1" "x" "hello"]; mkCat "b" "B" []].
Definition movedBetween_curr : Snapshot :=
  mkSnap [mkCat "a" "A" []; mkCat "b" "B" [mkChunk "u1" "x" "hello"]].

(** A chunk edited in the first category while the second one is renamed. *)
Definition editThenRename_prev : Snapshot :=
  mkSnap [mkCat "a" "A" [mkChunk "u1" "x" "hello"]; mkCat "b" "B" []].
Definition editThenRename_curr : Snapshot :=
  mkSnap [mkCat "a" "A" [mkChunk "u1" "y" "hello!"]; mkCat "b" "B2" []].

(** A chunk with the given [metadata] object. *)
Definition withMetadata (o : Obj) : Chunk :=
  {| ch_uid := "u1"; ch_id := "creeper"; ch_text := Some "hostile";
     ch_metadata := Some o; ch_customFields := [] |}.

(** A chunk whose only change is the value of a custom field. *)
Definition withHealth (v : string) : Chunk :=
  {| ch_uid := "u1"; ch_id := "creeper"; ch_text := Some "hostile";
     ch_metadata := Some [("page_title", "Creeper"); ("source", "wiki"); ("license", "")];
     ch_customFields := [("health", v)] |}.
Definition customEdit_prev : Snapshot := mkSnap [mkCat "a" "Mobs" [withHealth "20"]].
Definition customEdit_curr : Snapshot := mkSnap [mkCat "a" "Mobs" [withHealth "25"]].

(** *** Ways of reading the specification's sentences *)

(** "Category modifications come before the chunk records": no chunk record
    stands before a category modification. *)
Definition categoryModificationsFirst (out : list DiffRecord) : Prop :=
  forall i j ri rj,
    out !! i = Some ri -> out !! j = Some rj ->
    isChunkRecord ri = true -> isCategoryModification rj = true -> j < i.

(** No key of the chunk's [metadata] object is the name of a member of
    [Object.prototype], so that what is read under a key is the object's own
    entry or [undefined]. *)
Definition plainMetadata (ch : Chunk) : bool :=
  forallb (fun k => negb (inherited k)) (keys (metadata ch)).

Definition plainSnapshot (s : Snapshot) : bool :=
  forallb (fun cat => forallb plainMetadata (cat_chunks cat)) (categories s).

(** Two versions of a chunk differ in the user-facing id, the text, or the
    value of some key of the [metadata] object. *)
Definition fieldsDiffer (prevCh currCh : Chunk) : Prop :=
  ch_id prevCh <> ch_id currCh
  \/ ch_text prevCh <> ch_text currCh
  \/ exists k, prop (metadata prevCh) k <> prop (metadata currCh) k.

(** The changes listed for a chunk: the id, then the text, then every
    metadata key (keys of the previous version first) whose value differs. *)
Definition describedChanges (prevCh currCh : Chunk) : list string :=
  (if decide (ch_id prevCh = ch_id currCh) then [] else [idChange prevCh currCh])
  ++ (if decide (ch_text prevCh = ch_text currCh) then [] else [textChange prevCh currCh])
  ++ flat_map (fun k =>
       let pv := prop (metadata prevCh) k in
       let cv := prop (metadata currCh) k in
       if decide (pv = cv) then [] else [metaChange k pv cv])
       (set_of (keys (metadata prevCh) ++ keys (metadata currCh))).

(** [r] is the record of a chunk found, by uid, in the same category (by
    category id) of both snapshots, whose fields differ. *)
Definition changedChunkRecord (prev curr : Snapshot) (r : DiffRecord) : Prop :=
  exists cid prevCat currCat uid prevCh currCh,
    map_get cid (catMap (categories prev)) = Some prevCat
    /\ map_get cid (catMap (categories curr)) = Some currCat
    /\ map_get uid (chunkMap (cat_chunks prevCat)) = Some prevCh
    /\ map_get uid (chunkMap (cat_chunks currCat)) = Some currCh
    /\ fieldsDiffer prevCh currCh
    /\ r = chunkModified currCh currCat (describedChanges prevCh currCh).

(** *** What the differ does not look at *)

(** A chunk without its custom fields. *)
Definition forgetChunk (ch : Chunk) : Chunk :=
  {| ch_uid := ch_uid ch; ch_id := ch_id ch; ch_text := ch_text ch;
     ch_metadata := ch_metadata ch; ch_customFields := [] |}.

(** A category with the expansion flag set and its chunks without custom
    fields. *)
Definition forgetCategory (c : Category) : Category :=
  {| cat_id := cat_id c; cat_name := cat_name c; cat_expanded := true;
     cat_chunks := map forgetChunk (cat_chunks c) |}.

(** A snapshot without its name, the expansion flags and the custom fields. *)
Definition forget (s : Snapshot) : Snapshot :=
  {| snap_name := ""; snap_categories := Some (map forgetCategory (categories s)) |}.

(** A category renamed between two snapshots, with a chunk in it. *)
Definition renamed_prev : Snapshot :=
  mkSnap [mkCat "a" "Mobs" [mkChunk "u1" "creeper" "hostile"]].
Definition renamed_curr : Snapshot :=
  mkSnap [mkCat "a" "Enemies" [mkChunk "u1" "creeper" "hostile"]].

Definition forgetInfo (info : ChunkInfo) : ChunkInfo :=
  {| info_cat := info_cat info; info_ch := forgetChunk (info_ch info) |}.

End Differ.

(** ** The localStorage-backed [Store] *)

Module LocalStore.
Import Js.

Record CustomField := { cf_key : string; cf_value : string }.

Record Chunk := {
  ch_uid : string;
  ch_id : string;
  ch_text : string;
  ch_metadata : Obj;
  ch_customFields : option (list CustomField)
}.

Record Category := {
  cat_id : string;
  cat_name : string;
  cat_expanded : bool;
  cat_chunks : list Chunk
}.

Record Project := {
  p_id : string;
  p_name : string;
  p_createdAt : string;
  p_categories : list Category
}.

(** [this.data].  Saving to localStorage and notifying the listeners
    ([_save]) leave it as it is. *)
Record Data := {
  projects : list Project;
  currentProjectId : option string
}.

(** [arr.find(p)] is [List.find]; this replaces the first element that
    satisfies [p], which is what a mutation of the found object amounts to. *)
Fixpoint updateFound {A} (p : A -> bool) (f : A -> A) (arr : list A) : list A :=
  match arr with
  | [] => []
  | x :: rest => if p x then f x :: rest else x :: updateFound p f rest
  end.

Definition hasId (id : string) (p : Project) : bool := String.eqb (p_id p) id.
Definition catHasId (id : string) (c : Category) : bool := String.eqb (cat_id c) id.
Definition chunkHasUid (uid : string) (ch : Chunk) : bool := String.eqb (ch_uid ch) uid.

Definition getCurrentProject (d : Data) : option Project :=
  match currentProjectId d with
  | None => None
  | Some id => if truthy id then find (hasId id) (projects d) else None
  end.

(** All chunks of a project, category by category. *)
Definition allChunks (project : Project) : list Chunk :=
  flat_map cat_chunks (p_categories project).

(** The copy made by [duplicateChunk]: a deep clone of [orig] with a new
    [_uid] and the id [orig.id ? orig.id + '_copy' : '']. *)
Definition copyOf (fresh : string) (orig : Chunk) : Chunk :=
  {| ch_uid := fresh;
     ch_id := if truthy (ch_id orig) then ch_id orig +:+ "_copy" else "";
     ch_text := ch_text orig;
     ch_metadata := ch_metadata orig;
     ch_customFields := ch_customFields orig |}.

(** [cat.chunks.push(copy)] *)
Definition pushChunk (copy : Chunk) (c : Category) : Category :=
  {| cat_id := cat_id c; cat_name := cat_name c; cat_expanded := cat_expanded c;
     cat_chunks := push (cat_chunks c) copy |}.

Definition inCategory (catId : string) (f : Category -> Category) (p : Project)
    : Project :=
  {| p_id := p_id p; p_name := p_name p; p_createdAt := p_createdAt p;
     p_categories := updateFound (catHasId catId) f (p_categories p) |}.

(** [duplicateChunk(catId, chunkUid)]; [fresh] is what [uid()] returns.  The
    result is the new data and the returned [{ categoryId, chunkUid }]. *)
Definition duplicateChunk (fresh catId chunkUid : string) (d : Data)
    : Data * option (string * string) :=
  match getCurrentProject d with
  | None => (d, None)
  | Some project =>
      match find (catHasId catId) (p_categories project) with
      | None => (d, None)
      | Some cat =>
          match find (chunkHasUid chunkUid) (cat_chunks cat) with
          | None => (d, None)
          | Some orig =>
              let copy := copyOf fresh orig in
              ({| projects :=
                    updateFound (hasId (p_id project))
                      (inCategory catId (pushChunk copy)) (projects d);
                  currentProjectId := currentProjectId d |},
               Some (catId, ch_uid copy))
          end
      end
  end.

(** [isChunkIdTaken(id, excludeUid)] *)
Definition isChunkIdTaken (id : string) (excludeUid : option string) (d : Data) : bool :=
  if negb (truthy id) then false
  else match getCurrentProject d with
       | None => false
       | Some project =>
           existsb (fun cat =>
             existsb (fun chunk =>
               negb (bool_decide (Some (ch_uid chunk) = excludeUid))
               && String.eqb (ch_id chunk) id)
               (cat_chunks cat))
             (p_categories project)
       end.

(** *** Import and export of the flat format *)

(** A metadata value of an imported record: a string or [null].  Numbers,
    booleans and nested values are outside this model. *)
Inductive MetaValue := MNull | MStr (s : string).

(** One record of the imported array; [None] is an absent property. *)
Record FlatRecord := {
  fr_id : option string;
  fr_text : option string;
  fr_metadata : option (list (string * MetaValue))
}.

(** One record of the exported array. *)
Record ExportEntry := { e_id : string; e_text : string; e_metadata : Obj }.

(** [STANDARD_META.has(key)] *)
Definition isStandard (key : string) : bool :=
  String.eqb key "page_title" || String.eqb key "source" || String.eqb key "license".

(** [String(value ?? '')] *)
Definition stringOf (v : MetaValue) : string :=
  match v with MNull => "" | MStr s => s end.

(** [meta.key || ''] *)
Definition valueOrEmpty (v : option MetaValue) : string :=
  match v with Some (MStr s) => s | _ => "" end.

(** The chunk built from one entry of the array. *)
Definition importChunk (uid : string) (entry : FlatRecord) : Chunk :=
  let meta := match fr_metadata entry with Some m => m | None => [] end in
  let customFields :=
    fold_left (fun cfs kv =>
      if negb (isStandard (fst kv))
      then push cfs {| cf_key := fst kv; cf_value := stringOf (snd kv) |}
      else cfs)
      meta [] in
  {| ch_uid := uid;
     ch_id := orEmpty (fr_id entry);
     ch_text := orEmpty (fr_text entry);
     ch_metadata := [("page_title", valueOrEmpty (map_get "page_title" meta));
                     ("source", valueOrEmpty (map_get "source" meta));
                     ("license", valueOrEmpty (map_get "license" meta))];
     ch_customFields := Some customFields |}.

(** [importProject(name, jsonArray)].  [uids n] is the value of the n-th call
    of [uid()] and [now] the creation time. *)
Definition importProject (uids : nat -> string) (now : string) (name : string)
    (jsonArray : list FlatRecord) (d : Data) : Data * Project :=
  let projectId := uids 0 in
  let categoryId := uids 1 in
  let chunks :=
    fst (fold_left (fun acc entry =>
           (push (fst acc) (importChunk (uids (snd acc)) entry), S (snd acc)))
           jsonArray ([], 2)) in
  let category :=
    {| cat_id := categoryId; cat_name := "Imported"; cat_expanded := true;
       cat_chunks := chunks |} in
  let project :=
    {| p_id := projectId; p_name := trim name; p_createdAt := now;
       p_categories := push [] category |} in
  ({| projects := push (projects d) project; currentProjectId := Some (p_id project) |},
   project).

(** The chunks [importProject] builds, with the uids drawn from [n] on. *)
Fixpoint importAll (uids : nat -> string) (n : nat) (entries : list FlatRecord)
    : list Chunk :=
  match entries with
  | [] => []
  | entry :: rest => importChunk (uids n) entry :: importAll uids (S n) rest
  end.

(** The entry built for one chunk by [exportJSON]. *)
Definition exportChunk (chunk : Chunk) : ExportEntry :=
  let metadata := ch_metadata chunk in
  let metadata :=
    match ch_customFields chunk with
    | Some cfs =>
        fold_left (fun metadata cf =>
          if truthy (cf_key cf) && truthy (trim (cf_key cf))
          then assign metadata (trim (cf_key cf)) (cf_value cf)
          else metadata)
          cfs metadata
    | None => metadata
    end in
  {| e_id := ch_id chunk; e_text := ch_text chunk; e_metadata := metadata |}.

(** [exportJSON()] *)
Definition exportJSON (d : Data) : option (list ExportEntry) :=
  match getCurrentProject d with
  | None => None
  | Some project =>
      Some (fold_left (fun result cat =>
              fold_left (fun result chunk => push result (exportChunk chunk))
                (cat_chunks cat) result)
              (p_categories project) [])
  end.

(** *** Ways of reading the specification's sentences *)

(** An exported entry reproduces an imported record: same id, same text, and
    the same value under every metadata key. *)
Definition reproduces (x : FlatRecord) (e : ExportEntry) : Prop :=
  fr_id x = Some (e_id e)
  /\ fr_text x = Some (e_text e)
  /\ exists m, fr_metadata x = Some m
       /\ forall k, map_get k m = MStr <$> prop (e_metadata e) k.

(** A record in the export shape: id, text and metadata present, metadata
    keys distinct, the three reserved keys present, every value a string. *)
Definition exportShaped (x : FlatRecord) : Prop :=
  exists id text m,
    fr_id x = Some id /\ fr_text x = Some text /\ fr_metadata x = Some m
    /\ List.NoDup (map fst m)
    /\ (forall k, isStandard k = true -> map_get k m <> None)
    /\ (forall k v, In (k, v) m -> exists s, v = MStr s).

(** The custom keys of a record survive the export untouched: none is empty
    and none starts or ends with white space. *)
Definition customKeysTrimmed (x : FlatRecord) : Prop :=
  forall m k v, fr_metadata x = Some m -> In (k, v) m -> isStandard k = false ->
    k <> "" /\ trim k = k.

(** No custom key of the record is [__proto__], the one name under which the
    export's assignment writes nothing. *)
Definition noProtoKey (x : FlatRecord) : Prop :=
  forall m v, fr_metadata x = Some m -> ~ In ("__proto__", v) m.

(** The uniqueness invariant of the user-facing ids: the non-empty ids of a
    project are pairwise distinct. *)
Definition uniqueChunkIds (project : Project) : Prop :=
  List.NoDup (List.filter truthy (map ch_id (allChunks project))).

(** *** Small stores used in the examples below *)

Definition plainChunk (uid id : string) : Chunk :=
  {| ch_uid := uid; ch_id := id; ch_text := "";
     ch_metadata := [("page_title", ""); ("source", ""); ("license", "")];
     ch_customFields := Some [] |}.

Definition storeWith (chunks : list Chunk) : Data :=
  {| projects :=
       [ {| p_id := "p1"; p_name := "minecraft"; p_createdAt := "2026-02-27T10:00:00.000Z";
            p_categories :=
              [ {| cat_id := "c1"; cat_name := "Mobs"; cat_expanded := true;
                   cat_chunks := chunks |} ] |} ];
     currentProjectId := Some "p1" |}.

Definition emptyStore : Data := {| projects := []; currentProjectId := None |}.

Definition uidsFrom (n : nat) : string := "uid-" +:+ pretty n.

Definition paddedKeyRecord : FlatRecord :=
  {| fr_id := Some "creeper"; fr_text := Some "hostile";
     fr_metadata := Some [("page_title", MStr "Creeper"); ("source", MStr "wiki");
                          ("license", MStr "CC"); (" health", MStr "20")] |}.

Definition emptyKeyRecord : FlatRecord :=
  {| fr_id := Some "zombie"; fr_text := Some "undead";
     fr_metadata := Some [("page_title", MStr "Zombie"); ("source", MStr "wiki");
                          ("license", MStr "CC"); ("", MStr "note")] |}.

Definition protoKeyRecord : FlatRecord :=
  {| fr_id := Some "ghast"; fr_text := Some "flying";
     fr_metadata := Some [("page_title", MStr "Ghast"); ("source", MStr "wiki");
                          ("license", MStr "CC"); ("__proto__", MStr "mob")] |}.

Definition cleanRecord : FlatRecord :=
  {| fr_id := Some "creeper"; fr_text := Some "hostile";
     fr_metadata := Some [("page_title", MStr "Creeper"); ("source", MStr "wiki");
                          ("license", MStr "CC"); ("health", MStr "20")] |}.

(** *** The other operations of the store *)

(** [CONFIG.DEFAULT_LICENSE] *)
Definition DEFAULT_LICENSE : string := "CC BY-NC-SA 3.0".

(** A mutation of the current project object: the project [find] returns is
    the first one with the current id, and it is changed in place. *)
Definition withProject (project : Project) (f : Project -> Project) (d : Data) : Data :=
  {| projects := updateFound (hasId (p_id project)) f (projects d);
     currentProjectId := currentProjectId d |}.

(** [createProject(name)]; [fresh] is what [uid()] returns, [now] the time. *)
Definition createProject (fresh now name : string) (d : Data) : Data * Project :=
  let project :=
    {| p_id := fresh; p_name := trim name; p_createdAt := now; p_categories := [] |} in
  ({| projects := push (projects d) project; currentProjectId := Some (p_id project) |},
   project).

(** [selectProject(id)] *)
Definition selectProject (id : string) (d : Data) : Data :=
  {| projects := projects d; currentProjectId := Some id |}.

(** [deleteProject(id)] *)
Definition deleteProject (id : string) (d : Data) : Data :=
  let remaining := List.filter (fun p => negb (String.eqb (p_id p) id)) (projects d) in
  {| projects := remaining;
     currentProjectId :=
       if bool_decide (currentProjectId d = Some id)
       then match remaining with
            | first :: _ => Some (p_id first)
            | [] => None
            end
       else currentProjectId d |}.

(** [getCategories()] *)
Definition getCategories (d : Data) : list Category :=
  match getCurrentProject d with
  | Some project => p_categories project
  | None => []
  end.

Definition inCategories (f : list Category -> list Category) (p : Project) : Project :=
  {| p_id := p_id p; p_name := p_name p; p_createdAt := p_createdAt p;
     p_categories := f (p_categories p) |}.

(** [addCategory(name)] *)
Definition addCategory (fresh name : string) (d : Data) : Data * option Category :=
  match getCurrentProject d with
  | None => (d, None)
  | Some project =>
      let cat :=
        {| cat_id := fresh; cat_name := trim name; cat_expanded := true;
           cat_chunks := [] |} in
      (withProject project (inCategories (fun cats => push cats cat)) d, Some cat)
  end.

(** [deleteCategory(catId)] *)
Definition deleteCategory (catId : string) (d : Data) : Data :=
  match getCurrentProject d with
  | None => d
  | Some project =>
      withProject project
        (inCategories (List.filter (fun c => negb (String.eqb (cat_id c) catId)))) d
  end.

Definition setName (newName : string) (c : Category) : Category :=
  {| cat_id := cat_id c; cat_name := newName; cat_expanded := cat_expanded c;
     cat_chunks := cat_chunks c |}.

(** [renameCategory(catId, newName)] *)
Definition renameCategory (catId newName : string) (d : Data) : Data :=
  match getCurrentProject d with
  | None => d
  | Some project =>
      match find (catHasId catId) (p_categories project) with
      | Some _ => withProject project (inCategory catId (setName (trim newName))) d
      | None => d
      end
  end.

Definition flipExpanded (c : Category) : Category :=
  {| cat_id := cat_id c; cat_name := cat_name c; cat_expanded := negb (cat_expanded c);
     cat_chunks := cat_chunks c |}.

(** [toggleCategory(catId)] *)
Definition toggleCategory (catId : string) (d : Data) : Data :=
  match getCurrentProject d with
  | None => d
  | Some project =>
      match find (catHasId catId) (p_categories project) with
      | Some _ => withProject project (inCategory catId flipExpanded) d
      | None => d
      end
  end.

(** The chunk [addChunk] creates. *)
Definition blankChunk (fresh : string) : Chunk :=
  {| ch_uid := fresh; ch_id := ""; ch_text := "";
     ch_metadata := [("page_title", ""); ("source", ""); ("license", DEFAULT_LICENSE)];
     ch_customFields := Some [] |}.

(** [addChunk(catId)]; the result is the new data and the returned
    [{ categoryId, chunkUid }]. *)
Definition addChunk (fresh catId : string) (d : Data) : Data * option (string * string) :=
  match getCurrentProject d with
  | None => (d, None)
  | Some project =>
      match find (catHasId catId) (p_categories project) with
      | None => (d, None)
      | Some _ =>
          (withProject project (inCategory catId (pushChunk (blankChunk fresh))) d,
           Some (catId, fresh))
      end
  end.

(** [getChunk(catId, chunkUid)] *)
Definition getChunk (catId chunkUid : string) (d : Data) : option Chunk :=
  match getCurrentProject d with
  | None => None
  | Some project =>
      match find (catHasId catId) (p_categories project) with
      | None => None
      | Some cat => find (chunkHasUid chunkUid) (cat_chunks cat)
      end
  end.

(** The [data] handed to [updateChunk]: the editor passes [id], [text],
    [metadata] and [customFields]; an absent property is [None]. *)
Record ChunkPatch := {
  patch_id : option string;
  patch_text : option string;
  patch_metadata : option Obj;
  patch_customFields : option (list CustomField)
}.

(** [{ ...chunk, ...data }] *)
Definition spread (data : ChunkPatch) (chunk : Chunk) : Chunk :=
  {| ch_uid := ch_uid chunk;
     ch_id := match patch_id data with Some v => v | None => ch_id chunk end;
     ch_text := match patch_text data with Some v => v | None => ch_text chunk end;
     ch_metadata :=
       match patch_metadata data with Some v => v | None => ch_metadata chunk end;
     ch_customFields :=
       match patch_customFields data with
       | Some v => Some v
       | None => ch_customFields chunk
       end |}.

Definition inChunks (f : list Chunk -> list Chunk) (c : Category) : Category :=
  {| cat_id := cat_id c; cat_name := cat_name c; cat_expanded := cat_expanded c;
     cat_chunks := f (cat_chunks c) |}.

(** [updateChunk(catId, chunkUid, data)] *)
Definition updateChunk (catId chunkUid : string) (data : ChunkPatch) (d : Data) : Data :=
  match getCurrentProject d with
  | None => d
  | Some project =>
      match find (catHasId catId) (p_categories project) with
      | None => d
      | Some cat =>
          match find (chunkHasUid chunkUid) (cat_chunks cat) with
          | None => d
          | Some _ =>
              withProject project
                (inCategory catId
                   (inChunks (updateFound (chunkHasUid chunkUid) (spread data)))) d
          end
      end
  end.

(** [deleteChunk(catId, chunkUid)] *)
Definition deleteChunk (catId chunkUid : string) (d : Data) : Data :=
  match getCurrentProject d with
  | None => d
  | Some project =>
      match find (catHasId catId) (p_categories project) with
      | None => d
      | Some _ =>
          withProject project
            (inCategory catId
               (inChunks (List.filter (fun ch => negb (String.eqb (ch_uid ch) chunkUid))))) d
      end
  end.

(** [getTotalChunks()] *)
Definition getTotalChunks (d : Data) : nat :=
  match getCurrentProject d with
  | None => 0
  | Some project =>
      fold_left (fun sum cat => sum + length (cat_chunks cat)) (p_categories project) 0
  end.

(** *** Saving from the editor: [App._saveCurrentChunk] *)

(** [this.selected] *)
Record Selected := { categoryId : string; chunkUid : string }.

(** The values read from the editor's inputs. *)
Record Form := {
  idVal : string;
  textVal : string;
  pageTitle : string;
  source : string;
  license : string;
  customFields : list CustomField
}.

Definition formPatch (form : Form) : ChunkPatch :=
  {| patch_id := Some (idVal form);
     patch_text := Some (textVal form);
     patch_metadata := Some [("page_title", pageTitle form); ("source", source form);
                             ("license", license form)];
     patch_customFields := Some (customFields form) |}.

(** [_saveCurrentChunk()]: the new data and the toast shown, if any. *)
Definition _saveCurrentChunk (selected : option Selected) (form : Form) (d : Data)
    : Data * option string :=
  match selected with
  | None => (d, None)
  | Some sel =>
      if truthy (idVal form) && isChunkIdTaken (idVal form) (Some (chunkUid sel)) d
      then (d, Some "This ID already exists. Try adding _1, _2, etc.")
      else (updateChunk (categoryId sel) (chunkUid sel) (formPatch form) d,
            Some "Chunk saved!")
  end.

(** The stable identifiers of a project are pairwise distinct. *)
Definition uniqueUids (project : Project) : Prop :=
  List.NoDup (map ch_uid (allChunks project)).

(** A project without categories. *)
Definition emptyProject (id name : string) : Project :=
  {| p_id := id; p_name := name; p_createdAt := "2026-02-27T10:00:00.000Z";
     p_categories := [] |}.

(** Three projects, the first of them current. *)
Definition threeProjects : Data :=
  {| projects := [emptyProject "p1" "minecraft"; emptyProject "p2" "terraria";
                  emptyProject "p3" "factorio"];
     currentProjectId := Some "p1" |}.

(** One project with two categories of one chunk each. *)
Definition twoCategories : Data :=
  {| projects :=
       [ {| p_id := "p1"; p_name := "minecraft"; p_createdAt := "2026-02-27T10:00:00.000Z";
            p_categories :=
              [ {| cat_id := "c1"; cat_name := "Mobs"; cat_expanded := true;
                   cat_chunks := [plainChunk "u1" "creeper"] |};
                {| cat_id := "c2"; cat_name := "Items"; cat_expanded := true;
                   cat_chunks := [plainChunk "u2" "sword"] |} ] |} ];
     currentProjectId := Some "p1" |}.

(** The assignment [metadata[k] = v] of the export takes effect: [k] is not
    [__proto__], or the object has a property of its own under that name. *)
Definition writable (o : Obj) (k : string) : bool :=
  negb (String.eqb k "__proto__") || map_has k o.

(** A chunk with the reserved fields left empty and the given custom
    fields. *)
Definition chunkWithFields (cfs : list CustomField) : Chunk :=
  {| ch_uid := "u1"; ch_id := "creeper"; ch_text := "hostile";
     ch_metadata := [("page_title", ""); ("source", ""); ("license", "")];
     ch_customFields := Some cfs |}.

(** The custom field whose value [exportJSON] leaves under the key [k]: the
    last one that is written (non-empty, non-blank key) under that key. *)
Definition lastWritten (k : string) (cfs : list CustomField) : option CustomField :=
  find (fun cf =>
    truthy (cf_key cf) && truthy (trim (cf_key cf)) && String.eqb (trim (cf_key cf)) k)
    (rev cfs).

End LocalStore.

(** ** The commit log of the versioned store

    The server keeps the history in lib/store, which is not among the
    sources; only its callers and the README describe it.  The log is
    therefore written down from the specification. *)

Module CommitLog.

(** Modelled from the spec: a commit, "a unique id, a timestamp, a source
    tag, an action tag, a human-readable summary, aggregate stats (category
    count, chunk count) computed from the snapshot, and a full deep copy of
    the Dataset". *)
Record Commit := {
  commit_id : string;
  timestamp : Z;
  source : string;
  action : string;
  summary : string;
  stats : nat * nat;
  snapshot : Differ.Snapshot
}.

(** Modelled from the spec: what [list] returns for a commit, the commit
    "without snapshot". *)
Record CommitInfo := {
  info_id : string;
  info_timestamp : Z;
  info_source : string;
  info_action : string;
  info_summary : string;
  info_stats : nat * nat
}.



(** Modelled from the spec: what one successful mutation hands to the log,
    with the id and the time drawn for the commit. *)
Record Mutation := {
  m_id : string;
  m_time : Z;
  m_source : string;
  m_action : string;
  m_summary : string;
  m_snapshot : Differ.Snapshot
}.







(** Modelled from the spec: [list] "returns commit metadata (excluding
    snapshots)", in the chronological order in which the log is kept. *)
Definition list (log : Datatypes.list Commit) : Datatypes.list CommitInfo :=
  map (fun c =>
    {| info_id := commit_id c; info_timestamp := timestamp c; info_source := source c;
       info_action := action c; info_summary := summary c; info_stats := stats c |})
    log.

End CommitLog.

(** ** The server: sessions, broadcast, HTTP handlers, WebSocket handlers *)

Module Server.
Import Js.

(** A WebSocket connection object. *)
Definition Ws := nat.

(** [{ browsers: Set<ws>, mcpClients: Set<ws>, createdAt }].  The two sets
    are finite sets of connections; the order in which a [Set] is iterated
    is not kept, and no statement below depends on the order of sending. *)
Record Session := {
  browsers : gset Ws;
  mcpClients : gset Ws;
  createdAt : Z
}.

(** The [data] part of a message. *)
Inductive Payload :=
  | ProjectRef (project : string)          (* { project: name } *)
  | StoreResult (result : string)          (* the object the store returned *)
  | Timestamp (t : Z)                      (* { timestamp: Date.now() } *)
  | Connected (session type : string)      (* { session, type } *)
  | ErrorMessage (message : string)        (* { message } *)
  | Forwarded (data : string).             (* msg.data of a received message *)

(** [JSON.stringify({ event, data })] *)
Record Message := { event : string; data : Payload }.

(** What has been handed to [ws.send], in order. *)
Definition Sent := list (Ws * Message).

(** The server's state: the [sessions] map, the [readyState] of every
    connection, and for every connection with a close handler the
    [sessionCode] and [clientType] it was accepted with. *)
Record State := {
  sessions : gmap string Session;
  readyState : Ws -> nat;
  attached : gmap Ws (string * string)
}.

Definition OPEN : nat := 1.
Definition CLOSING : nat := 2.
Definition CLOSED : nat := 3.

Definition withSessions (st : State) (s : gmap string Session) : State :=
  {| sessions := s; readyState := readyState st; attached := attached st |}.

Definition withReadyState (st : State) (ws : Ws) (rs : nat) : State :=
  {| sessions := sessions st;
     readyState := fun w => if decide (w = ws) then rs else readyState st w;
     attached := attached st |}.

(** The loop [for (const ws of targets) if (ws !== excludeWs &&
    ws.readyState === 1) ws.send(msg)]. *)
Definition sendAll (st : State) (targets : list Ws) (msg : Message)
    (excludeWs : option Ws) : Sent :=
  fold_left (fun sent ws =>
    if negb (bool_decide (Some ws = excludeWs)) && (readyState st ws =? OPEN)
    then push sent (ws, msg) else sent)
    targets [].

(** [broadcast(sessionCode, event, data, excludeWs)] *)
Definition broadcast (st : State) (sessionCode : string) (ev : string) (d : Payload)
    (excludeWs : option Ws) : Sent :=
  match sessions st !! sessionCode with
  | None => []
  | Some session =>
      sendAll st (elements (browsers session) ++ elements (mcpClients session))
        {| event := ev; data := d |} excludeWs
  end.

(** [broadcastToBrowsers(sessionCode, event, data)] *)
Definition broadcastToBrowsers (st : State) (sessionCode : string) (ev : string)
    (d : Payload) : Sent :=
  match sessions st !! sessionCode with
  | None => []
  | Some session =>
      sendAll st (elements (browsers session)) {| event := ev; data := d |} None
  end.

(** [generateCode()]: [draws] are the six-letter codes drawn one after the
    other; the first one not in use is returned.  [None] when every draw of
    the list is in use, where the function would go on drawing. *)
Fixpoint generateCode (draws : list string) (st : State) : option string :=
  match draws with
  | [] => None
  | code :: rest =>
      match sessions st !! code with
      | Some _ => generateCode rest st
      | None => Some code
      end
  end.

(** GET /api/session *)
Definition getSession (draws : list string) (now : Z) (st : State)
    : State * option string :=
  match generateCode draws st with
  | None => (st, None)
  | Some code =>
      (withSessions st
         (<[code := {| browsers := ∅; mcpClients := ∅; createdAt := now |}]> (sessions st)),
       Some code)
  end.

(** *** The mutation handlers

    They all have one shape: call the store, notify, answer; an exception of
    the store becomes an error status.  The store is not among the sources,
    so what its call did is an argument. *)

Inductive Route :=
  | CreateProject | DeleteProject
  | CreateCategory | RenameCategory | DeleteCategory | ToggleCategory
  | AddChunk | BulkAddChunks | AddBlankChunk | UpdateChunk | DeleteChunk
  | DuplicateChunk | MoveChunk | ImportJSON.

Inductive Outcome :=
  | Returned (result : string)
  | Thrown (message : string).

Record Response := { status : nat; body : string }.

Definition errorStatus (r : Route) : nat :=
  match r with
  | DeleteProject | DeleteCategory | DeleteChunk => 404
  | _ => 400
  end.

(** The event a handler announces after the store call, if any. *)
Definition notification (r : Route) (project result : string)
    : option (string * Payload) :=
  match r with
  | CreateProject => Some ("project:created", StoreResult result)
  | DeleteProject => Some ("project:deleted", StoreResult result)
  | ToggleCategory | AddBlankChunk | DuplicateChunk => None
  | CreateCategory | RenameCategory | DeleteCategory | AddChunk | BulkAddChunks
  | UpdateChunk | DeleteChunk | MoveChunk | ImportJSON =>
      Some ("data:changed", ProjectRef project)
  end.

(** One mutation request: [session] is [req.body.session] (or
    [req.query.session]), absent when [None]. *)
Definition handleMutation (r : Route) (project : string) (session : option string)
    (outcome : Outcome) (st : State) : Response * Sent :=
  match outcome with
  | Thrown message => ({| status := errorStatus r; body := message |}, [])
  | Returned result =>
      let sent :=
        match notification r project result, session with
        | Some (ev, d), Some code =>
            if truthy code then broadcastToBrowsers st code ev d else []
        | _, _ => []
        end in
      ({| status := 200; body := result |}, sent)
  end.

(** *** The WebSocket handlers *)

(** [session.mcpClients.add(ws)] for an mcp client, [session.browsers.add(ws)]
    for any other. *)
Definition join (clientType : string) (ws : Ws) (session : Session) : Session :=
  if String.eqb clientType "mcp"
  then {| browsers := browsers session;
          mcpClients := mcpClients session ∪ {[ws]};
          createdAt := createdAt session |}
  else {| browsers := browsers session ∪ {[ws]};
          mcpClients := mcpClients session;
          createdAt := createdAt session |}.

(** [session.mcpClients.delete(ws)] for an mcp client,
    [session.browsers.delete(ws)] for any other. *)
Definition leave (clientType : string) (ws : Ws) (session : Session) : Session :=
  if String.eqb clientType "mcp"
  then {| browsers := browsers session;
          mcpClients := mcpClients session ∖ {[ws]};
          createdAt := createdAt session |}
  else {| browsers := browsers session ∖ {[ws]};
          mcpClients := mcpClients session;
          createdAt := createdAt session |}.

(** [wss.on('connection', ...)]: [sessionParam] and [typeParam] are the
    [session] and [type] query parameters. *)
Definition wsConnect (ws : Ws) (sessionParam typeParam : option string) (now : Z)
    (st : State) : State * Sent :=
  let st := withReadyState st ws OPEN in
  let clientType :=
    match typeParam with
    | Some t => if truthy t then t else "browser"
    | None => "browser"
    end in
  let reject :=
    (withReadyState st ws CLOSING,
     [(ws, {| event := "error"; data := ErrorMessage "Invalid session code" |})]) in
  match sessionParam with
  | None => reject
  | Some sessionCode =>
      if negb (truthy sessionCode) then reject
      else match sessions st !! sessionCode with
      | None => reject
      | Some session =>
          let joined := join clientType ws session in
          let st :=
            {| sessions := <[sessionCode := joined]> (sessions st);
               readyState := readyState st;
               attached := <[ws := (sessionCode, clientType)]> (attached st) |} in
          let sent :=
            if String.eqb clientType "mcp"
            then broadcastToBrowsers st sessionCode "mcp:connected" (Timestamp now)
            else [] in
          (st, sent ++ [(ws, {| event := "connected";
                                data := Connected sessionCode clientType |})])
      end
  end.

(** [ws.on('message', ...)]: [parsed] is the event name and the data of the
    message, [None] when [JSON.parse] throws. *)
Definition wsMessage (ws : Ws) (parsed : option (string * string)) (st : State) : Sent :=
  match attached st !! ws, parsed with
  | Some (sessionCode, _), Some (ev, d) =>
      if String.eqb ev "data:changed"
      then broadcastToBrowsers st sessionCode "data:changed" (Forwarded d)
      else []
  | _, _ => []
  end.

(** [ws.on('close', ...)].  The handler works on the session object it got
    when the connection was accepted; a session is only taken out of the map
    once it has no members, so for a connection that is still a member this
    is the object found under its code. *)
Definition wsClose (ws : Ws) (now : Z) (st : State) : State * Sent :=
  let st := withReadyState st ws CLOSED in
  match attached st !! ws with
  | None => (st, [])
  | Some (sessionCode, clientType) =>
      let st :=
        {| sessions := sessions st; readyState := readyState st;
           attached := delete ws (attached st) |} in
      match sessions st !! sessionCode with
      | None => (st, [])
      | Some session =>
          let left := leave clientType ws session in
          let st := withSessions st (<[sessionCode := left]> (sessions st)) in
          let sent :=
            if String.eqb clientType "mcp"
            then broadcastToBrowsers st sessionCode "mcp:disconnected" (Timestamp now)
            else [] in
          (* Clean up empty sessions *)
          let st :=
            if (size (browsers left) =? 0) && (size (mcpClients left) =? 0)
            then withSessions st (delete sessionCode (sessions st))
            else st in
          (st, sent)
      end
  end.

(** The half hour of the periodic clean-up, in milliseconds. *)
Definition staleAfter : Z := 30 * 60 * 1000.

Definition stale (now : Z) (session : Session) : bool :=
  (size (browsers session) =? 0) && (size (mcpClients session) =? 0)
  && (now - createdAt session >? staleAfter)%Z.

(** The body of the [setInterval] callback. *)
Definition sweep (now : Z) (st : State) : State :=
  withSessions st (filter (fun kv => stale now (snd kv) = false) (sessions st)).

(** *** The server as a transition system *)

Inductive Event :=
  | GetSession (draws : list string) (now : Z)
  | Mutation (r : Route) (project : string) (session : option string) (outcome : Outcome)
  | WsConnect (ws : Ws) (sessionParam typeParam : option string) (now : Z)
  | WsMessage (ws : Ws) (parsed : option (string * string))
  | WsClose (ws : Ws) (now : Z)
  | Sweep (now : Z).

(** A connection object is accepted once: a [WsConnect] for a connection that
    already has its close handler does nothing. *)
Definition step (e : Event) (st : State) : State * Sent :=
  match e with
  | GetSession draws now => (fst (getSession draws now st), [])
  | Mutation r project session outcome =>
      (st, snd (handleMutation r project session outcome st))
  | WsConnect ws sessionParam typeParam now =>
      match attached st !! ws with
      | Some _ => (st, [])
      | None => wsConnect ws sessionParam typeParam now st
      end
  | WsMessage ws parsed => (st, wsMessage ws parsed st)
  | WsClose ws now => wsClose ws now st
  | Sweep now => (sweep now st, [])
  end.

(** *** Ways of reading the specification's sentences *)

(** "Every connected handle in both roles except the originator": every open
    member other than [origin] got [msg], and [origin] did not. *)
Definition reachesAllButOriginator (st : State) (session : Session) (origin : Ws)
    (msg : Message) (sent : Sent) : Prop :=
  (forall ws, ws ∈ browsers session ∪ mcpClients session ->
     readyState st ws = OPEN -> ws <> origin -> In (ws, msg) sent)
  /\ ~ In (origin, msg) sent.

(** "Emitted exactly on disconnect of the last secondary-role member": if a
    step sends [mcp:disconnected], no mcp member of that session is left. *)
Definition disconnectOnlyForLast (code : string) (after : State) (sent : Sent) : Prop :=
  (exists ws d, In (ws, {| event := "mcp:disconnected"; data := d |}) sent) ->
  forall session, sessions after !! code = Some session -> mcpClients session = ∅.

(** "A session is removed only by the periodic sweep". *)
Definition removedOnlyBySweep (e : Event) (st : State) : Prop :=
  forall code, is_Some (sessions st !! code) ->
    sessions (fst (step e st)) !! code = None ->
    exists now, e = Sweep now.

(** *** Small states used in the examples below *)

Definition allOpen (sessionMap : gmap string Session)
    (conns : gmap Ws (string * string)) : State :=
  {| sessions := sessionMap; readyState := fun _ => OPEN; attached := conns |}.

(** One browser (1) and one mcp client (2) in session ABC234. *)
Definition pairState : State :=
  allOpen {[ "ABC234" := {| browsers := {[1]}; mcpClients := {[2]}; createdAt := 0 |} ]}
          {[ 1 := ("ABC234", "browser"); 2 := ("ABC234", "mcp") ]}.

(** One browser (1) and two mcp clients (2, 3) in session ABC234. *)
Definition twoAgentsState : State :=
  allOpen {[ "ABC234" := {| browsers := {[1]}; mcpClients := {[2; 3]}; createdAt := 0 |} ]}
          {[ 1 := ("ABC234", "browser"); 2 := ("ABC234", "mcp"); 3 := ("ABC234", "mcp") ]}.

(** The session ABC234, created at time 0, which nobody has joined. *)
Definition idleState : State :=
  allOpen {[ "ABC234" := {| browsers := ∅; mcpClients := ∅; createdAt := 0 |} ]} ∅.

(** A single browser (1) in session ABC234. *)
Definition loneBrowserState : State :=
  allOpen {[ "ABC234" := {| browsers := {[1]}; mcpClients := ∅; createdAt := 0 |} ]}
          {[ 1 := ("ABC234", "browser") ]}.

(** *** The states the server can be in *)

(** The server starts with no session and no connection. *)
Definition initial : State :=
  {| sessions := ∅; readyState := fun _ => CLOSED; attached := ∅ |}.

Inductive reachable : State -> Prop :=
  | reachable_initial : reachable initial
  | reachable_step e st : reachable st -> reachable (fst (step e st)).

(** The membership of the sessions and the close handlers agree: a connection
    with a close handler is a member of the session it was accepted with, in
    the set of its role and not in the other; and every member of a session
    is such a connection. *)
Definition consistent (st : State) : Prop :=
  (forall ws code ty, attached st !! ws = Some (code, ty) ->
     exists session, sessions st !! code = Some session
       /\ if String.eqb ty "mcp"
          then ws ∈ mcpClients session /\ ws ∉ browsers session
          else ws ∈ browsers session /\ ws ∉ mcpClients session)
  /\ (forall code session ws, sessions st !! code = Some session ->
        ws ∈ browsers session ∪ mcpClients session ->
        exists ty, attached st !! ws = Some (code, ty)).

End Server.

(** ** Two helpers of the front end: [App._formatTimeAgo] and [App._escAttr] *)

Module AppHelpers.
Import Js.

(** [_formatTimeAgo(isoString)]: [now] is [Date.now()], [then_] the time the
    ISO string stands for, both in milliseconds, and [localeDate] what
    [toLocaleDateString()] gives for it.  [Math.floor] of a quotient is the
    division of [Z]. *)
Definition _formatTimeAgo (now then_ : Z) (localeDate : string) : string :=
  let diff := (now - then_)%Z in
  let secs := (diff / 1000)%Z in
  if (secs <? 60)%Z then "just now"
  else
    let mins := (secs / 60)%Z in
    if (mins <? 60)%Z then pretty mins +:+ "m ago"
    else
      let hrs := (mins / 60)%Z in
      if (hrs <? 24)%Z then pretty hrs +:+ "h ago"
      else
        let days := (hrs / 24)%Z in
        if (days <? 30)%Z then pretty days +:+ "d ago"
        else localeDate.

(** [s.replace(/c/g, by)] for a single character [c]. *)
Fixpoint replaceAll (c : ascii) (by_ : string) (s : string) : string :=
  match s with
  | EmptyString => EmptyString
  | String a rest =>
      if Ascii.eqb a c then by_ +:+ replaceAll c by_ rest
      else String a (replaceAll c by_ rest)
  end.

Definition quoteChar : ascii := ascii_of_nat 34.
Definition lessChar : ascii := ascii_of_nat 60.
Definition greaterChar : ascii := ascii_of_nat 62.

(** [_escAttr(str)]; [None] is an undefined or null [str]. *)
Definition _escAttr (str : option string) : string :=
  replaceAll greaterChar "&gt;"
    (replaceAll lessChar "&lt;"
       (replaceAll quoteChar "&quot;" (orEmpty str))).

(** The text [say "<hi>"]. *)
Definition sayHi : string :=
  "say " +:+ String quoteChar ("<hi>" +:+ String quoteChar EmptyString).

(** The character [c] occurs in [s]. *)
Fixpoint hasChar (c : ascii) (s : string) : bool :=
  match s with
  | EmptyString => false
  | String a rest => Ascii.eqb a c || hasChar c rest
  end.

End AppHelpers.

(** * Properties *)

(** ** Facts about the runtime model *)

Module JsFacts.
Import Js.

Lemma fold_left_unchanged {A B} (f : A -> B -> A) (l : list B) (a : A) :
  (forall x a', In x l -> f a' x = a') -> fold_left f l a = a.
Proof.
  revert a. induction l as [|x l IH]; intros a H; simpl; [reflexivity|].
  rewrite H by (left; reflexivity). apply IH.
  intros y a' Hy. apply H. right; exact Hy.
Qed.

(** A loop that only ever appends to its accumulator builds the
    concatenation of what each round appends. *)
Lemma fold_left_emit {A B} (f : list A -> B -> list A) (g : B -> list A)
    (l : list B) (acc : list A) :
  (forall d x, In x l -> f d x = d ++ g x) ->
  fold_left f l acc = acc ++ flat_map g l.
Proof.
  revert acc. induction l as [|x l IH]; intros acc H; simpl.
  - now rewrite app_nil_r.
  - rewrite H by (left; reflexivity).
    rewrite IH by (intros d y Hy; apply H; right; exact Hy).
    now rewrite <- app_assoc.
Qed.

Lemma flat_map_nil {A B} (g : A -> list B) (l : list A) :
  (forall x, In x l -> g x = []) -> flat_map g l = [].
Proof.
  induction l as [|x l IH]; intros H; simpl; [reflexivity|].
  rewrite H by (left; reflexivity). apply IH.
  intros y Hy. apply H. right; exact Hy.
Qed.

Lemma map_get_set_same {V} k (v : V) m : map_get k (map_set k v m) = Some v.
Proof.
  induction m as [|[k' v'] m IH]; simpl.
  - now rewrite String.eqb_refl.
  - destruct (String.eqb k k') eqn:E; simpl.
    + now rewrite String.eqb_refl.
    + now rewrite E.
Qed.

Lemma map_get_set_other {V} k k' (v : V) m :
  k <> k' -> map_get k' (map_set k v m) = map_get k' m.
Proof.
  intros Hne. induction m as [|[k2 v2] m IH]; simpl.
  - destruct (String.eqb k' k) eqn:E; [|reflexivity].
    apply String.eqb_eq in E. congruence.
  - destruct (String.eqb k k2) eqn:E; simpl.
    + apply String.eqb_eq in E. subst k2.
      destruct (String.eqb k' k) eqn:E2; [|reflexivity].
      apply String.eqb_eq in E2. congruence.
    + now rewrite IH.
Qed.

Lemma map_set_keys_in {V} k (v : V) m x :
  In x (map fst (map_set k v m)) <-> x = k \/ In x (map fst m).
Proof.
  induction m as [|[k' v'] m IH]; simpl.
  - intuition.
  - destruct (String.eqb k k') eqn:E; simpl.
    + apply String.eqb_eq in E. subst. intuition.
    + rewrite IH. intuition.
Qed.

(** Keys of a [Map] stay pairwise distinct. *)
Lemma map_set_NoDup {V} k (v : V) m :
  List.NoDup (map fst m) -> List.NoDup (map fst (map_set k v m)).
Proof.
  induction m as [|[k' v'] m IH]; simpl; intros Hnd.
  - constructor; [intros []|constructor].
  - inversion Hnd as [|? ? Hnotin Hnd']; subst.
    destruct (String.eqb k k') eqn:E; simpl.
    + apply String.eqb_eq in E. subst. now constructor.
    + constructor; [|now apply IH].
      rewrite map_set_keys_in. intros [->|Hin]; [|contradiction].
      now rewrite String.eqb_refl in E.
Qed.

Lemma fold_map_set_NoDup {V B} (key : B -> string) (val : B -> V) l m :
  List.NoDup (map fst m) ->
  List.NoDup (map fst (fold_left (fun m x => map_set (key x) (val x) m) l m)).
Proof.
  revert m. induction l as [|x l IH]; intros m H; simpl; [exact H|].
  apply IH. now apply map_set_NoDup.
Qed.

Lemma map_of_NoDup {V} (entries : list (string * V)) :
  List.NoDup (map fst (map_of entries)).
Proof. apply (fold_map_set_NoDup fst snd). constructor. Qed.

(** Iterating over a [Map] and looking the key up again gives the entry. *)
Lemma map_get_entry {V} (m : Map V) kv :
  List.NoDup (map fst m) -> In kv m -> map_get (fst kv) m = Some (snd kv).
Proof.
  induction m as [|[k' v'] m IH]; simpl; intros Hnd Hin; [contradiction|].
  inversion Hnd as [|? ? Hnotin Hnd']; subst.
  destruct Hin as [<-|Hin]; simpl.
  - now rewrite String.eqb_refl.
  - destruct (String.eqb (fst kv) k') eqn:E.
    + apply String.eqb_eq in E. subst k'. exfalso. apply Hnotin.
      apply in_map_iff. now exists kv.
    + now apply IH.
Qed.

Lemma map_has_entry {V} (m : Map V) kv :
  List.NoDup (map fst m) -> In kv m -> map_has (fst kv) m = true.
Proof. intros Hnd Hin. unfold map_has. now rewrite (map_get_entry m kv). Qed.

Lemma map_get_In {V} (m : Map V) k v : map_get k m = Some v -> In (k, v) m.
Proof.
  induction m as [|[k' v'] m IH]; simpl; [discriminate|].
  destruct (String.eqb k k') eqn:E.
  - apply String.eqb_eq in E. intros [= ->]. subst. now left.
  - intros H. right. now apply IH.
Qed.

Lemma splice1_sublist {A} (i : Z) (arr : list A) : splice1 i arr `sublist_of` arr.
Proof. unfold splice1. apply sublist_delete. Qed.

Lemma set_add_in k s x : In x (set_add k s) <-> x = k \/ In x s.
Proof.
  unfold set_add. destruct (existsb (String.eqb k) s) eqn:E.
  - split; [now right|]. intros [->|H]; [|exact H].
    apply existsb_exists in E. destruct E as [y [Hy Hk]].
    apply String.eqb_eq in Hk. now subst.
  - rewrite in_app_iff. simpl. intuition.
Qed.

Lemma set_of_in ks x : In x (set_of ks) <-> In x ks.
Proof.
  unfold set_of.
  assert (G : forall s, In x (fold_left (fun s k => set_add k s) ks s)
                        <-> In x s \/ In x ks).
  { induction ks as [|k ks IH]; intros s; simpl; [intuition|].
    rewrite IH, set_add_in. intuition. }
  rewrite G. simpl. intuition.
Qed.

(** *** Maps whose values are transformed *)

Lemma map_set_values {V W} (g : V -> W) k v (m : Map V) :
  map_set k (g v) (map_values g m) = map_values g (map_set k v m).
Proof.
  induction m as [|[k' v'] m IH]; simpl; [reflexivity|].
  destruct (String.eqb k k'); simpl; [reflexivity | now rewrite IH].
Qed.

Lemma map_get_values {V W} (g : V -> W) k (m : Map V) :
  map_get k (map_values g m) = g <$> map_get k m.
Proof.
  induction m as [|[k' v'] m IH]; simpl; [reflexivity|].
  destruct (String.eqb k k'); [reflexivity | exact IH].
Qed.

Lemma map_has_values {V W} (g : V -> W) k (m : Map V) :
  map_has k (map_values g m) = map_has k m.
Proof. unfold map_has. rewrite map_get_values. now destruct (map_get k m). Qed.

Lemma fold_map_set_values {V W B} (g : V -> W) (key : B -> string) (val : B -> V)
    (l : list B) (m : Map V) :
  fold_left (fun m x => map_set (key x) (g (val x)) m) l (map_values g m)
  = map_values g (fold_left (fun m x => map_set (key x) (val x) m) l m).
Proof.
  revert m. induction l as [|x l IH]; intros m; simpl; [reflexivity|].
  now rewrite map_set_values, IH.
Qed.

Lemma flat_map_map {A B C} (f : B -> list C) (h : A -> B) (l : list A) :
  flat_map f (map h l) = flat_map (fun x => f (h x)) l.
Proof. induction l as [|x l IH]; simpl; [reflexivity | now rewrite IH]. Qed.

Lemma flat_map_same_on {A B} (f g : A -> list B) (l : list A) :
  (forall x, In x l -> f x = g x) -> flat_map f l = flat_map g l.
Proof.
  induction l as [|x l IH]; intros H; simpl; [reflexivity|].
  rewrite (H x) by (left; reflexivity). f_equal. apply IH.
  intros y Hy. apply H. right; exact Hy.
Qed.

Lemma fold_left_agree {A B} (f g : A -> B -> A) (l : list B) (a : A) :
  (forall a' x, In x l -> f a' x = g a' x) -> fold_left f l a = fold_left g l a.
Proof.
  revert a. induction l as [|x l IH]; intros a H; simpl; [reflexivity|].
  rewrite H by (left; reflexivity). apply IH.
  intros a' y Hy. apply H. right; exact Hy.
Qed.

Lemma fold_left_over_map {A B C} (f : C -> B -> C) (h : A -> B) (l : list A) (c : C) :
  fold_left f (map h l) c = fold_left (fun c x => f c (h x)) l c.
Proof. revert c. induction l as [|x l IH]; intros c; simpl; [reflexivity | apply IH]. Qed.

(** *** The entries of a [Map] built from a list are entries of the list *)

Lemma map_set_In {V} k (v : V) (m : Map V) kv :
  In kv (map_set k v m) -> kv = (k, v) \/ In kv m.
Proof.
  induction m as [|[k' v'] m IH]; simpl.
  - intros [<-|[]]. now left.
  - destruct (String.eqb k k'); simpl.
    + intros [<-|H]; [now left | right; now right].
    + intros [<-|H]; [right; now left|].
      destruct (IH H) as [->|H']; [now left | right; now right].
Qed.

Lemma map_of_In {V} (entries : list (string * V)) kv :
  In kv (map_of entries) -> In kv entries.
Proof.
  unfold map_of.
  assert (G : forall m, In kv (fold_left (fun m kv => map_set (fst kv) (snd kv) m)
                                 entries m)
                        -> In kv m \/ In kv entries).
  { induction entries as [|[k v] entries IH]; intros m; simpl; [now left|].
    intros H. destruct (IH _ H) as [H'|H']; [|right; now right].
    destruct (map_set_In _ _ _ _ H') as [->|H'']; [right; now left | now left]. }
  intros H. destruct (G [] H) as [[]|H']. exact H'.
Qed.

(** *** Reads of objects *)

Lemma get_own o k :
  inherited k = false ->
  get o k = match prop o k with Some v => Str v | None => Undefined end.
Proof. intros H. unfold get. now rewrite H. Qed.

Lemma get_own_eq o o' k :
  inherited k = false -> (get o k = get o' k <-> prop o k = prop o' k).
Proof.
  intros H. rewrite !get_own by exact H.
  destruct (prop o k), (prop o' k); split; congruence.
Qed.

Lemma shown_get_own o k : inherited k = false -> shown (get o k) = orEmpty (prop o k).
Proof. intros H. rewrite get_own by exact H. now destruct (prop o k). Qed.

End JsFacts.

(** ** The snapshot differ *)

Module DifferFacts.
Import Js JsFacts Differ.

Lemma catMap_NoDup cats : List.NoDup (map fst (catMap cats)).
Proof. apply map_of_NoDup. Qed.

Lemma chunkMap_NoDup chunks : List.NoDup (map fst (chunkMap chunks)).
Proof. apply map_of_NoDup. Qed.

Lemma allChunkUids_NoDup cats : List.NoDup (map fst (allChunkUids cats)).
Proof.
  unfold allChunkUids.
  assert (G : forall m, List.NoDup (map fst m) ->
    List.NoDup (map fst (fold_left (fun m cat =>
      fold_left (fun m ch =>
        map_set (ch_uid ch) {| info_cat := cat_name cat; info_ch := ch |} m)
        (cat_chunks cat) m) cats m))).
  { induction cats as [|c cats IH]; intros m Hm; simpl; [exact Hm|].
    apply IH.
    apply (fold_map_set_NoDup ch_uid
             (fun ch => {| info_cat := cat_name c; info_ch := ch |})).
    exact Hm. }
  apply G. constructor.
Qed.

(** *** A chunk compared with itself *)

Lemma chunkChanges_self ch : chunkChanges ch ch = [].
Proof.
  unfold chunkChanges. rewrite String.eqb_refl. simpl.
  rewrite bool_decide_eq_true_2 by reflexivity. simpl.
  apply fold_left_unchanged. intros k a _.
  now rewrite bool_decide_eq_true_2.
Qed.

Lemma compareChunks_self cat diffs : compareChunks cat cat diffs = diffs.
Proof.
  unfold compareChunks, removedChunks, addedChunks, changedChunks.
  pose proof (chunkMap_NoDup (cat_chunks cat)) as Hnd.
  rewrite (fold_left_unchanged _ (chunkMap (cat_chunks cat)) diffs).
  2:{ intros kv a Hin. now rewrite (map_has_entry _ kv Hnd Hin). }
  rewrite (fold_left_unchanged _ (chunkMap (cat_chunks cat)) diffs).
  2:{ intros kv a Hin. now rewrite (map_has_entry _ kv Hnd Hin). }
  apply fold_left_unchanged. intros kv a Hin.
  rewrite (map_get_entry _ kv Hnd Hin). now rewrite chunkChanges_self.
Qed.

Lemma perCategoryDiff_self s : perCategoryDiff s s = [].
Proof.
  unfold perCategoryDiff, deletedCategories, addedCategories, modifiedCategories.
  pose proof (catMap_NoDup (categories s)) as Hnd.
  rewrite (fold_left_unchanged _ (catMap (categories s)) []).
  2:{ intros kv a Hin. now rewrite (map_has_entry _ kv Hnd Hin). }
  rewrite (fold_left_unchanged _ (catMap (categories s)) []).
  2:{ intros kv a Hin. now rewrite (map_has_entry _ kv Hnd Hin). }
  apply fold_left_unchanged. intros kv a Hin.
  rewrite (map_get_entry _ kv Hnd Hin), String.eqb_refl. simpl.
  apply compareChunks_self.
Qed.

Lemma movedChunks_self m diffs :
  List.NoDup (map fst m) -> movedChunks m m diffs = diffs.
Proof.
  intros Hnd. unfold movedChunks. apply fold_left_unchanged.
  intros kv a Hin. rewrite (map_get_entry _ kv Hnd Hin).
  now rewrite String.eqb_refl.
Qed.

(** C4. Diffing a snapshot against itself, or against a structurally equal
    copy (values here are compared by structure, so a deep-equal copy is the
    same value), yields no change record at all. *)
Theorem C4_diff_of_snapshot_with_itself_is_empty (s : Snapshot) :
  _computeDiff (Some s) s = [].
Proof.
  unfold _computeDiff. rewrite perCategoryDiff_self.
  apply movedChunks_self, allChunkUids_NoDup.
Qed.

(** *** The loops build the records in the order of [expectedOrder] *)

Lemma deletedCategories_emit prevCats currCats diffs :
  deletedCategories prevCats currCats diffs
  = diffs ++ categoryDeletions prevCats currCats.
Proof.
  unfold deletedCategories, categoryDeletions. apply fold_left_emit.
  intros d kv _. destruct (map_has (fst kv) currCats); simpl;
    [now rewrite app_nil_r | reflexivity].
Qed.

Lemma addedCategories_emit prevCats currCats diffs :
  addedCategories prevCats currCats diffs
  = diffs ++ categoryAdditions prevCats currCats.
Proof.
  unfold addedCategories, categoryAdditions. apply fold_left_emit.
  intros d kv _. destruct (map_has (fst kv) prevCats); simpl;
    [now rewrite app_nil_r | reflexivity].
Qed.

Lemma removedChunks_emit prevCat currCat diffs :
  removedChunks (chunkMap (cat_chunks prevCat)) (chunkMap (cat_chunks currCat))
    currCat diffs
  = diffs ++ chunkDeletions prevCat currCat.
Proof.
  unfold removedChunks, chunkDeletions. apply fold_left_emit.
  intros d kv _. destruct (map_has (fst kv) _); simpl;
    [now rewrite app_nil_r | reflexivity].
Qed.

Lemma addedChunks_emit prevCat currCat diffs :
  addedChunks (chunkMap (cat_chunks prevCat)) (chunkMap (cat_chunks currCat))
    currCat diffs
  = diffs ++ chunkAdditions prevCat currCat.
Proof.
  unfold addedChunks, chunkAdditions. apply fold_left_emit.
  intros d kv _. destruct (map_has (fst kv) _); simpl;
    [now rewrite app_nil_r | reflexivity].
Qed.

Lemma changedChunks_emit prevCat currCat diffs :
  changedChunks (chunkMap (cat_chunks prevCat)) (chunkMap (cat_chunks currCat))
    currCat diffs
  = diffs ++ chunkModifications prevCat currCat.
Proof.
  unfold changedChunks, chunkModifications. apply fold_left_emit.
  intros d kv _. destruct (map_get (fst kv) _) as [prevCh|];
    [|now rewrite app_nil_r].
  destruct (chunkChanges prevCh (snd kv)); simpl;
    [now rewrite app_nil_r | reflexivity].
Qed.

Lemma compareChunks_emit prevCat currCat diffs :
  compareChunks prevCat currCat diffs
  = diffs ++ chunkDeletions prevCat currCat ++ chunkAdditions prevCat currCat
    ++ chunkModifications prevCat currCat.
Proof.
  unfold compareChunks.
  rewrite changedChunks_emit, addedChunks_emit, removedChunks_emit.
  now rewrite <- !app_assoc.
Qed.

Lemma modifiedCategories_emit prevCats currCats diffs :
  modifiedCategories prevCats currCats diffs
  = diffs ++ flat_map (categoryBlock prevCats) currCats.
Proof.
  unfold modifiedCategories. apply fold_left_emit.
  intros d kv _. unfold categoryBlock, renameRecord.
  destruct (map_get (fst kv) prevCats) as [prevCat|]; [|now rewrite app_nil_r].
  rewrite compareChunks_emit.
  destruct (String.eqb (cat_name prevCat) (cat_name (snd kv))); simpl.
  - reflexivity.
  - unfold push. now rewrite <- app_assoc.
Qed.

Lemma perCategoryDiff_order prev curr :
  perCategoryDiff prev curr = expectedOrder prev curr.
Proof.
  unfold perCategoryDiff, expectedOrder.
  rewrite modifiedCategories_emit, addedCategories_emit, deletedCategories_emit.
  simpl. now rewrite <- app_assoc.
Qed.

(** *** The moved-chunk loop removes and appends, and never reorders *)

Lemma replaceByMove_sublist prevInfo currInfo diffs :
  replaceByMove prevInfo currInfo diffs
  `sublist_of` diffs ++ [chunkMoved prevInfo currInfo].
Proof.
  unfold replaceByMove, push. apply sublist_app; [|reflexivity].
  set (addIdx := findIndex (mentions added currInfo) diffs).
  set (delIdx := findIndex (mentions deleted prevInfo) diffs).
  assert (Hadd : (if negb (addIdx =? -1)%Z then splice1 addIdx diffs else diffs)
                 `sublist_of` diffs).
  { destruct (negb (addIdx =? -1)%Z); [apply splice1_sublist | reflexivity]. }
  destruct (negb (delIdx =? -1)%Z); [|exact Hadd].
  etransitivity; [apply splice1_sublist | exact Hadd].
Qed.

Lemma fold_left_sublist {A B} (f : list A -> B -> list A) (g : B -> list A)
    (l : list B) (acc : list A) :
  (forall d x, f d x `sublist_of` d ++ g x) ->
  fold_left f l acc `sublist_of` acc ++ flat_map g l.
Proof.
  intros H. revert acc. induction l as [|x l IH]; intros acc; simpl.
  - now rewrite app_nil_r.
  - transitivity (f acc x ++ flat_map g l); [apply IH|].
    rewrite app_assoc. apply sublist_app; [apply H | reflexivity].
Qed.

Lemma movedChunks_sublist prev curr diffs :
  movedChunks (allChunkUids (categories prev)) (allChunkUids (categories curr)) diffs
  `sublist_of` diffs ++ moveRecords prev curr.
Proof.
  unfold movedChunks, moveRecords. apply fold_left_sublist.
  intros d kv. destruct (map_get (fst kv) _) as [prevInfo|];
    [|now rewrite app_nil_r].
  destruct (String.eqb (info_cat prevInfo) (info_cat (snd kv))); simpl.
  - now rewrite app_nil_r.
  - apply replaceByMove_sublist.
Qed.

Lemma movedChunks_nothing_to_move prev curr diffs :
  moveRecords prev curr = [] ->
  movedChunks (allChunkUids (categories prev)) (allChunkUids (categories curr)) diffs
  = diffs.
Proof.
  unfold movedChunks, moveRecords. intros Hnone.
  apply fold_left_unchanged. intros kv a Hin.
  destruct (map_get (fst kv) (allChunkUids (categories prev))) as [prevInfo|] eqn:Hget;
    [|reflexivity].
  destruct (String.eqb (info_cat prevInfo) (info_cat (snd kv))) eqn:Hname;
    [reflexivity|].
  exfalso.
  assert (Hmem : In (chunkMoved prevInfo (snd kv)) []).
  { rewrite <- Hnone. apply in_flat_map. exists kv. split; [exact Hin|].
    rewrite Hget, Hname. now left. }
  exact Hmem.
Qed.

Lemma computeDiff_nothing_to_move prev curr :
  moveRecords prev curr = [] ->
  _computeDiff (Some prev) curr = expectedOrder prev curr.
Proof.
  intros H. unfold _computeDiff.
  now rewrite movedChunks_nothing_to_move, perCategoryDiff_order.
Qed.

(** *** The description of a changed chunk *)

(** The loops of [chunkChanges] written as one list. *)
Lemma chunkChanges_listed prevCh currCh :
  chunkChanges prevCh currCh
  = (if decide (ch_id prevCh = ch_id currCh) then [] else [idChange prevCh currCh])
    ++ (if decide (ch_text prevCh = ch_text currCh) then []
        else [textChange prevCh currCh])
    ++ flat_map (fun k =>
         if decide (get (metadata prevCh) k = get (metadata currCh) k) then []
         else [valueChange k (get (metadata prevCh) k) (get (metadata currCh) k)])
         (set_of (keys (metadata prevCh) ++ keys (metadata currCh))).
Proof.
  unfold chunkChanges.
  rewrite (fold_left_emit _
    (fun k => if decide (get (metadata prevCh) k = get (metadata currCh) k)
              then [] else [valueChange k (get (metadata prevCh) k)
                                          (get (metadata currCh) k)])).
  2:{ intros d k _. unfold bool_decide.
      destruct (decide_rel eq _ _) as [E|E], (decide (_ = _)) as [E'|E'];
        simpl; try contradiction; [now rewrite app_nil_r | reflexivity]. }
  rewrite app_assoc. f_equal.
  destruct (decide (ch_id prevCh = ch_id currCh)) as [E|E].
  - rewrite E, String.eqb_refl. simpl.
    unfold bool_decide. now destruct (decide_rel eq _ _), (decide (_ = _)).
  - apply String.eqb_neq in E. rewrite E. simpl.
    unfold bool_decide. now destruct (decide_rel eq _ _), (decide (_ = _)).
Qed.

Lemma plainMetadata_key ch k :
  plainMetadata ch = true -> In k (keys (metadata ch)) -> inherited k = false.
Proof.
  unfold plainMetadata. rewrite forallb_forall. intros H Hin.
  apply negb_true_iff. now apply H.
Qed.

(** Where no key is the name of a member of [Object.prototype], every read
    gives the object's own entry, and the changes are those of the entries. *)
Lemma chunkChanges_described prevCh currCh :
  plainMetadata prevCh = true -> plainMetadata currCh = true ->
  chunkChanges prevCh currCh = describedChanges prevCh currCh.
Proof.
  intros Hp Hc. rewrite chunkChanges_listed. unfold describedChanges.
  do 2 f_equal. apply flat_map_same_on. intros k Hk.
  apply set_of_in, in_app_iff in Hk.
  assert (Hown : inherited k = false).
  { destruct Hk as [Hk|Hk]; [apply (plainMetadata_key prevCh) | apply (plainMetadata_key currCh)];
      assumption. }
  cbv zeta. unfold valueChange, metaChange. rewrite !shown_get_own by exact Hown.
  destruct (decide (get (metadata prevCh) k = get (metadata currCh) k)) as [E|E],
           (decide (prop (metadata prevCh) k = prop (metadata currCh) k)) as [E'|E'];
    try reflexivity; exfalso.
  - apply E'. now apply (get_own_eq _ _ k Hown).
  - apply E. now apply (get_own_eq _ _ k Hown).
Qed.

Lemma prop_Some_key (o : Obj) k v : prop o k = Some v -> In k (keys o).
Proof.
  intros H. apply map_get_In in H. unfold keys. apply in_map_iff.
  now exists (k, v).
Qed.

Lemma describedChanges_nil_iff prevCh currCh :
  describedChanges prevCh currCh = [] <-> ~ fieldsDiffer prevCh currCh.
Proof.
  unfold describedChanges, fieldsDiffer. split.
  - intros H. apply app_eq_nil in H as [Hid H]. apply app_eq_nil in H as [Htxt Hmeta].
    intros [Hd|[Hd|[k Hd]]].
    + destruct (decide (ch_id prevCh = ch_id currCh)); [contradiction|discriminate].
    + destruct (decide (ch_text prevCh = ch_text currCh)); [contradiction|discriminate].
    + assert (Hk : In k (set_of (keys (metadata prevCh) ++ keys (metadata currCh)))).
      { rewrite set_of_in, in_app_iff.
        destruct (prop (metadata prevCh) k) as [v|] eqn:Hp.
        - left. now apply (prop_Some_key _ _ v).
        - destruct (prop (metadata currCh) k) as [v|] eqn:Hc; [|congruence].
          right. now apply (prop_Some_key _ _ v). }
      assert (Hin : In (metaChange k (prop (metadata prevCh) k) (prop (metadata currCh) k))
                       []).
      { rewrite <- Hmeta. apply in_flat_map. exists k. split; [exact Hk|].
        cbv zeta.
        destruct (decide (prop (metadata prevCh) k = prop (metadata currCh) k));
          [contradiction|now left]. }
      exact Hin.
  - intros Hno.
    destruct (decide (ch_id prevCh = ch_id currCh)) as [_|E]; [|tauto].
    destruct (decide (ch_text prevCh = ch_text currCh)) as [_|E]; [|tauto].
    simpl. apply flat_map_nil. intros k _. cbv zeta.
    destruct (decide (prop (metadata prevCh) k = prop (metadata currCh) k))
      as [_|E]; [reflexivity|].
    exfalso. apply Hno. right. right. now exists k.
Qed.

Lemma flat_map_not_nil {A B} (g : A -> list B) (l : list A) :
  flat_map g l <> [] -> exists x, In x l /\ g x <> [].
Proof.
  induction l as [|x l IH]; simpl; intros H; [contradiction|].
  destruct (g x) as [|b bs] eqn:Hg.
  - destruct (IH H) as [y [Hy Hgy]]. exists y. split; [now right | exact Hgy].
  - exists x. split; [now left|]. rewrite Hg. discriminate.
Qed.

Lemma chunkChanges_not_nil_iff prevCh currCh :
  plainMetadata prevCh = true -> plainMetadata currCh = true ->
  chunkChanges prevCh currCh <> [] <-> fieldsDiffer prevCh currCh.
Proof.
  intros Hp Hc. rewrite (chunkChanges_described _ _ Hp Hc). split.
  - unfold describedChanges, fieldsDiffer.
    destruct (decide (ch_id prevCh = ch_id currCh)) as [_|E]; [|now left].
    destruct (decide (ch_text prevCh = ch_text currCh)) as [_|E]; [|now right; left].
    simpl. intros H. apply flat_map_not_nil in H as [k [_ Hk]]. cbv zeta in Hk.
    destruct (decide (prop (metadata prevCh) k = prop (metadata currCh) k))
      as [_|E]; [contradiction|].
    right. right. now exists k.
  - intros Hd Hnil. now apply describedChanges_nil_iff in Hnil.
Qed.

(** The chunks found through the [Map]s of a snapshot are chunks of it. *)
Lemma plainSnapshot_chunk s cid cat uid ch :
  plainSnapshot s = true ->
  map_get cid (catMap (categories s)) = Some cat ->
  map_get uid (chunkMap (cat_chunks cat)) = Some ch ->
  plainMetadata ch = true.
Proof.
  unfold plainSnapshot. rewrite forallb_forall. intros Hs Hcat Hch.
  apply map_get_In, map_of_In, in_map_iff in Hcat. destruct Hcat as (c & [= _ ->] & Hc).
  apply map_get_In, map_of_In, in_map_iff in Hch. destruct Hch as (x & [= _ ->] & Hx).
  specialize (Hs _ Hc). rewrite forallb_forall in Hs. now apply Hs.
Qed.

(** *** Which records are chunk modifications *)

Lemma chunkModified_is_modification currCh currCat changes :
  isChunkModification (chunkModified currCh currCat changes) = true.
Proof. reflexivity. Qed.

Lemma chunkModifications_in prevCat currCat r :
  In r (chunkModifications prevCat currCat) <->
  exists uid prevCh currCh,
    map_get uid (chunkMap (cat_chunks prevCat)) = Some prevCh
    /\ map_get uid (chunkMap (cat_chunks currCat)) = Some currCh
    /\ chunkChanges prevCh currCh <> []
    /\ r = chunkModified currCh currCat (chunkChanges prevCh currCh).
Proof.
  unfold chunkModifications. rewrite in_flat_map. split.
  - intros [kv [Hin Hr]].
    destruct (map_get (fst kv) (chunkMap (cat_chunks prevCat))) as [prevCh|] eqn:Hp;
      [|contradiction].
    exists (fst kv), prevCh, (snd kv).
    rewrite (map_get_entry _ kv (chunkMap_NoDup _) Hin).
    destruct (chunkChanges prevCh (snd kv)) as [|c cs] eqn:Hch; [contradiction|].
    destruct Hr as [<-|[]]. repeat split; try reflexivity; try assumption.
    discriminate.
  - intros (uid & prevCh & currCh & Hp & Hc & Hne & ->).
    exists (uid, currCh). split; [now apply map_get_In|]. simpl. rewrite Hp.
    destruct (chunkChanges prevCh currCh) as [|c cs]; [contradiction|now left].
Qed.

Lemma categoryBlock_chunk_modification prevCat currCat r :
  In r (renameRecord prevCat currCat ++ chunkDeletions prevCat currCat
        ++ chunkAdditions prevCat currCat ++ chunkModifications prevCat currCat) ->
  isChunkModification r = true ->
  In r (chunkModifications prevCat currCat).
Proof.
  rewrite !in_app_iff. intros [H|[H|[H|H]]] Hmod; [exfalso..|exact H].
  - unfold renameRecord in H.
    destruct (String.eqb _ _); [contradiction|]. destruct H as [<-|[]].
    discriminate Hmod.
  - unfold chunkDeletions in H. apply in_flat_map in H as [kv [_ H]].
    destruct (map_has _ _); [contradiction|]. destruct H as [<-|[]].
    discriminate Hmod.
  - unfold chunkAdditions in H. apply in_flat_map in H as [kv [_ H]].
    destruct (map_has _ _); [contradiction|]. destruct H as [<-|[]].
    discriminate Hmod.
Qed.

Lemma expectedOrder_chunk_modification prev curr r :
  In r (expectedOrder prev curr) /\ isChunkModification r = true <->
  exists cid prevCat currCat,
    map_get cid (catMap (categories prev)) = Some prevCat
    /\ map_get cid (catMap (categories curr)) = Some currCat
    /\ In r (chunkModifications prevCat currCat).
Proof.
  unfold expectedOrder. split.
  - intros [Hin Hmod]. rewrite !in_app_iff in Hin. destruct Hin as [H|[H|H]].
    + exfalso. unfold categoryDeletions in H. apply in_flat_map in H as [kv [_ H]].
      destruct (map_has _ _); [contradiction|]. destruct H as [<-|[]].
      discriminate Hmod.
    + exfalso. unfold categoryAdditions in H. apply in_flat_map in H as [kv [_ H]].
      destruct (map_has _ _); [contradiction|]. destruct H as [<-|[]].
      discriminate Hmod.
    + apply in_flat_map in H as [kv [Hkv H]]. unfold categoryBlock in H.
      destruct (map_get (fst kv) (catMap (categories prev))) as [prevCat|] eqn:Hp;
        [|contradiction].
      exists (fst kv), prevCat, (snd kv). split; [exact Hp|].
      split; [apply (map_get_entry _ kv (catMap_NoDup _) Hkv)|].
      now apply categoryBlock_chunk_modification.
  - intros (cid & prevCat & currCat & Hp & Hc & Hin). split.
    + rewrite !in_app_iff. right. right. apply in_flat_map.
      exists (cid, currCat). split; [now apply map_get_In|].
      unfold categoryBlock. simpl. rewrite Hp. rewrite !in_app_iff. tauto.
    + apply chunkModifications_in in Hin as (? & ? & ? & _ & _ & _ & ->).
      apply chunkModified_is_modification.
Qed.

(** *** The kinds of records each pass contributes *)

Lemma Forall_sublist {A} (P : A -> Prop) (l k : list A) :
  l `sublist_of` k -> Forall P k -> Forall P l.
Proof.
  intros Hsub Hk. apply List.Forall_forall. intros x Hx.
  rewrite List.Forall_forall in Hk. apply Hk.
  apply list_elem_of_In. apply (sublist_subseteq _ _ Hsub). now apply list_elem_of_In.
Qed.

Lemma Forall_flat_map_emit {A B} (P : B -> Prop) (g : A -> list B) (l : list A) :
  (forall x, In x l -> Forall P (g x)) -> Forall P (flat_map g l).
Proof.
  intros H. apply List.Forall_forall. intros y Hy.
  apply in_flat_map in Hy as [x [Hx Hy]].
  specialize (H x Hx). rewrite List.Forall_forall in H. now apply H.
Qed.

(** A pass contributes no record or one record; [tac] shows the kind of
    that record. *)
Ltac at_most_one tac :=
  first [ apply List.Forall_nil
        | apply List.Forall_cons; [tac | apply List.Forall_nil] ].

Lemma categoryBlock_kinds prevCats kv :
  Forall (fun r => isCategoryModification r = true \/ isChunkRecord r = true)
    (categoryBlock prevCats kv).
Proof.
  unfold categoryBlock. destruct (map_get (fst kv) prevCats) as [prevCat|];
    [|constructor].
  repeat apply Forall_app_2.
  - unfold renameRecord. destruct (String.eqb _ _);
      at_most_one ltac:(left; reflexivity).
  - apply Forall_flat_map_emit. intros x _.
    destruct (map_has _ _); at_most_one ltac:(right; reflexivity).
  - apply Forall_flat_map_emit. intros x _.
    destruct (map_has _ _); at_most_one ltac:(right; reflexivity).
  - apply Forall_flat_map_emit. intros x _.
    destruct (map_get _ _) as [prevCh|]; [|constructor].
    destruct (chunkChanges prevCh (snd x)); at_most_one ltac:(right; reflexivity).
Qed.

Lemma expectedOrder_kinds prev curr :
  let prevCats := catMap (categories prev) in
  let currCats := catMap (categories curr) in
  Forall (fun r => isCategoryDeletion r = true) (categoryDeletions prevCats currCats)
  /\ Forall (fun r => isCategoryAddition r = true) (categoryAdditions prevCats currCats)
  /\ Forall (fun r => isCategoryModification r = true \/ isChunkRecord r = true)
            (flat_map (categoryBlock prevCats) currCats)
  /\ Forall (fun r => isChunkModification r = true) (moveRecords prev curr).
Proof.
  cbv zeta. repeat split.
  - apply Forall_flat_map_emit. intros x _.
    destruct (map_has _ _); at_most_one ltac:(reflexivity).
  - apply Forall_flat_map_emit. intros x _.
    destruct (map_has _ _); at_most_one ltac:(reflexivity).
  - apply Forall_flat_map_emit. intros x _. apply categoryBlock_kinds.
  - apply Forall_flat_map_emit. intros x _.
    destruct (map_get _ _) as [prevInfo|]; [|constructor].
    destruct (String.eqb _ _); at_most_one ltac:(reflexivity).
Qed.

(** *** The claims about the differ *)

(** C1 (the code departs from the claim). The chunk with uid "u1" moves from
    category "A" to the category "B" that is new in the current snapshot.
    The moved-chunk loop finds no "added" record for it, takes the
    "deleted" record at index 1 and removes index 0 instead: the
    [Chunk "x" removed from "A"] record stays in the output next to the move
    record, and the record announcing the new category is lost.  When "B"
    exists in both snapshots the same move leaves the move record alone, as
    the claim says. *)
Theorem C1_move_into_new_category_keeps_deleted_record :
  let x := mkChunk "u1" "x" "hello" in
  let inA := {| info_cat := "A"; info_ch := x |} in
  let inB := {| info_cat := "B"; info_ch := x |} in
  map_get "u1" (allChunkUids (categories movedToNew_prev)) = Some inA
  /\ map_get "u1" (allChunkUids (categories movedToNew_curr)) = Some inB
  /\ perCategoryDiff movedToNew_prev movedToNew_curr
     = [categoryAdded (mkCat "b" "B" [x]); chunkRemoved x (mkCat "a" "A" [])]
  /\ findIndex (mentions added inB) (perCategoryDiff movedToNew_prev movedToNew_curr)
     = (-1)%Z
  /\ findIndex (mentions deleted inA) (perCategoryDiff movedToNew_prev movedToNew_curr)
     = 1%Z
  /\ _computeDiff (Some movedToNew_prev) movedToNew_curr
     = [chunkRemoved x (mkCat "a" "A" []); chunkMoved inA inB]
  /\ d_type (chunkRemoved x (mkCat "a" "A" [])) = deleted
  /\ d_text (chunkRemoved x (mkCat "a" "A" []))
     = "Chunk " +:+ quoted "x" +:+ " removed from " +:+ quoted "A"
  /\ _computeDiff (Some movedBetween_prev) movedBetween_curr = [chunkMoved inA inB].
Proof. repeat split; vm_compute; reflexivity. Qed.

(** C2 (as stated, refuted). With an edited chunk in the first category and a
    rename of the second one, the chunk record comes first and the category
    modification second. *)
Lemma C2_chunk_record_before_category_modification :
  ~ categoryModificationsFirst
      (_computeDiff (Some editThenRename_prev) editThenRename_curr).
Proof.
  intros H.
  specialize (H 0 1
    (chunkModified (mkChunk "u1" "y" "hello!") (mkCat "a" "A" [])
       (chunkChanges (mkChunk "u1" "x" "hello") (mkChunk "u1" "y" "hello!")))
    (categoryRenamed (mkCat "b" "B" []) (mkCat "b" "B2" []))
    eq_refl eq_refl eq_refl eq_refl).
  lia.
Qed.

(** C2 (amended). The output keeps the order: category deletions, category
    additions, then for every category found in both snapshots, in the order
    of the current snapshot, its rename record followed by its chunk
    deletions, chunk additions and chunk modifications, and after all
    categories the move records.  The moved-chunk loop may remove records but
    never reorders them; when no chunk changed its category name the output
    is exactly that list. *)
Theorem C2_output_order (prev curr : Snapshot) :
  _computeDiff (Some prev) curr
    `sublist_of` expectedOrder prev curr ++ moveRecords prev curr
  /\ (moveRecords prev curr = [] ->
      _computeDiff (Some prev) curr = expectedOrder prev curr)
  /\ exists deletions additions blocks moves,
       _computeDiff (Some prev) curr = deletions ++ additions ++ blocks ++ moves
       /\ Forall (fun r => isCategoryDeletion r = true) deletions
       /\ Forall (fun r => isCategoryAddition r = true) additions
       /\ Forall (fun r => isCategoryModification r = true \/ isChunkRecord r = true)
                 blocks
       /\ Forall (fun r => isChunkModification r = true) moves.
Proof.
  assert (Hsub : _computeDiff (Some prev) curr
                 `sublist_of` expectedOrder prev curr ++ moveRecords prev curr).
  { unfold _computeDiff. rewrite perCategoryDiff_order. apply movedChunks_sublist. }
  split; [exact Hsub|]. split; [apply computeDiff_nothing_to_move|].
  unfold expectedOrder in Hsub. rewrite <- !app_assoc in Hsub.
  apply sublist_app_r in Hsub as (deletions & rest & -> & Hd & Hsub).
  apply sublist_app_r in Hsub as (additions & rest' & -> & Ha & Hsub).
  apply sublist_app_r in Hsub as (blocks & moves & -> & Hb & Hm).
  exists deletions, additions, blocks, moves. split; [reflexivity|].
  pose proof (expectedOrder_kinds prev curr) as (Kd & Ka & Kb & Km).
  repeat split; eapply Forall_sublist; eassumption.
Qed.

Lemma C2_output_order_witness :
  moveRecords editThenRename_prev editThenRename_curr = []
  /\ _computeDiff (Some editThenRename_prev) editThenRename_curr
     = expectedOrder editThenRename_prev editThenRename_curr.
Proof.
  split; [reflexivity|].
  apply (proj1 (proj2 (C2_output_order editThenRename_prev editThenRename_curr))).
  reflexivity.
Defined.

(** C3 (as stated, refuted). Two versions of a chunk that differ in the value
    of a custom field, and in nothing else, produce no record. *)
Lemma C3_custom_field_change_is_not_reported :
  ch_customFields (withHealth "20") <> ch_customFields (withHealth "25")
  /\ _computeDiff (Some customEdit_prev) customEdit_curr = [].
Proof. split; [discriminate | reflexivity]. Qed.

(** A key held by one version only and named like a member of
    [Object.prototype] is read, in the other version, as that member: the
    line shows the text of the built-in function where a key that is merely
    absent shows nothing. *)
Lemma inherited_member_is_read :
  chunkChanges (withMetadata [("constructor", "x"); ("health", "20")]) (withMetadata [])
  = [ "constructor: " +:+ quoted "x" +:+ arrow
        +:+ quoted "function Object() { [native code] }";
      "health: " +:+ quoted "20" +:+ arrow +:+ quoted "" ].
Proof. reflexivity. Qed.

(** C3 (amended). Take two snapshots in which no key of a [metadata] object
    is the name of a member of [Object.prototype].  The per-category pass
    emits, for the chunks found by uid in the same category (by category id)
    of both snapshots, the record [Chunk "<id>" in "<category>": <changes>]
    exactly when the id, the text or the value of some key of the [metadata]
    object differs, and these are all its modified chunk records; custom
    fields are not compared.  The changes are listed as [id: "old" → "new"],
    then [text changed (m → n chars)], then [key: "old" → "new"] for each
    metadata key whose value differs, a key that one version does not have
    showing as the empty text there.  When no chunk is found under two
    different category names, the same holds of the output of the differ. *)
Theorem C3_modified_record_iff_fields_differ (prev curr : Snapshot) :
  plainSnapshot prev = true ->
  plainSnapshot curr = true ->
  (forall r,
     In r (perCategoryDiff prev curr) /\ isChunkModification r = true
     <-> changedChunkRecord prev curr r)
  /\ (moveRecords prev curr = [] ->
      forall r,
        In r (_computeDiff (Some prev) curr) /\ isChunkModification r = true
        <-> changedChunkRecord prev curr r).
Proof.
  intros Hplain_prev Hplain_curr.
  assert (Hpass : forall r,
            In r (perCategoryDiff prev curr) /\ isChunkModification r = true
            <-> changedChunkRecord prev curr r).
  { intros r. rewrite perCategoryDiff_order, expectedOrder_chunk_modification.
    unfold changedChunkRecord. split.
    - intros (cid & prevCat & currCat & Hp & Hc & Hin).
      apply chunkModifications_in in Hin
        as (uid & prevCh & currCh & Hpu & Hcu & Hne & ->).
      pose proof (plainSnapshot_chunk _ _ _ _ _ Hplain_prev Hp Hpu) as Hpp.
      pose proof (plainSnapshot_chunk _ _ _ _ _ Hplain_curr Hc Hcu) as Hpc.
      exists cid, prevCat, currCat, uid, prevCh, currCh.
      repeat split; try assumption.
      + now apply chunkChanges_not_nil_iff.
      + now rewrite chunkChanges_described.
    - intros (cid & prevCat & currCat & uid & prevCh & currCh
              & Hp & Hc & Hpu & Hcu & Hdiff & ->).
      pose proof (plainSnapshot_chunk _ _ _ _ _ Hplain_prev Hp Hpu) as Hpp.
      pose proof (plainSnapshot_chunk _ _ _ _ _ Hplain_curr Hc Hcu) as Hpc.
      exists cid, prevCat, currCat. repeat split; try assumption.
      apply chunkModifications_in. exists uid, prevCh, currCh.
      repeat split; try assumption.
      + now apply chunkChanges_not_nil_iff.
      + now rewrite chunkChanges_described. }
  split; [exact Hpass|].
  intros Hnone r. rewrite (computeDiff_nothing_to_move _ _ Hnone).
  rewrite <- perCategoryDiff_order. apply Hpass.
Qed.

Lemma C3_modified_record_iff_fields_differ_witness :
  moveRecords editThenRename_prev editThenRename_curr = []
  /\ In {| d_type := modified;
           d_text := "Chunk " +:+ quoted "y" +:+ " in " +:+ quoted "A" +:+ ": id: "
                     +:+ quoted "x" +:+ " → " +:+ quoted "y"
                     +:+ ", text changed (5 → 6 chars)" |}
        (_computeDiff (Some editThenRename_prev) editThenRename_curr).
Proof.
  split; [reflexivity|].
  apply (proj2 (C3_modified_record_iff_fields_differ
                  editThenRename_prev editThenRename_curr eq_refl eq_refl) eq_refl).
  exists "a", (mkCat "a" "A" [mkChunk "u1" "x" "hello"]),
         (mkCat "a" "A" [mkChunk "u1" "y" "hello!"]), "u1",
         (mkChunk "u1" "x" "hello"), (mkChunk "u1" "y" "hello!").
  repeat split; try reflexivity.
  left. discriminate.
Defined.

(** *** Further properties of the differ *)

Lemma flat_map_singleton {A B} (f : A -> B) (l : list A) :
  flat_map (fun x => [f x]) l = map f l.
Proof. induction l as [|x l IH]; simpl; [reflexivity | now rewrite IH]. Qed.

(** X1: without a previous snapshot every category and every chunk of the
    current one is listed once as added, category by category, each category
    before its chunks: the diff has as many records as the snapshot has
    categories and chunks together, and none is a deletion or a
    modification. *)
Theorem computeDiff_without_previous (curr : Snapshot) :
  _computeDiff None curr
    = flat_map (fun cat =>
        categoryListed cat :: map (fun ch => chunkListed ch cat) (cat_chunks cat))
        (categories curr)
  /\ length (_computeDiff None curr)
     = length (categories curr)
       + list_sum (map (fun cat => length (cat_chunks cat)) (categories curr))
  /\ Forall (fun r => d_type r = added) (_computeDiff None curr).
Proof.
  assert (Hlist : _computeDiff None curr
    = flat_map (fun cat =>
        categoryListed cat :: map (fun ch => chunkListed ch cat) (cat_chunks cat))
        (categories curr)).
  { unfold _computeDiff, diffFromNothing.
    rewrite (fold_left_emit _ (fun cat =>
      categoryListed cat :: map (fun ch => chunkListed ch cat) (cat_chunks cat)));
      [reflexivity|].
    intros d cat _.
    rewrite (fold_left_emit _ (fun ch => [chunkListed ch cat])) by reflexivity.
    unfold push. rewrite <- app_assoc, flat_map_singleton. reflexivity. }
  rewrite Hlist. clear Hlist. split; [reflexivity|]. split.
  - induction (categories curr) as [|cat cats IH]; simpl; [reflexivity|].
    rewrite length_app, length_map, IH. lia.
  - apply Forall_flat_map_emit. intros cat _. constructor; [reflexivity|].
    apply List.Forall_forall. intros r Hr. apply in_map_iff in Hr as [ch [<- _]].
    reflexivity.
Qed.

Lemma findIndex_from_none {A} (p : A -> bool) (arr : list A) (i : Z) :
  (forall x, In x arr -> p x = false) -> findIndex_from p arr i = (-1)%Z.
Proof.
  revert i. induction arr as [|x arr IH]; intros i H; simpl; [reflexivity|].
  rewrite (H x) by (left; reflexivity). apply IH.
  intros y Hy. apply H. right; exact Hy.
Qed.

Lemma replaceByMove_no_records prevInfo currInfo diffs :
  Forall (fun r => d_type r = modified) diffs ->
  replaceByMove prevInfo currInfo diffs = diffs ++ [chunkMoved prevInfo currInfo].
Proof.
  intros Hmod. unfold replaceByMove, findIndex.
  rewrite !findIndex_from_none; [reflexivity| |].
  - intros r Hr. rewrite List.Forall_forall in Hmod. unfold mentions.
    now rewrite (Hmod r Hr).
  - intros r Hr. rewrite List.Forall_forall in Hmod. unfold mentions.
    now rewrite (Hmod r Hr).
Qed.

Lemma movedChunks_only_modified allPrev allCurr diffs :
  Forall (fun r => d_type r = modified) diffs ->
  movedChunks allPrev allCurr diffs
  = diffs ++ flat_map (fun kv =>
      match map_get (fst kv) allPrev with
      | None => []
      | Some prevInfo =>
          if String.eqb (info_cat prevInfo) (info_cat (snd kv)) then []
          else [chunkMoved prevInfo (snd kv)]
      end) allCurr.
Proof.
  unfold movedChunks. revert diffs.
  induction allCurr as [|kv rest IH]; intros diffs Hmod; simpl.
  - now rewrite app_nil_r.
  - destruct (map_get (fst kv) allPrev) as [prevInfo|]; [|now apply IH].
    destruct (String.eqb (info_cat prevInfo) (info_cat (snd kv))); simpl;
      [now apply IH|].
    rewrite (replaceByMove_no_records _ _ _ Hmod), IH.
    + now rewrite <- app_assoc.
    + apply Forall_app_2; [exact Hmod|]. constructor; [reflexivity|constructor].
Qed.

(** X2: when the per-category pass reports no addition and no deletion (only
    renames and chunk modifications), the moved-chunk loop removes nothing
    and the output is the per-category records followed by one move record
    for every chunk found under two different category names.  A renamed
    category that has chunks is thus reported by its rename record and by a
    move record for each of its chunks. *)
Theorem computeDiff_only_modifications (prev curr : Snapshot) :
  Forall (fun r => d_type r = modified) (perCategoryDiff prev curr) ->
  _computeDiff (Some prev) curr = expectedOrder prev curr ++ moveRecords prev curr.
Proof.
  intros Hmod. unfold _computeDiff.
  rewrite (movedChunks_only_modified _ _ _ Hmod), perCategoryDiff_order.
  reflexivity.
Qed.

Lemma computeDiff_only_modifications_witness :
  _computeDiff (Some renamed_prev) renamed_curr
  = [ categoryRenamed (mkCat "a" "Mobs" []) (mkCat "a" "Enemies" []);
      chunkMoved {| info_cat := "Mobs"; info_ch := mkChunk "u1" "creeper" "hostile" |}
                 {| info_cat := "Enemies"; info_ch := mkChunk "u1" "creeper" "hostile" |} ].
Proof.
  rewrite (computeDiff_only_modifications renamed_prev renamed_curr).
  - reflexivity.
  - vm_compute. repeat constructor.
Defined.

(** *** The differ looks at ids, names, texts and [metadata] only *)

Lemma catMap_forget cats :
  catMap (map forgetCategory cats) = map_values forgetCategory (catMap cats).
Proof.
  unfold catMap, map_of. rewrite !fold_left_over_map. simpl.
  apply (fold_map_set_values forgetCategory cat_id (fun c => c) cats []).
Qed.

Lemma chunkMap_forget chunks :
  chunkMap (map forgetChunk chunks) = map_values forgetChunk (chunkMap chunks).
Proof.
  unfold chunkMap, map_of. rewrite !fold_left_over_map. simpl.
  apply (fold_map_set_values forgetChunk ch_uid (fun c => c) chunks []).
Qed.

Lemma allChunkUids_forget cats :
  allChunkUids (map forgetCategory cats) = map_values forgetInfo (allChunkUids cats).
Proof.
  unfold allChunkUids. rewrite fold_left_over_map.
  change (@nil (string * ChunkInfo)) with (map_values forgetInfo []) at 1.
  generalize (@nil (string * ChunkInfo)).
  induction cats as [|c cats IH]; intros m; simpl; [reflexivity|].
  rewrite fold_left_over_map. simpl.
  rewrite (fold_map_set_values forgetInfo ch_uid
             (fun ch => {| info_cat := cat_name c; info_ch := ch |})).
  apply IH.
Qed.

Lemma categoryRemoved_forget c : categoryRemoved (forgetCategory c) = categoryRemoved c.
Proof. unfold categoryRemoved, chunkCount. simpl. now rewrite length_map. Qed.

Lemma categoryAdded_forget c : categoryAdded (forgetCategory c) = categoryAdded c.
Proof. unfold categoryAdded, chunkCount. simpl. now rewrite length_map. Qed.

Lemma chunkDeletions_forget prevCat currCat :
  chunkDeletions (forgetCategory prevCat) (forgetCategory currCat)
  = chunkDeletions prevCat currCat.
Proof.
  unfold chunkDeletions. simpl. rewrite !chunkMap_forget.
  unfold map_values at 2. rewrite flat_map_map. apply flat_map_same_on.
  intros x _. simpl. now rewrite map_has_values.
Qed.

Lemma chunkAdditions_forget prevCat currCat :
  chunkAdditions (forgetCategory prevCat) (forgetCategory currCat)
  = chunkAdditions prevCat currCat.
Proof.
  unfold chunkAdditions. simpl. rewrite !chunkMap_forget.
  unfold map_values at 2. rewrite flat_map_map. apply flat_map_same_on.
  intros x _. simpl. now rewrite map_has_values.
Qed.

Lemma chunkModifications_forget prevCat currCat :
  chunkModifications (forgetCategory prevCat) (forgetCategory currCat)
  = chunkModifications prevCat currCat.
Proof.
  unfold chunkModifications. simpl. rewrite !chunkMap_forget.
  unfold map_values at 2. rewrite flat_map_map. apply flat_map_same_on.
  intros x _. simpl. rewrite map_get_values.
  now destruct (map_get (fst x) (chunkMap (cat_chunks prevCat))).
Qed.

Lemma categoryBlock_forget prevCats kv :
  categoryBlock (map_values forgetCategory prevCats) (fst kv, forgetCategory (snd kv))
  = categoryBlock prevCats kv.
Proof.
  unfold categoryBlock. cbn [fst snd]. rewrite map_get_values.
  destruct (map_get (fst kv) prevCats) as [prevCat|]; [|reflexivity].
  cbn [fmap option_fmap option_map].
  now rewrite chunkDeletions_forget, chunkAdditions_forget, chunkModifications_forget.
Qed.

Lemma expectedOrder_forget prev curr :
  expectedOrder (forget prev) (forget curr) = expectedOrder prev curr.
Proof.
  unfold expectedOrder.
  change (categories (forget prev)) with (map forgetCategory (categories prev)).
  change (categories (forget curr)) with (map forgetCategory (categories curr)).
  rewrite !catMap_forget. f_equal; [|f_equal].
  - unfold categoryDeletions, map_values at 2. rewrite flat_map_map.
    apply flat_map_same_on. intros x _. simpl.
    now rewrite map_has_values, categoryRemoved_forget.
  - unfold categoryAdditions, map_values at 2. rewrite flat_map_map.
    apply flat_map_same_on. intros x _. simpl.
    now rewrite map_has_values, categoryAdded_forget.
  - unfold map_values at 2. rewrite flat_map_map.
    apply flat_map_same_on. intros x _. apply categoryBlock_forget.
Qed.

Lemma movedChunks_forget allPrev allCurr diffs :
  movedChunks (map_values forgetInfo allPrev) (map_values forgetInfo allCurr) diffs
  = movedChunks allPrev allCurr diffs.
Proof.
  unfold movedChunks, map_values at 2. rewrite fold_left_over_map.
  apply fold_left_agree. intros d kv _. cbn [fst snd]. rewrite map_get_values.
  now destruct (map_get (fst kv) allPrev).
Qed.

(** X3: the differ does not look at the project name, at the expansion flag
    of a category or at the custom fields of a chunk: altering them in either
    snapshot leaves the diff as it is, and two snapshots that differ in
    nothing else — as before and after toggling a category or editing a
    custom field — have an empty diff. *)
Theorem computeDiff_ignores_flags_and_custom_fields (prev curr : Snapshot) :
  _computeDiff (Some (forget prev)) (forget curr) = _computeDiff (Some prev) curr
  /\ (forget prev = forget curr -> _computeDiff (Some prev) curr = []).
Proof.
  assert (Hsame : _computeDiff (Some (forget prev)) (forget curr)
                  = _computeDiff (Some prev) curr).
  { unfold _computeDiff. rewrite !perCategoryDiff_order, expectedOrder_forget.
    change (categories (forget prev)) with (map forgetCategory (categories prev)).
    change (categories (forget curr)) with (map forgetCategory (categories curr)).
    rewrite !allChunkUids_forget. apply movedChunks_forget. }
  split; [exact Hsame|].
  intros Heq. rewrite <- Hsame, Heq. unfold _computeDiff.
  rewrite perCategoryDiff_self. apply movedChunks_self, allChunkUids_NoDup.
Qed.

Lemma computeDiff_ignores_flags_and_custom_fields_witness :
  _computeDiff (Some customEdit_prev) customEdit_curr = [].
Proof.
  apply (proj2 (computeDiff_ignores_flags_and_custom_fields
                  customEdit_prev customEdit_curr)).
  reflexivity.
Defined.

End DifferFacts.

(** ** The localStorage-backed store *)

Module LocalStoreFacts.
Import Js JsFacts LocalStore.

(** *** [find] and the in-place update of what it found *)

Lemma find_split {A} (p : A -> bool) (arr : list A) (x : A) :
  find p arr = Some x ->
  exists l1 l2, arr = l1 ++ x :: l2 /\ p x = true
    /\ forall f, updateFound p f arr = l1 ++ f x :: l2.
Proof.
  induction arr as [|y arr IH]; simpl; [discriminate|].
  destruct (p y) eqn:Hy.
  - intros [= ->]. exists [], arr. split; [reflexivity|]. split; [exact Hy|].
    intros f. reflexivity.
  - intros H. destruct (IH H) as (l1 & l2 & -> & Hx & Hupd).
    exists (y :: l1), l2. split; [reflexivity|]. split; [exact Hx|].
    intros f. simpl. now rewrite Hupd.
Qed.

Lemma find_updateFound {A} (p : A -> bool) (f : A -> A) (arr : list A) (x : A) :
  find p arr = Some x -> p (f x) = true -> find p (updateFound p f arr) = Some (f x).
Proof.
  induction arr as [|y arr IH]; simpl; [discriminate|].
  destruct (p y) eqn:Hy.
  - intros [= ->] Hfx. simpl. now rewrite Hfx.
  - intros H Hfx. simpl. rewrite Hy. now apply IH.
Qed.

Lemma find_some_holds {A} (p : A -> bool) (arr : list A) (x : A) :
  find p arr = Some x -> p x = true.
Proof. intros H. now apply find_some in H. Qed.

Lemma getCurrentProject_id d project :
  getCurrentProject d = Some project ->
  currentProjectId d = Some (p_id project) /\ truthy (p_id project) = true
  /\ find (hasId (p_id project)) (projects d) = Some project.
Proof.
  unfold getCurrentProject. destruct (currentProjectId d) as [id|]; [|discriminate].
  destruct (truthy id) eqn:Ht; [|discriminate].
  intros H. pose proof (find_some_holds _ _ _ H) as Hid.
  unfold hasId in Hid. apply String.eqb_eq in Hid. subst id. auto.
Qed.

Lemma append_copy_differs (s : string) : s +:+ "_copy" <> "".
Proof. destruct s; discriminate. Qed.

(** *** [duplicateChunk] *)

Lemma duplicateChunk_found d fresh catId chunkUid project cat orig :
  getCurrentProject d = Some project ->
  find (catHasId catId) (p_categories project) = Some cat ->
  find (chunkHasUid chunkUid) (cat_chunks cat) = Some orig ->
  snd (duplicateChunk fresh catId chunkUid d) = Some (catId, fresh)
  /\ getCurrentProject (fst (duplicateChunk fresh catId chunkUid d))
     = Some (inCategory catId (pushChunk (copyOf fresh orig)) project).
Proof.
  intros Hp Hc Ho. unfold duplicateChunk. rewrite Hp, Hc, Ho. simpl.
  split; [reflexivity|].
  destruct (getCurrentProject_id _ _ Hp) as (Hid & Htruthy & Hfind).
  unfold getCurrentProject. simpl. rewrite Hid, Htruthy.
  apply find_updateFound; [exact Hfind|].
  unfold hasId. simpl. apply String.eqb_refl.
Qed.

Lemma allChunks_after_push catId copy project cat :
  find (catHasId catId) (p_categories project) = Some cat ->
  find (catHasId catId) (p_categories (inCategory catId (pushChunk copy) project))
    = Some (pushChunk copy cat)
  /\ exists before after,
       allChunks project = before ++ after
       /\ allChunks (inCategory catId (pushChunk copy) project)
          = before ++ copy :: after.
Proof.
  intros Hc. split.
  - simpl. apply find_updateFound; [exact Hc|].
    apply find_some_holds in Hc. exact Hc.
  - destruct (find_split _ _ _ Hc) as (l1 & l2 & Hcats & _ & Hupd).
    exists (flat_map cat_chunks l1 ++ cat_chunks cat), (flat_map cat_chunks l2).
    unfold allChunks. simpl. rewrite Hupd, Hcats.
    rewrite !flat_map_app. simpl. unfold push.
    rewrite <- !app_assoc. simpl. split; reflexivity.
Qed.

Lemma isChunkIdTaken_present d project other :
  getCurrentProject d = Some project ->
  In other (allChunks project) -> ch_id other <> "" ->
  isChunkIdTaken (ch_id other) None d = true.
Proof.
  intros Hp Hin Hne. unfold isChunkIdTaken.
  destruct (ch_id other) eqn:Hid; [contradiction|]. simpl. rewrite Hp.
  unfold allChunks in Hin. apply in_flat_map in Hin as [cat [Hcat Hin]].
  apply existsb_exists. exists cat. split; [exact Hcat|].
  apply existsb_exists. exists other. split; [exact Hin|].
  rewrite Hid, String.eqb_refl. reflexivity.
Qed.

(** C10 (as stated, refuted). When the original's id is empty the copy gets
    the empty id, not "_copy": a project holding a chunk with id "" and
    another one with id "_copy" still has pairwise distinct non-empty ids
    after the first chunk is duplicated. *)
Lemma C10_empty_id_duplicate_keeps_ids_unique :
  let d := storeWith [plainChunk "u1" ""; plainChunk "u2" "_copy"] in
  exists project orig other,
    getCurrentProject d = Some project
    /\ find (chunkHasUid "u1") (allChunks project) = Some orig
    /\ In other (allChunks project)
    /\ ch_id other = ch_id orig +:+ "_copy"
    /\ exists project',
         getCurrentProject (fst (duplicateChunk "u3" "c1" "u1" d)) = Some project'
         /\ map ch_id (allChunks project') = [""; "_copy"; ""]
         /\ uniqueChunkIds project'.
Proof.
  eexists _, (plainChunk "u1" ""), (plainChunk "u2" "_copy").
  split; [reflexivity|]. split; [reflexivity|].
  split; [right; left; reflexivity|]. split; [reflexivity|].
  eexists. split; [reflexivity|]. split; [reflexivity|].
  unfold uniqueChunkIds. simpl.
  constructor; [intros []|constructor].
Qed.

(** C10 (amended). Whenever [duplicateChunk] finds the original, it appends to
    that category a copy whose id is the original's id followed by "_copy"
    (the empty id for an empty one), whatever [isChunkIdTaken] would answer.
    If the original's id is not empty and the project already holds a chunk
    whose id is the original's id followed by "_copy", then [isChunkIdTaken]
    reports that id as taken and, after the duplication, the non-empty ids of
    the project are no longer pairwise distinct. *)
Theorem C10_duplicate_breaks_id_uniqueness
    (d : Data) (fresh catId chunkUid : string)
    (project : Project) (cat : Category) (orig other : Chunk) :
  getCurrentProject d = Some project ->
  find (catHasId catId) (p_categories project) = Some cat ->
  find (chunkHasUid chunkUid) (cat_chunks cat) = Some orig ->
  ch_id orig <> "" ->
  In other (allChunks project) ->
  ch_id other = ch_id orig +:+ "_copy" ->
  isChunkIdTaken (ch_id orig +:+ "_copy") None d = true
  /\ snd (duplicateChunk fresh catId chunkUid d) = Some (catId, fresh)
  /\ exists project' cat',
       getCurrentProject (fst (duplicateChunk fresh catId chunkUid d)) = Some project'
       /\ find (catHasId catId) (p_categories project') = Some cat'
       /\ cat_chunks cat' = cat_chunks cat ++ [copyOf fresh orig]
       /\ ch_id (copyOf fresh orig) = ch_id orig +:+ "_copy"
       /\ ~ uniqueChunkIds project'.
Proof.
  intros Hp Hc Ho Hne Hin Hid.
  destruct (duplicateChunk_found d fresh catId chunkUid _ _ _ Hp Hc Ho) as [Hres Hcur].
  destruct (allChunks_after_push catId (copyOf fresh orig) _ _ Hc)
    as [Hfind (before & after & Hall & Hall')].
  assert (Hcopy : ch_id (copyOf fresh orig) = ch_id orig +:+ "_copy").
  { simpl. destruct (ch_id orig); [contradiction|reflexivity]. }
  split.
  { rewrite <- Hid. apply (isChunkIdTaken_present d project other Hp Hin).
    rewrite Hid. apply append_copy_differs. }
  split; [exact Hres|].
  exists (inCategory catId (pushChunk (copyOf fresh orig)) project),
         (pushChunk (copyOf fresh orig) cat).
  split; [exact Hcur|]. split; [exact Hfind|]. split; [reflexivity|].
  split; [exact Hcopy|].
  unfold uniqueChunkIds. rewrite Hall'.
  rewrite map_app, List.filter_app, map_cons, Hcopy.
  assert (Ht : truthy (ch_id orig +:+ "_copy") = true).
  { destruct (ch_id orig); reflexivity. }
  cbn [List.filter]. rewrite Ht. intros Hnd. apply NoDup_remove_2 in Hnd. apply Hnd.
  rewrite <- List.filter_app, <- map_app, <- Hall.
  apply filter_In. split; [|exact Ht].
  rewrite <- Hid. apply in_map. exact Hin.
Qed.

Lemma C10_duplicate_breaks_id_uniqueness_witness :
  let d := storeWith [plainChunk "u1" "creeper"; plainChunk "u2" "creeper_copy"] in
  exists project',
    getCurrentProject (fst (duplicateChunk "u3" "c1" "u1" d)) = Some project'
    /\ ~ uniqueChunkIds project'.
Proof.
  destruct (C10_duplicate_breaks_id_uniqueness
              (storeWith [plainChunk "u1" "creeper"; plainChunk "u2" "creeper_copy"])
              "u3" "c1" "u1"
              {| p_id := "p1"; p_name := "minecraft";
                 p_createdAt := "2026-02-27T10:00:00.000Z";
                 p_categories :=
                   [ {| cat_id := "c1"; cat_name := "Mobs"; cat_expanded := true;
                        cat_chunks := [plainChunk "u1" "creeper";
                                       plainChunk "u2" "creeper_copy"] |} ] |}
              {| cat_id := "c1"; cat_name := "Mobs"; cat_expanded := true;
                 cat_chunks := [plainChunk "u1" "creeper";
                                plainChunk "u2" "creeper_copy"] |}
              (plainChunk "u1" "creeper") (plainChunk "u2" "creeper_copy")
              eq_refl eq_refl eq_refl)
    as (_ & _ & project' & cat' & Hcur & _ & _ & _ & Hdup).
  - discriminate.
  - right; left; reflexivity.
  - reflexivity.
  - exists project'. split; [exact Hcur | exact Hdup].
Defined.

(** *** Import followed by export *)

Lemma import_loop uids entries acc n :
  fold_left (fun acc entry =>
    (push (fst acc) (importChunk (uids (snd acc)) entry), S (snd acc)))
    entries (acc, n)
  = (acc ++ importAll uids n entries, n + length entries).
Proof.
  revert acc n. induction entries as [|e entries IH]; intros acc n; simpl.
  - now rewrite app_nil_r, Nat.add_0_r.
  - rewrite IH. unfold push. rewrite <- app_assoc. simpl.
    f_equal. lia.
Qed.

Lemma export_loop (chunks : list Chunk) (result : list ExportEntry) :
  fold_left (fun result chunk => push result (exportChunk chunk)) chunks result
  = result ++ map exportChunk chunks.
Proof.
  rewrite (fold_left_emit _ (fun chunk => [exportChunk chunk]))
    by reflexivity.
  apply (f_equal (app result)).
  induction chunks as [|c chunks IH]; simpl; [reflexivity | now rewrite IH].
Qed.

Lemma find_fresh_last (projects : list Project) (project : Project) :
  (forall p, In p projects -> p_id p <> p_id project) ->
  find (hasId (p_id project)) (push projects project) = Some project.
Proof.
  unfold push. induction projects as [|q projects IH]; intros Hfresh; simpl.
  - unfold hasId. now rewrite String.eqb_refl.
  - unfold hasId at 1. destruct (String.eqb (p_id q) (p_id project)) eqn:E.
    + apply String.eqb_eq in E. exfalso. apply (Hfresh q); [now left | exact E].
    + apply IH. intros p Hp. apply Hfresh. now right.
Qed.

Lemma export_of_import uids now name entries d :
  uids 0 <> "" ->
  (forall p, In p (projects d) -> p_id p <> uids 0) ->
  exportJSON (fst (importProject uids now name entries d))
  = Some (map exportChunk (importAll uids 2 entries)).
Proof.
  intros Hne Hfresh. unfold exportJSON, getCurrentProject, importProject. simpl.
  destruct (uids 0) as [|c s] eqn:Hu; [contradiction|]. simpl truthy. cbv iota.
  rewrite import_loop. simpl fst.
  set (project := {| p_id := String c s |}).
  change (String c s) with (p_id project) at 1.
  rewrite (find_fresh_last (projects d) project Hfresh).
  simpl. now rewrite export_loop.
Qed.

(** Running a loop over a list that an earlier loop assembled piece by
    piece. *)
Lemma fold_left_flat_map {A B C} (f : C -> B -> C) (g : A -> list B)
    (l : list A) (c : C) :
  fold_left f (flat_map g l) c = fold_left (fun c x => fold_left f (g x) c) l c.
Proof.
  revert c. induction l as [|x l IH]; intros c; simpl; [reflexivity|].
  now rewrite fold_left_app, IH.
Qed.

Lemma fold_left_same_on {A B} (f g : A -> B -> A) (l : list B) (a : A) :
  (forall a' x, In x l -> f a' x = g a' x) -> fold_left f l a = fold_left g l a.
Proof.
  revert a. induction l as [|x l IH]; intros a H; simpl; [reflexivity|].
  rewrite H by (left; reflexivity). apply IH.
  intros a' y Hy. apply H. right; exact Hy.
Qed.

(** What the merged custom fields look like when read back key by key. *)
Lemma merged_custom_get (m : list (string * MetaValue)) (md : Obj) (k : string) :
  List.NoDup (map fst m) ->
  map_get k
    (fold_left (fun md kv =>
       if isStandard (fst kv) then md
       else map_set (fst kv) (stringOf (snd kv)) md) m md)
  = if isStandard k then map_get k md
    else match map_get k m with
         | Some v => Some (stringOf v)
         | None => map_get k md
         end.
Proof.
  revert md. induction m as [|[k' v'] m IH]; intros md Hnd; simpl.
  - now destruct (isStandard k).
  - inversion Hnd as [|? ? Hnotin Hnd']; subst. rewrite (IH _ Hnd').
    destruct (isStandard k) eqn:Hk.
    + destruct (isStandard k') eqn:Hk'; [reflexivity|].
      apply map_get_set_other. intros ->. congruence.
    + destruct (String.eqb k k') eqn:E.
      * apply String.eqb_eq in E. subst k'. rewrite Hk.
        destruct (map_get k m) as [v|] eqn:Hget.
        -- exfalso. apply Hnotin. apply map_get_In in Hget.
           apply in_map_iff. now exists (k, v).
        -- apply map_get_set_same.
      * destruct (map_get k m); [reflexivity|].
        destruct (isStandard k'); [reflexivity|].
        apply map_get_set_other. intros ->. now rewrite String.eqb_refl in E.
Qed.

Lemma customFields_emit (m : list (string * MetaValue)) :
  fold_left (fun cfs kv =>
    if negb (isStandard (fst kv))
    then push cfs {| cf_key := fst kv; cf_value := stringOf (snd kv) |}
    else cfs) m []
  = flat_map (fun kv =>
      if isStandard (fst kv) then []
      else [{| cf_key := fst kv; cf_value := stringOf (snd kv) |}]) m.
Proof.
  rewrite (fold_left_emit _ (fun kv =>
      if isStandard (fst kv) then []
      else [{| cf_key := fst kv; cf_value := stringOf (snd kv) |}])).
  - reflexivity.
  - intros d kv _. destruct (isStandard (fst kv)); simpl;
      [now rewrite app_nil_r | reflexivity].
Qed.

Lemma isStandard_cases k :
  isStandard k = true -> k = "page_title" \/ k = "source" \/ k = "license".
Proof.
  unfold isStandard. rewrite !orb_true_iff, !String.eqb_eq. tauto.
Qed.

Lemma truthy_iff s : truthy s = true <-> s <> "".
Proof. destruct s; simpl; split; congruence. Qed.

(** One record through [importChunk] and [exportChunk]. *)
Lemma export_import_chunk uid x :
  exportShaped x -> customKeysTrimmed x -> noProtoKey x ->
  reproduces x (exportChunk (importChunk uid x)).
Proof.
  intros (id & text & m & Hid & Htext & Hm & Hnd & Hstd & Hstr) Htrim Hproto.
  unfold reproduces, exportChunk, importChunk. rewrite Hid, Htext, Hm. simpl.
  split; [reflexivity|]. split; [reflexivity|].
  exists m. split; [reflexivity|]. intros k.
  rewrite customFields_emit, fold_left_flat_map.
  rewrite (fold_left_same_on _
    (fun md kv => if isStandard (fst kv) then md
                  else map_set (fst kv) (stringOf (snd kv)) md)).
  2:{ intros md [k' v'] Hin. simpl.
      destruct (isStandard k') eqn:Hk'; simpl; [reflexivity|].
      destruct (Htrim m k' v' Hm Hin Hk') as [Hne Hsame].
      rewrite Hsame. apply truthy_iff in Hne. rewrite Hne. simpl.
      unfold assign. destruct (String.eqb_spec k' "__proto__") as [->|_];
        [|reflexivity].
      exfalso. exact (Hproto m v' Hm Hin). }
  unfold prop. rewrite (merged_custom_get m _ k Hnd).
  destruct (isStandard k) eqn:Hk.
  - assert (Hpresent := Hstd k Hk).
    destruct (map_get k m) as [v|] eqn:Hget; [|contradiction].
    destruct (Hstr k v (map_get_In _ _ _ Hget)) as [s ->].
    destruct (isStandard_cases k Hk) as [-> | [-> | ->]]; simpl; now rewrite Hget.
  - destruct (map_get k m) as [v|] eqn:Hget.
    + destruct (Hstr k v (map_get_In _ _ _ Hget)) as [s ->]. reflexivity.
    + unfold isStandard in Hk. rewrite !orb_false_iff in Hk.
      destruct Hk as [[H1 H2] H3]. simpl. now rewrite H1, H2, H3.
Qed.

Lemma export_import_all uids n entries :
  Forall exportShaped entries -> Forall customKeysTrimmed entries ->
  Forall noProtoKey entries ->
  Forall2 reproduces entries (map exportChunk (importAll uids n entries)).
Proof.
  revert n. induction entries as [|x entries IH]; intros n Hs Ht Hp; simpl.
  - constructor.
  - inversion Hs; inversion Ht; inversion Hp; subst. constructor.
    + now apply export_import_chunk.
    + now apply IH.
Qed.

(** The example records have the export shape. *)
Ltac export_shaped id text m :=
  exists id, text, m;
  split; [reflexivity|]; split; [reflexivity|]; split; [reflexivity|];
  split; [repeat constructor; simpl; intuition discriminate|];
  split; [intros k Hk; destruct (isStandard_cases k Hk) as [-> | [-> | ->]];
          discriminate|];
  intros k v Hin; simpl in Hin;
  destruct Hin as [[= <- <-]|[[= <- <-]|[[= <- <-]|[[= <- <-]|[]]]]]; eauto.

Lemma exportShaped_examples :
  exportShaped paddedKeyRecord /\ exportShaped emptyKeyRecord
  /\ exportShaped cleanRecord /\ exportShaped protoKeyRecord.
Proof.
  split; [|split; [|split]].
  - export_shaped "creeper" "hostile"
      [("page_title", MStr "Creeper"); ("source", MStr "wiki");
       ("license", MStr "CC"); (" health", MStr "20")].
  - export_shaped "zombie" "undead"
      [("page_title", MStr "Zombie"); ("source", MStr "wiki");
       ("license", MStr "CC"); ("", MStr "note")].
  - export_shaped "creeper" "hostile"
      [("page_title", MStr "Creeper"); ("source", MStr "wiki");
       ("license", MStr "CC"); ("health", MStr "20")].
  - export_shaped "ghast" "flying"
      [("page_title", MStr "Ghast"); ("source", MStr "wiki");
       ("license", MStr "CC"); ("__proto__", MStr "mob")].
Defined.

(** C5 (as stated, refuted). Three records in the export shape.  The custom
    key of the first starts with a space: the export writes its value under
    the trimmed key.  The custom key of the second is empty: the export drops
    it.  The custom key of the third is [__proto__]: the export's assignment
    writes nothing under that name.  None of these keys of the input is found
    in the exported metadata. *)
Lemma C5_padded_or_empty_key_is_not_reproduced :
  Forall exportShaped [paddedKeyRecord; emptyKeyRecord; protoKeyRecord]
  /\ exists e1 e2 e3,
       exportJSON (fst (importProject uidsFrom "2026-02-27T10:00:00.000Z" "minecraft"
                          [paddedKeyRecord; emptyKeyRecord; protoKeyRecord] emptyStore))
         = Some [e1; e2; e3]
       /\ prop (e_metadata e1) " health" = None
       /\ prop (e_metadata e1) "health" = Some "20"
       /\ ~ reproduces paddedKeyRecord e1
       /\ keys (e_metadata e2) = ["page_title"; "source"; "license"]
       /\ ~ reproduces emptyKeyRecord e2
       /\ keys (e_metadata e3) = ["page_title"; "source"; "license"]
       /\ ~ reproduces protoKeyRecord e3.
Proof.
  split.
  { repeat constructor; apply exportShaped_examples. }
  eexists _, _, _. split; [reflexivity|].
  split; [reflexivity|]. split; [reflexivity|]. split.
  { intros (_ & _ & m & [= <-] & Hget). specialize (Hget " health").
    discriminate Hget. }
  split; [reflexivity|]. split.
  { intros (_ & _ & m & [= <-] & Hget). specialize (Hget ""). discriminate Hget. }
  split; [reflexivity|].
  intros (_ & _ & m & [= <-] & Hget). specialize (Hget "__proto__").
  discriminate Hget.
Qed.

(** C5 (amended). For an array of records in the export shape (id, text and
    metadata present, the three reserved keys present, all values strings)
    whose custom keys are non-empty, carry no leading or trailing white space
    and are not [__proto__], exporting the project just imported from the
    array returns one entry per record, in order, with the record's id, its
    text, and the same value under every metadata key, provided the id drawn
    for the imported project is non-empty and not the id of a project that
    exists already. *)
Theorem C5_export_of_import_reproduces
    (uids : nat -> string) (now name : string) (X : list FlatRecord) (d : Data) :
  Forall exportShaped X ->
  Forall customKeysTrimmed X ->
  Forall noProtoKey X ->
  uids 0 <> "" ->
  (forall p, In p (projects d) -> p_id p <> uids 0) ->
  exists out,
    exportJSON (fst (importProject uids now name X d)) = Some out
    /\ Forall2 reproduces X out.
Proof.
  intros Hshape Htrim Hproto Hne Hfresh.
  exists (map exportChunk (importAll uids 2 X)). split.
  - now apply export_of_import.
  - now apply export_import_all.
Qed.

Lemma C5_export_of_import_reproduces_witness :
  exists out,
    exportJSON (fst (importProject uidsFrom "2026-02-27T10:00:00.000Z" "minecraft"
                       [cleanRecord] emptyStore)) = Some out
    /\ Forall2 reproduces [cleanRecord] out.
Proof.
  apply C5_export_of_import_reproduces.
  - constructor; [apply exportShaped_examples | constructor].
  - constructor; [|constructor].
    intros m k v [= <-] Hin Hstd. simpl in Hin.
    destruct Hin as [[= <- <-]|[[= <- <-]|[[= <- <-]|[[= <- <-]|[]]]]];
      try discriminate Hstd.
    split; [discriminate | reflexivity].
  - constructor; [|constructor].
    intros m v [= <-] Hin. simpl in Hin.
    destruct Hin as [H|[H|[H|[H|[]]]]]; discriminate H.
  - discriminate.
  - intros p [].
Defined.

(** *** The current project after a change made in place *)

Lemma getCurrentProject_withProject d project f :
  getCurrentProject d = Some project ->
  p_id (f project) = p_id project ->
  getCurrentProject (withProject project f d) = Some (f project).
Proof.
  intros Hp Hid. destruct (getCurrentProject_id _ _ Hp) as (Hcur & Htruthy & Hfind).
  unfold getCurrentProject, withProject. simpl. rewrite Hcur, Htruthy.
  apply find_updateFound; [exact Hfind|].
  unfold hasId. rewrite Hid. apply String.eqb_refl.
Qed.

Lemma find_app {A} (p : A -> bool) (l k : list A) :
  find p (l ++ k) = match find p l with Some x => Some x | None => find p k end.
Proof.
  induction l as [|x l IH]; simpl; [reflexivity|]. now destruct (p x).
Qed.

Lemma find_updateFound_none {A} (p : A -> bool) (f : A -> A) (arr : list A) :
  find p arr = None -> updateFound p f arr = arr.
Proof.
  induction arr as [|x arr IH]; simpl; [reflexivity|].
  destruct (p x); [discriminate|]. intros H. now rewrite IH.
Qed.

(** Looking for something else than what was changed. *)
Lemma find_updateFound_other {A} (p q : A -> bool) (f : A -> A) (arr : list A) :
  (forall x, p x = true -> q (f x) = q x) ->
  (forall x, p x = true -> q x = true -> f x = x) ->
  find q (updateFound p f arr) = find q arr.
Proof.
  intros Hq Hsame. induction arr as [|x arr IH]; simpl; [reflexivity|].
  destruct (p x) eqn:Hp; simpl.
  - rewrite (Hq x Hp). destruct (q x) eqn:Hqx; [|reflexivity].
    now rewrite (Hsame x Hp Hqx).
  - now rewrite IH.
Qed.

Lemma updateFound_twice {A} (p : A -> bool) (f g : A -> A) (arr : list A) :
  (forall x, p x = true -> p (g x) = true) ->
  updateFound p f (updateFound p g arr) = updateFound p (fun x => f (g x)) arr.
Proof.
  intros Hkeep. induction arr as [|x arr IH]; simpl; [reflexivity|].
  destruct (p x) eqn:Hp; simpl.
  - now rewrite (Hkeep x Hp).
  - now rewrite Hp, IH.
Qed.

Lemma updateFound_same {A} (p : A -> bool) (f : A -> A) (arr : list A) :
  (forall x, p x = true -> f x = x) -> updateFound p f arr = arr.
Proof.
  intros Hsame. induction arr as [|x arr IH]; simpl; [reflexivity|].
  destruct (p x) eqn:Hp; [now rewrite (Hsame x Hp) | now rewrite IH].
Qed.

Lemma find_inCategory catId f project cat :
  find (catHasId catId) (p_categories project) = Some cat ->
  cat_id (f cat) = cat_id cat ->
  find (catHasId catId) (p_categories (inCategory catId f project)) = Some (f cat).
Proof.
  intros Hc Hid. simpl. apply find_updateFound; [exact Hc|].
  apply find_some_holds in Hc. unfold catHasId in *. now rewrite Hid.
Qed.

Lemma find_inCategory_other catId catId' f project :
  catId' <> catId ->
  (forall c, cat_id (f c) = cat_id c) ->
  find (catHasId catId') (p_categories (inCategory catId f project))
  = find (catHasId catId') (p_categories project).
Proof.
  intros Hne Hid. simpl. apply find_updateFound_other.
  - intros x _. unfold catHasId. now rewrite Hid.
  - intros x Hp Hq. unfold catHasId in *.
    apply String.eqb_eq in Hp, Hq. congruence.
Qed.

(** *** [getTotalChunks] counts the chunks of the current project *)

Lemma total_loop (cats : list Category) (n : nat) :
  fold_left (fun sum cat => sum + length (cat_chunks cat)) cats n
  = n + length (flat_map cat_chunks cats).
Proof.
  revert n. induction cats as [|c cats IH]; intros n; simpl; [lia|].
  rewrite IH, length_app. lia.
Qed.

Lemma getTotalChunks_allChunks d project :
  getCurrentProject d = Some project ->
  getTotalChunks d = length (allChunks project).
Proof.
  intros Hp. unfold getTotalChunks, allChunks. rewrite Hp. apply total_loop.
Qed.

Lemma export_all_loop (cats : list Category) (result : list ExportEntry) :
  fold_left (fun result cat =>
    fold_left (fun result chunk => push result (exportChunk chunk))
      (cat_chunks cat) result) cats result
  = result ++ map exportChunk (flat_map cat_chunks cats).
Proof.
  revert result. induction cats as [|c cats IH]; intros result; simpl.
  - now rewrite app_nil_r.
  - rewrite IH, export_loop, map_app, <- app_assoc. reflexivity.
Qed.

(** X4: [exportJSON] returns nothing exactly when there is no current project,
    and otherwise one entry per chunk counted by [getTotalChunks], in the
    order of the categories and of their chunks, each with the id and the
    text of its chunk. *)
Theorem exportJSON_one_entry_per_chunk (d : Data) :
  (exportJSON d = None <-> getCurrentProject d = None)
  /\ forall out, exportJSON d = Some out ->
       length out = getTotalChunks d
       /\ exists project,
            getCurrentProject d = Some project
            /\ map e_id out = map ch_id (allChunks project)
            /\ map e_text out = map ch_text (allChunks project).
Proof.
  unfold exportJSON. destruct (getCurrentProject d) as [project|] eqn:Hp.
  - split; [split; discriminate|].
    intros out [= <-]. rewrite export_all_loop. simpl.
    rewrite length_map, (getTotalChunks_allChunks d project Hp).
    split; [reflexivity|]. exists project. split; [reflexivity|].
    unfold allChunks. rewrite !map_map. split; reflexivity.
  - split; [split; reflexivity|]. intros out H. discriminate H.
Qed.

Lemma exportJSON_one_entry_per_chunk_witness :
  option_map (@length ExportEntry)
    (exportJSON (storeWith [plainChunk "u1" "creeper"; plainChunk "u2" "zombie"]))
  = Some (getTotalChunks (storeWith [plainChunk "u1" "creeper"; plainChunk "u2" "zombie"])).
Proof.
  pose proof (proj2 (exportJSON_one_entry_per_chunk
                (storeWith [plainChunk "u1" "creeper"; plainChunk "u2" "zombie"])))
    as H.
  destruct (exportJSON (storeWith [plainChunk "u1" "creeper"; plainChunk "u2" "zombie"]))
    as [out|] eqn:E.
  - simpl. f_equal. exact (proj1 (H out eq_refl)).
  - vm_compute in E. discriminate E.
Defined.

(** *** Categories *)

Lemma flipExpanded_twice c : flipExpanded (flipExpanded c) = c.
Proof. destruct c. unfold flipExpanded. simpl. now rewrite negb_involutive. Qed.

Lemma withProject_same d project f :
  (forall p, hasId (p_id project) p = true -> f p = p) -> withProject project f d = d.
Proof.
  intros H. unfold withProject. rewrite (updateFound_same _ _ _ H). now destruct d.
Qed.

Lemma withProject_twice d project f g :
  (forall p, p_id (g p) = p_id p) ->
  withProject (g project) f (withProject project g d)
  = withProject project (fun p => f (g p)) d.
Proof.
  intros Hid. unfold withProject. simpl. rewrite Hid. f_equal.
  apply updateFound_twice. intros x Hx. unfold hasId in *. now rewrite Hid.
Qed.

(** X5: toggling a category twice gives back the data as it was, whether or
    not the category (or a current project) exists. *)
Theorem toggleCategory_twice (catId : string) (d : Data) :
  toggleCategory catId (toggleCategory catId d) = d.
Proof.
  unfold toggleCategory at 2.
  destruct (getCurrentProject d) as [project|] eqn:Hp.
  2:{ unfold toggleCategory. now rewrite Hp. }
  destruct (find (catHasId catId) (p_categories project)) as [cat|] eqn:Hc.
  2:{ unfold toggleCategory. now rewrite Hp, Hc. }
  unfold toggleCategory.
  rewrite (getCurrentProject_withProject d project (inCategory catId flipExpanded)
             Hp eq_refl).
  rewrite (find_inCategory catId flipExpanded project cat Hc eq_refl).
  rewrite withProject_twice by reflexivity.
  apply withProject_same. intros p _. destruct p as [pid pname pcreated cats].
  unfold inCategory. simpl. f_equal.
  rewrite updateFound_twice by (intros x Hx; exact Hx).
  apply updateFound_same. intros c _. apply flipExpanded_twice.
Qed.

(** X6: [addCategory] appends an expanded, empty category with the trimmed
    name to the current project and leaves the chunk count as it is; without
    a current project it returns nothing and changes nothing. *)
Theorem addCategory_appends (fresh name : string) (d : Data) :
  (getCurrentProject d = None -> addCategory fresh name d = (d, None))
  /\ (forall project, getCurrentProject d = Some project ->
        let cat := {| cat_id := fresh; cat_name := trim name; cat_expanded := true;
                      cat_chunks := [] |} in
        snd (addCategory fresh name d) = Some cat
        /\ getCategories (fst (addCategory fresh name d)) = getCategories d ++ [cat]
        /\ getTotalChunks (fst (addCategory fresh name d)) = getTotalChunks d).
Proof.
  split.
  - intros Hp. unfold addCategory. now rewrite Hp.
  - intros project Hp. cbv zeta. unfold addCategory. rewrite Hp.
    cbn [fst snd]. split; [reflexivity|].
    unfold getCategories, getTotalChunks.
    rewrite (getCurrentProject_withProject d project
               (inCategories (fun cats => push cats _)) Hp eq_refl), Hp.
    cbn [inCategories p_categories]. split; [reflexivity|].
    unfold push. rewrite fold_left_app. simpl. lia.
Qed.

Lemma addCategory_appends_witness :
  getCategories (fst (addCategory "c2" " Items " (storeWith [])))
  = getCategories (storeWith [])
    ++ [ {| cat_id := "c2"; cat_name := "Items"; cat_expanded := true;
            cat_chunks := [] |} ].
Proof.
  exact (proj1 (proj2 (proj2 (addCategory_appends "c2" " Items " (storeWith []))
                         {| p_id := "p1"; p_name := "minecraft";
                            p_createdAt := "2026-02-27T10:00:00.000Z";
                            p_categories :=
                              [ {| cat_id := "c1"; cat_name := "Mobs";
                                   cat_expanded := true; cat_chunks := [] |} ] |}
                         eq_refl))).
Defined.

(** *** Chunks *)

Lemma getChunk_withCategory d project cat catId f uid :
  getCurrentProject d = Some project ->
  find (catHasId catId) (p_categories project) = Some cat ->
  getChunk catId uid (withProject project (inCategory catId (inChunks f)) d)
  = find (chunkHasUid uid) (f (cat_chunks cat)).
Proof.
  intros Hp Hc. unfold getChunk.
  rewrite (getCurrentProject_withProject d project (inCategory catId (inChunks f))
             Hp eq_refl).
  now rewrite (find_inCategory catId (inChunks f) project cat Hc eq_refl).
Qed.

Lemma getChunk_otherCategory d project catId catId' f uid :
  getCurrentProject d = Some project ->
  catId' <> catId ->
  getChunk catId' uid (withProject project (inCategory catId (inChunks f)) d)
  = getChunk catId' uid d.
Proof.
  intros Hp Hne. unfold getChunk.
  rewrite (getCurrentProject_withProject d project (inCategory catId (inChunks f))
             Hp eq_refl), Hp.
  now rewrite (find_inCategory_other catId catId' (inChunks f) project Hne).
Qed.

Lemma allChunks_inChunks catId f project cat :
  find (catHasId catId) (p_categories project) = Some cat ->
  exists before after,
    allChunks project = before ++ cat_chunks cat ++ after
    /\ allChunks (inCategory catId (inChunks f) project)
       = before ++ f (cat_chunks cat) ++ after.
Proof.
  intros Hc. destruct (find_split _ _ _ Hc) as (l1 & l2 & Hcats & _ & Hupd).
  exists (flat_map cat_chunks l1), (flat_map cat_chunks l2).
  unfold allChunks. simpl. rewrite Hupd, Hcats, !flat_map_app. simpl.
  split; reflexivity.
Qed.

(** X7: [addChunk] returns nothing exactly when there is no current project
    or no category with that id, and then it changes nothing.  Otherwise it
    returns the category id with the new uid and adds one blank
    chunk (empty id and text, the default license) at the end of the
    category: the count goes up by one, [getChunk] finds the new chunk under
    its uid when that uid was not in use in the category, and every other
    lookup answers as before. *)
Theorem addChunk_then_getChunk (fresh catId : string) (d : Data) :
  (snd (addChunk fresh catId d) = None
   <-> getCurrentProject d = None
       \/ exists project, getCurrentProject d = Some project
            /\ find (catHasId catId) (p_categories project) = None)
  /\ (snd (addChunk fresh catId d) = None -> fst (addChunk fresh catId d) = d)
  /\ (forall project cat,
        getCurrentProject d = Some project ->
        find (catHasId catId) (p_categories project) = Some cat ->
        snd (addChunk fresh catId d) = Some (catId, fresh)
        /\ getTotalChunks (fst (addChunk fresh catId d)) = S (getTotalChunks d)
        /\ (getChunk catId fresh d = None ->
            getChunk catId fresh (fst (addChunk fresh catId d))
            = Some (blankChunk fresh))
        /\ (forall catId' uid, (catId', uid) <> (catId, fresh) ->
            getChunk catId' uid (fst (addChunk fresh catId d)) = getChunk catId' uid d)).
Proof.
  split; [|split].
  - unfold addChunk.
    destruct (getCurrentProject d) as [project|]; [|split; [now left | reflexivity]].
    destruct (find (catHasId catId) (p_categories project)) as [cat|] eqn:Hc; simpl.
    + split; [discriminate|]. intros [H|(project' & [= <-] & H)]; congruence.
    + split; [|reflexivity]. intros _. right. now exists project.
  - intros Hnone. unfold addChunk in *.
    destruct (getCurrentProject d) as [project|]; [|reflexivity].
    destruct (find (catHasId catId) (p_categories project)); [discriminate|reflexivity].
  - intros project cat Hp Hc. unfold addChunk. rewrite Hp, Hc. simpl.
    split; [reflexivity|].
    change (pushChunk (blankChunk fresh))
      with (inChunks (fun l => push l (blankChunk fresh))).
    split.
    { rewrite (getTotalChunks_allChunks _ _
                 (getCurrentProject_withProject d project
                    (inCategory catId (inChunks (fun l => push l (blankChunk fresh))))
                    Hp eq_refl)).
      rewrite (getTotalChunks_allChunks d project Hp).
      destruct (allChunks_inChunks catId (fun l => push l (blankChunk fresh)) project cat Hc)
        as (before & after & Hall & Hall').
      rewrite Hall, Hall'. unfold push. rewrite !length_app. simpl. lia. }
    split.
    { intros Hfree. rewrite (getChunk_withCategory d project cat catId _ fresh Hp Hc).
      unfold getChunk in Hfree. rewrite Hp, Hc in Hfree.
      unfold push. rewrite find_app, Hfree. simpl.
      unfold chunkHasUid. simpl. now rewrite String.eqb_refl. }
    intros catId' uid Hne. destruct (decide (catId' = catId)) as [->|Hcat].
    + rewrite (getChunk_withCategory d project cat catId _ uid Hp Hc).
      unfold getChunk. rewrite Hp, Hc. unfold push. rewrite find_app.
      destruct (find (chunkHasUid uid) (cat_chunks cat)); [reflexivity|]. simpl.
      unfold chunkHasUid. simpl. destruct (String.eqb fresh uid) eqn:E; [|reflexivity].
      apply String.eqb_eq in E. subst. contradiction.
    + now apply getChunk_otherCategory.
Qed.

Lemma addChunk_then_getChunk_witness :
  getChunk "c1" "u9" (fst (addChunk "u9" "c1" (storeWith [plainChunk "u1" "creeper"])))
  = Some (blankChunk "u9").
Proof.
  apply (proj2 (proj2 (addChunk_then_getChunk "u9" "c1"
                         (storeWith [plainChunk "u1" "creeper"])))
           {| p_id := "p1"; p_name := "minecraft";
              p_createdAt := "2026-02-27T10:00:00.000Z";
              p_categories :=
                [ {| cat_id := "c1"; cat_name := "Mobs"; cat_expanded := true;
                     cat_chunks := [plainChunk "u1" "creeper"] |} ] |}
           {| cat_id := "c1"; cat_name := "Mobs"; cat_expanded := true;
              cat_chunks := [plainChunk "u1" "creeper"] |}
           eq_refl eq_refl).
  reflexivity.
Defined.

Lemma find_filter_out {A} (p q : A -> bool) (l : list A) :
  (forall x, p x = true -> q x = false) -> find p (List.filter q l) = None.
Proof.
  intros H. induction l as [|x l IH]; simpl; [reflexivity|].
  destruct (q x) eqn:Hq; [|exact IH]. simpl.
  destruct (p x) eqn:Hp; [|exact IH]. rewrite (H x Hp) in Hq. discriminate.
Qed.

Lemma find_filter_kept {A} (p q : A -> bool) (l : list A) :
  (forall x, p x = true -> q x = true) -> find p (List.filter q l) = find p l.
Proof.
  intros H. induction l as [|x l IH]; simpl; [reflexivity|].
  destruct (p x) eqn:Hp.
  - rewrite (H x Hp). simpl. now rewrite Hp.
  - destruct (q x); simpl; [now rewrite Hp|exact IH].
Qed.

(** X8: after [deleteChunk] the category has no chunk with that uid left,
    lookups of other chunks answer as before, and the count has not grown.
    Without a current project or without that category nothing changes. *)
Theorem deleteChunk_then_getChunk (catId chunkUid : string) (d : Data) :
  getChunk catId chunkUid (deleteChunk catId chunkUid d) = None
  /\ (forall catId' uid, (catId', uid) <> (catId, chunkUid) ->
        getChunk catId' uid (deleteChunk catId chunkUid d) = getChunk catId' uid d)
  /\ getTotalChunks (deleteChunk catId chunkUid d) <= getTotalChunks d.
Proof.
  unfold deleteChunk.
  destruct (getCurrentProject d) as [project|] eqn:Hp.
  2:{ unfold getChunk, getTotalChunks. rewrite Hp. auto. }
  destruct (find (catHasId catId) (p_categories project)) as [cat|] eqn:Hc.
  2:{ split; [unfold getChunk; now rewrite Hp, Hc | auto]. }
  set (keep := List.filter (fun ch => negb (String.eqb (ch_uid ch) chunkUid))).
  split; [|split].
  - rewrite (getChunk_withCategory d project cat catId keep chunkUid Hp Hc).
    apply find_filter_out. intros x Hx. unfold chunkHasUid in Hx. now rewrite Hx.
  - intros catId' uid Hne. destruct (decide (catId' = catId)) as [->|Hcat].
    + rewrite (getChunk_withCategory d project cat catId keep uid Hp Hc).
      unfold getChunk. rewrite Hp, Hc. apply find_filter_kept.
      intros x Hx. unfold chunkHasUid in Hx. apply String.eqb_eq in Hx.
      apply negb_true_iff, String.eqb_neq. intros Heq. apply Hne. congruence.
    + now apply getChunk_otherCategory.
  - rewrite (getTotalChunks_allChunks _ _
               (getCurrentProject_withProject d project
                  (inCategory catId (inChunks keep)) Hp eq_refl)).
    rewrite (getTotalChunks_allChunks d project Hp).
    destruct (allChunks_inChunks catId keep project cat Hc)
      as (before & after & Hall & Hall').
    rewrite Hall, Hall', !length_app.
    pose proof (List.filter_length_le
                  (fun ch => negb (String.eqb (ch_uid ch) chunkUid)) (cat_chunks cat)).
    unfold keep. lia.
Qed.

Lemma deleteChunk_then_getChunk_witness :
  getChunk "c1" "u2"
    (deleteChunk "c1" "u1" (storeWith [plainChunk "u1" "creeper"; plainChunk "u2" "zombie"]))
  = getChunk "c1" "u2" (storeWith [plainChunk "u1" "creeper"; plainChunk "u2" "zombie"]).
Proof.
  apply (proj1 (proj2 (deleteChunk_then_getChunk "c1" "u1"
                         (storeWith [plainChunk "u1" "creeper"; plainChunk "u2" "zombie"])))
           "c1" "u2").
  discriminate.
Defined.

Lemma spread_uid data chunk : ch_uid (spread data chunk) = ch_uid chunk.
Proof. reflexivity. Qed.

(** X9: [updateChunk] replaces the chunk [getChunk] finds by that chunk
    overlaid with the given properties; its uid, every other chunk and the
    count stay as they are.  When the project, the category or the chunk is
    missing nothing changes. *)
Theorem updateChunk_then_getChunk (catId chunkUid : string) (data : ChunkPatch) (d : Data) :
  getChunk catId chunkUid (updateChunk catId chunkUid data d)
    = spread data <$> getChunk catId chunkUid d
  /\ (getChunk catId chunkUid d = None -> updateChunk catId chunkUid data d = d)
  /\ (forall catId' uid, (catId', uid) <> (catId, chunkUid) ->
        getChunk catId' uid (updateChunk catId chunkUid data d) = getChunk catId' uid d)
  /\ getTotalChunks (updateChunk catId chunkUid data d) = getTotalChunks d.
Proof.
  unfold updateChunk.
  destruct (getCurrentProject d) as [project|] eqn:Hp.
  2:{ unfold getChunk. rewrite Hp. auto. }
  destruct (find (catHasId catId) (p_categories project)) as [cat|] eqn:Hc.
  2:{ unfold getChunk. rewrite Hp, Hc. auto. }
  destruct (find (chunkHasUid chunkUid) (cat_chunks cat)) as [orig|] eqn:Ho.
  2:{ unfold getChunk. rewrite Hp, Hc, Ho. auto. }
  set (upd := updateFound (chunkHasUid chunkUid) (spread data)).
  split; [|split; [|split]].
  - rewrite (getChunk_withCategory d project cat catId upd chunkUid Hp Hc).
    unfold getChunk. rewrite Hp, Hc, Ho. simpl. apply find_updateFound; [exact Ho|].
    apply find_some_holds in Ho. exact Ho.
  - unfold getChunk. rewrite Hp, Hc, Ho. discriminate.
  - intros catId' uid Hne. destruct (decide (catId' = catId)) as [->|Hcat].
    + rewrite (getChunk_withCategory d project cat catId upd uid Hp Hc).
      unfold getChunk. rewrite Hp, Hc. apply find_updateFound_other.
      * reflexivity.
      * intros x Hx Hx'. unfold chunkHasUid in *.
        apply String.eqb_eq in Hx, Hx'. exfalso. apply Hne. congruence.
    + now apply getChunk_otherCategory.
  - rewrite (getTotalChunks_allChunks _ _
               (getCurrentProject_withProject d project
                  (inCategory catId (inChunks upd)) Hp eq_refl)).
    rewrite (getTotalChunks_allChunks d project Hp).
    destruct (allChunks_inChunks catId upd project cat Hc)
      as (before & after & Hall & Hall').
    rewrite Hall, Hall', !length_app. f_equal. f_equal.
    unfold upd. clear. induction (cat_chunks cat) as [|x l IH]; simpl; [reflexivity|].
    destruct (chunkHasUid chunkUid x); simpl; [reflexivity | now rewrite IH].
Qed.

Lemma updateChunk_then_getChunk_witness :
  getChunk "c1" "u2"
    (updateChunk "c1" "u1"
       {| patch_id := Some "ghast"; patch_text := None; patch_metadata := None;
          patch_customFields := None |}
       (storeWith [plainChunk "u1" "creeper"; plainChunk "u2" "zombie"]))
  = getChunk "c1" "u2" (storeWith [plainChunk "u1" "creeper"; plainChunk "u2" "zombie"]).
Proof.
  apply (proj1 (proj2 (proj2 (updateChunk_then_getChunk "c1" "u1"
                         {| patch_id := Some "ghast"; patch_text := None;
                            patch_metadata := None; patch_customFields := None |}
                         (storeWith [plainChunk "u1" "creeper"; plainChunk "u2" "zombie"]))))
           "c1" "u2").
  discriminate.
Defined.

(** *** Saving from the editor *)

Lemma isChunkIdTaken_free d project id uid :
  getCurrentProject d = Some project ->
  id <> "" ->
  isChunkIdTaken id (Some uid) d = false ->
  forall ch, In ch (allChunks project) -> ch_uid ch <> uid -> ch_id ch <> id.
Proof.
  intros Hp Hid Hfree ch Hin Huid Heq. unfold isChunkIdTaken in Hfree.
  apply truthy_iff in Hid. rewrite Hid, Hp in Hfree. simpl in Hfree.
  unfold allChunks in Hin. apply in_flat_map in Hin as [cat [Hcat Hin]].
  assert (Htaken : existsb (fun cat =>
            existsb (fun chunk =>
              negb (bool_decide (Some (ch_uid chunk) = Some uid))
              && String.eqb (ch_id chunk) id) (cat_chunks cat))
            (p_categories project) = true).
  { apply existsb_exists. exists cat. split; [exact Hcat|].
    apply existsb_exists. exists ch. split; [exact Hin|].
    rewrite Heq, String.eqb_refl, andb_true_r. apply negb_true_iff.
    apply bool_decide_eq_false. intros [= Hu]. contradiction. }
  rewrite Htaken in Hfree. discriminate.
Qed.

Lemma NoDup_put_back {A} (a b : list A) (x : A) :
  List.NoDup (a ++ b) -> ~ In x (a ++ b) -> List.NoDup (a ++ x :: b).
Proof.
  intros Hnd Hx. induction a as [|y a IH]; simpl in *.
  - now constructor.
  - inversion Hnd as [|? ? Hy Hnd']; subst. constructor.
    + rewrite in_app_iff in *. simpl. intros [H|[H|H]]; [tauto| |tauto].
      subst. tauto.
    + apply IH; [exact Hnd'|]. tauto.
Qed.

Lemma updateChunk_found d project cat orig catId uid data :
  getCurrentProject d = Some project ->
  find (catHasId catId) (p_categories project) = Some cat ->
  find (chunkHasUid uid) (cat_chunks cat) = Some orig ->
  exists project' before after,
    getCurrentProject (updateChunk catId uid data d) = Some project'
    /\ ch_uid orig = uid
    /\ allChunks project = before ++ orig :: after
    /\ allChunks project' = before ++ spread data orig :: after.
Proof.
  intros Hp Hc Ho. unfold updateChunk. rewrite Hp, Hc, Ho.
  set (upd := updateFound (chunkHasUid uid) (spread data)).
  exists (inCategory catId (inChunks upd) project).
  destruct (allChunks_inChunks catId upd project cat Hc)
    as (before & after & Hall & Hall').
  destruct (find_split _ _ _ Ho) as (l1 & l2 & Hchunks & Huid & Hupd).
  exists (before ++ l1), (l2 ++ after).
  split; [apply (getCurrentProject_withProject d project
                   (inCategory catId (inChunks upd)) Hp eq_refl)|].
  split; [unfold chunkHasUid in Huid; now apply String.eqb_eq in Huid|].
  rewrite Hall, Hall'. unfold upd. rewrite Hupd, Hchunks.
  rewrite <- !app_assoc. simpl. split; reflexivity.
Qed.

(** X10: saving from the editor keeps the project well-formed.  If the stable
    identifiers of the current project are pairwise distinct and so are its
    non-empty user-facing ids, both still hold after [_saveCurrentChunk],
    whatever was typed into the form; a non-empty id that another chunk
    already carries is refused and the data is left as it is. *)
Theorem saveCurrentChunk_keeps_ids_unique
    (selected : option Selected) (form : Form) (d : Data) (project : Project) :
  getCurrentProject d = Some project ->
  uniqueUids project ->
  uniqueChunkIds project ->
  (forall sel, selected = Some sel -> idVal form <> "" ->
     isChunkIdTaken (idVal form) (Some (chunkUid sel)) d = true ->
     _saveCurrentChunk selected form d
     = (d, Some "This ID already exists. Try adding _1, _2, etc."))
  /\ exists project',
       getCurrentProject (fst (_saveCurrentChunk selected form d)) = Some project'
       /\ uniqueUids project' /\ uniqueChunkIds project'.
Proof.
  intros Hp Huids Hids. split.
  { intros sel -> Hne Htaken. unfold _saveCurrentChunk.
    apply truthy_iff in Hne. now rewrite Hne, Htaken. }
  unfold _saveCurrentChunk. destruct selected as [sel|]; [|eauto].
  destruct (truthy (idVal form) && isChunkIdTaken (idVal form) (Some (chunkUid sel)) d)
    eqn:Hguard; [eauto|]. cbn [fst].
  destruct (find (catHasId (categoryId sel)) (p_categories project)) as [cat|] eqn:Hc.
  2:{ unfold updateChunk. rewrite Hp, Hc. eauto. }
  destruct (find (chunkHasUid (chunkUid sel)) (cat_chunks cat)) as [orig|] eqn:Ho.
  2:{ unfold updateChunk. rewrite Hp, Hc, Ho. eauto. }
  destruct (updateChunk_found d project cat orig (categoryId sel) (chunkUid sel)
              (formPatch form) Hp Hc Ho)
    as (project' & before & after & Hcur & Huid & Hall & Hall').
  exists project'. split; [exact Hcur|].
  unfold uniqueUids, uniqueChunkIds in *. rewrite Hall in Huids, Hids. rewrite Hall'.
  split.
  { rewrite map_app in *. simpl in *. exact Huids. }
  rewrite map_app, List.filter_app in *. rewrite map_cons in *.
  change (ch_id (spread (formPatch form) orig)) with (idVal form).
  assert (Hrest : List.NoDup (List.filter truthy (map ch_id before)
                              ++ List.filter truthy (map ch_id after))).
  { cbn [List.filter] in Hids. destruct (truthy (ch_id orig)); [|exact Hids].
    now apply NoDup_remove_1 in Hids. }
  cbn [List.filter]. destruct (truthy (idVal form)) eqn:Htruthy; [|exact Hrest].
  apply NoDup_put_back; [exact Hrest|].
  simpl in Hguard. apply NoDup_remove_2 in Huids.
  rewrite <- List.filter_app, <- map_app. intros Hin.
  apply filter_In in Hin as [Hin _]. apply in_map_iff in Hin as [ch [Hid Hin]].
  apply (isChunkIdTaken_free d project (idVal form) (chunkUid sel) Hp
           (proj1 (truthy_iff _) Htruthy) Hguard ch).
  - rewrite Hall. rewrite in_app_iff in *. simpl. tauto.
  - intros Heq. apply Huids. rewrite <- map_app. apply in_map_iff.
    exists ch. split; [congruence | exact Hin].
  - exact Hid.
Qed.

Lemma saveCurrentChunk_keeps_ids_unique_witness :
  exists project',
    getCurrentProject
      (fst (_saveCurrentChunk (Some {| categoryId := "c1"; chunkUid := "u1" |})
              {| idVal := "zombie"; textVal := "undead"; pageTitle := "Zombie";
                 source := "wiki"; license := "CC"; customFields := [] |}
              (storeWith [plainChunk "u1" "creeper"; plainChunk "u2" "skeleton"])))
    = Some project'
    /\ uniqueUids project' /\ uniqueChunkIds project'.
Proof.
  apply (saveCurrentChunk_keeps_ids_unique
           (Some {| categoryId := "c1"; chunkUid := "u1" |})
           {| idVal := "zombie"; textVal := "undead"; pageTitle := "Zombie";
              source := "wiki"; license := "CC"; customFields := [] |}
           (storeWith [plainChunk "u1" "creeper"; plainChunk "u2" "skeleton"])
           {| p_id := "p1"; p_name := "minecraft";
              p_createdAt := "2026-02-27T10:00:00.000Z";
              p_categories :=
                [ {| cat_id := "c1"; cat_name := "Mobs"; cat_expanded := true;
                     cat_chunks := [plainChunk "u1" "creeper";
                                    plainChunk "u2" "skeleton"] |} ] |}).
  - reflexivity.
  - unfold uniqueUids. simpl. repeat constructor; simpl; intuition discriminate.
  - unfold uniqueChunkIds. simpl. repeat constructor; simpl; intuition discriminate.
Defined.

(** *** Categories, once more *)

Lemma updateFound_keeps {A B} (p : A -> bool) (f : A -> A) (g : A -> B) (arr : list A) :
  (forall x, g (f x) = g x) -> map g (updateFound p f arr) = map g arr.
Proof.
  intros H. induction arr as [|x arr IH]; simpl; [reflexivity|].
  destruct (p x); simpl; [now rewrite H | now rewrite IH].
Qed.

Lemma flat_map_through_map {A B} (g : A -> list B) (l k : list A) :
  map g l = map g k -> flat_map g l = flat_map g k.
Proof. intros H. now rewrite !flat_map_concat_map, H. Qed.

Lemma exportJSON_inCategory d project catId f :
  getCurrentProject d = Some project ->
  (forall c, cat_id (f c) = cat_id c) ->
  (forall c, cat_chunks (f c) = cat_chunks c) ->
  exportJSON (withProject project (inCategory catId f) d) = exportJSON d
  /\ map cat_id (getCategories (withProject project (inCategory catId f) d))
     = map cat_id (getCategories d).
Proof.
  intros Hp Hid Hchunks. unfold exportJSON, getCategories.
  rewrite (getCurrentProject_withProject d project (inCategory catId f) Hp eq_refl), Hp.
  rewrite !export_all_loop. cbn [inCategory p_categories]. split.
  - simpl. apply (f_equal Some), (f_equal (map exportChunk)).
    apply flat_map_through_map. now apply updateFound_keeps.
  - now apply updateFound_keeps.
Qed.

(** X11: renaming a category, and folding or unfolding it, change nothing of
    what [exportJSON] writes and keep the categories' ids in their order; the
    renamed category, the first one with that id, carries the trimmed new
    name and its chunks as before. *)
Theorem rename_and_toggle_keep_the_export (catId newName : string) (d : Data) :
  exportJSON (renameCategory catId newName d) = exportJSON d
  /\ exportJSON (toggleCategory catId d) = exportJSON d
  /\ map cat_id (getCategories (renameCategory catId newName d))
     = map cat_id (getCategories d)
  /\ (forall cat, find (catHasId catId) (getCategories d) = Some cat ->
        find (catHasId catId) (getCategories (renameCategory catId newName d))
        = Some {| cat_id := cat_id cat; cat_name := trim newName;
                  cat_expanded := cat_expanded cat; cat_chunks := cat_chunks cat |}).
Proof.
  unfold renameCategory, toggleCategory.
  destruct (getCurrentProject d) as [project|] eqn:Hp.
  2:{ unfold getCategories. rewrite Hp. repeat split. intros cat H. discriminate H. }
  destruct (find (catHasId catId) (p_categories project)) as [cat|] eqn:Hc.
  2:{ unfold getCategories. rewrite Hp, Hc. repeat split. intros cat H. discriminate H. }
  destruct (exportJSON_inCategory d project catId (setName (trim newName)) Hp
              ltac:(reflexivity) ltac:(reflexivity)) as [Hexp Hids].
  destruct (exportJSON_inCategory d project catId flipExpanded Hp
              ltac:(reflexivity) ltac:(reflexivity)) as [Hexp' _].
  split; [exact Hexp|]. split; [exact Hexp'|]. split; [exact Hids|].
  intros cat' Hcat'. unfold getCategories in *. rewrite Hp in Hcat'.
  rewrite Hc in Hcat'. injection Hcat' as <-.
  rewrite (getCurrentProject_withProject d project
             (inCategory catId (setName (trim newName))) Hp eq_refl).
  exact (find_inCategory catId (setName (trim newName)) project cat Hc eq_refl).
Qed.

Lemma rename_and_toggle_keep_the_export_witness :
  find (catHasId "c1")
    (getCategories (renameCategory "c1" " Monsters " (storeWith [plainChunk "u1" "creeper"])))
  = Some {| cat_id := "c1"; cat_name := "Monsters"; cat_expanded := true;
            cat_chunks := [plainChunk "u1" "creeper"] |}.
Proof.
  apply (proj2 (proj2 (proj2 (rename_and_toggle_keep_the_export "c1" " Monsters "
                                (storeWith [plainChunk "u1" "creeper"]))))
           {| cat_id := "c1"; cat_name := "Mobs"; cat_expanded := true;
              cat_chunks := [plainChunk "u1" "creeper"] |}).
  reflexivity.
Defined.

Lemma length_flat_map_filter {A B} (g : A -> list B) (q : A -> bool) (l : list A) :
  length (flat_map g (List.filter q l)) <= length (flat_map g l).
Proof.
  induction l as [|x l IH]; simpl; [lia|].
  destruct (q x); simpl; rewrite ?length_app; lia.
Qed.

(** X12: [deleteCategory] removes every category with that id together with its
    chunks and keeps the others in order: afterwards no chunk is found under
    the deleted category's id, lookups in other categories answer as before,
    and the chunk count has not grown.  Without a current project nothing
    changes. *)
Theorem deleteCategory_drops_its_chunks (catId : string) (d : Data) :
  (forall uid, getChunk catId uid (deleteCategory catId d) = None)
  /\ (forall catId' uid, catId' <> catId ->
        getChunk catId' uid (deleteCategory catId d) = getChunk catId' uid d)
  /\ getCategories (deleteCategory catId d)
     = List.filter (fun c => negb (String.eqb (cat_id c) catId)) (getCategories d)
  /\ getTotalChunks (deleteCategory catId d) <= getTotalChunks d
  /\ (getCurrentProject d = None -> deleteCategory catId d = d).
Proof.
  unfold deleteCategory.
  destruct (getCurrentProject d) as [project|] eqn:Hp.
  2:{ unfold getChunk, getCategories, getTotalChunks. rewrite Hp. simpl. auto. }
  set (keep := List.filter (fun c => negb (String.eqb (cat_id c) catId))).
  pose proof (getCurrentProject_withProject d project (inCategories keep) Hp eq_refl)
    as Hafter.
  split; [|split; [|split; [|split]]].
  - intros uid. unfold getChunk. rewrite Hafter. cbn [inCategories p_categories].
    unfold keep. rewrite find_filter_out; [reflexivity|].
    intros c Hc. unfold catHasId in Hc. now rewrite Hc.
  - intros catId' uid Hne. unfold getChunk. rewrite Hafter, Hp.
    cbn [inCategories p_categories]. unfold keep. rewrite find_filter_kept; [reflexivity|].
    intros c Hc. unfold catHasId in Hc. apply String.eqb_eq in Hc.
    apply negb_true_iff, String.eqb_neq. congruence.
  - unfold getCategories. now rewrite Hafter, Hp.
  - rewrite (getTotalChunks_allChunks _ _ Hafter), (getTotalChunks_allChunks _ _ Hp).
    unfold allChunks. cbn [inCategories p_categories]. apply length_flat_map_filter.
  - discriminate.
Qed.

Lemma deleteCategory_drops_its_chunks_witness :
  getChunk "c1" "u1" twoCategories = Some (plainChunk "u1" "creeper")
  /\ getChunk "c1" "u1" (deleteCategory "c1" twoCategories) = None
  /\ getChunk "c2" "u2" (deleteCategory "c1" twoCategories)
     = Some (plainChunk "u2" "sword")
  /\ getTotalChunks twoCategories = 2
  /\ getTotalChunks (deleteCategory "c1" twoCategories) <= 2.
Proof.
  destruct (deleteCategory_drops_its_chunks "c1" twoCategories)
    as (Hgone & Hkept & _ & Hcount & _).
  split; [reflexivity|]. split; [exact (Hgone "u1")|]. split.
  - rewrite (Hkept "c2" "u2"); [reflexivity | discriminate].
  - split; [reflexivity | exact Hcount].
Defined.

(** *** Projects *)

(** X13: [createProject] keeps every earlier project and makes the new one,
    with the trimmed name and no categories, the current project, provided
    the uid drawn for it is non-empty and not the id of an earlier project. *)
Theorem createProject_becomes_current (fresh now name : string) (d : Data) :
  fresh <> "" ->
  (forall p, In p (projects d) -> p_id p <> fresh) ->
  let project :=
    {| p_id := fresh; p_name := trim name; p_createdAt := now; p_categories := [] |} in
  createProject fresh now name d
    = ({| projects := projects d ++ [project]; currentProjectId := Some fresh |}, project)
  /\ getCurrentProject (fst (createProject fresh now name d)) = Some project
  /\ getCategories (fst (createProject fresh now name d)) = []
  /\ getTotalChunks (fst (createProject fresh now name d)) = 0
  /\ exportJSON (fst (createProject fresh now name d)) = Some [].
Proof.
  intros Hne Hfresh project.
  assert (Hcur : getCurrentProject (fst (createProject fresh now name d)) = Some project).
  { unfold getCurrentProject, createProject. simpl.
    apply truthy_iff in Hne. rewrite Hne.
    apply (find_fresh_last (projects d) project). exact Hfresh. }
  split; [reflexivity|]. split; [exact Hcur|].
  unfold getCategories, getTotalChunks, exportJSON. rewrite Hcur. auto.
Qed.

Lemma createProject_becomes_current_witness :
  getCurrentProject (fst (createProject "p2" "2026-02-27T10:00:00.000Z" " nether "
                            (storeWith [])))
  = Some {| p_id := "p2"; p_name := "nether"; p_createdAt := "2026-02-27T10:00:00.000Z";
            p_categories := [] |}.
Proof.
  apply (createProject_becomes_current "p2" "2026-02-27T10:00:00.000Z" " nether "
           (storeWith [])).
  - discriminate.
  - intros p [<-|[]]. discriminate.
Defined.

(** X14: [deleteProject] removes every project with that id and keeps the
    others in order.  Deleting another project than the current one leaves
    the current project as it is; deleting the current one selects the first
    project that is left, or none when no project is left.  In no case is a
    project with the deleted id current afterwards. *)
Theorem deleteProject_selection (id : string) (d : Data) :
  projects (deleteProject id d)
    = List.filter (fun p => negb (String.eqb (p_id p) id)) (projects d)
  /\ (forall p, In p (projects (deleteProject id d)) <-> In p (projects d) /\ p_id p <> id)
  /\ (currentProjectId d <> Some id ->
      getCurrentProject (deleteProject id d) = getCurrentProject d)
  /\ (currentProjectId d = Some id ->
      currentProjectId (deleteProject id d)
      = p_id <$> head (List.filter (fun p => negb (String.eqb (p_id p) id)) (projects d)))
  /\ (currentProjectId d = Some id ->
      forall first rest,
        List.filter (fun p => negb (String.eqb (p_id p) id)) (projects d) = first :: rest ->
        p_id first <> "" ->
        getCurrentProject (deleteProject id d) = Some first)
  /\ (currentProjectId d = Some id ->
      List.filter (fun p => negb (String.eqb (p_id p) id)) (projects d) = [] ->
      getCurrentProject (deleteProject id d) = None)
  /\ (forall q, getCurrentProject (deleteProject id d) = Some q -> p_id q <> id).
Proof.
  assert (Hmem : forall p, In p (projects (deleteProject id d))
                           <-> In p (projects d) /\ p_id p <> id).
  { intros p. unfold deleteProject. simpl. rewrite filter_In.
    rewrite negb_true_iff, String.eqb_neq. reflexivity. }
  split; [reflexivity|]. split; [exact Hmem|]. split; [|split; [|split; [|split]]].
  - intros Hother. unfold getCurrentProject, deleteProject. simpl.
    rewrite bool_decide_eq_false_2 by exact Hother.
    destruct (currentProjectId d) as [cur|]; [|reflexivity].
    destruct (truthy cur); [|reflexivity].
    apply find_filter_kept. intros x Hx. unfold hasId in Hx.
    apply String.eqb_eq in Hx. apply negb_true_iff, String.eqb_neq. congruence.
  - intros Hcur. unfold deleteProject. simpl.
    rewrite bool_decide_eq_true_2 by exact Hcur.
    now destruct (List.filter _ (projects d)).
  - intros Hcur first rest Hleft Hne. unfold getCurrentProject, deleteProject. simpl.
    rewrite bool_decide_eq_true_2 by exact Hcur. rewrite Hleft.
    apply truthy_iff in Hne. rewrite Hne. simpl. unfold hasId.
    now rewrite String.eqb_refl.
  - intros Hcur Hleft. unfold getCurrentProject, deleteProject. simpl.
    rewrite bool_decide_eq_true_2 by exact Hcur. now rewrite Hleft.
  - intros q Hq. unfold getCurrentProject in Hq.
    destruct (currentProjectId (deleteProject id d)) as [cur|]; [|discriminate].
    destruct (truthy cur); [|discriminate].
    apply find_some in Hq as [Hin _]. now apply Hmem in Hin.
Qed.

Lemma deleteProject_selection_witness :
  projects (deleteProject "p1" threeProjects)
    = [emptyProject "p2" "terraria"; emptyProject "p3" "factorio"]
  /\ getCurrentProject (deleteProject "p1" threeProjects)
     = Some (emptyProject "p2" "terraria").
Proof.
  destruct (deleteProject_selection "p1" threeProjects)
    as (Hleft & _ & _ & _ & Hfirst & _).
  split.
  - rewrite Hleft. reflexivity.
  - apply (Hfirst eq_refl (emptyProject "p2" "terraria") [emptyProject "p3" "factorio"]).
    + reflexivity.
    + discriminate.
Defined.

(** *** What the export writes, what the import builds *)

Lemma assign_keeps_proto o k v :
  map_has "__proto__" (assign o k v) = map_has "__proto__" o.
Proof.
  unfold assign. destruct (String.eqb_spec k "__proto__") as [->|Hne]; simpl.
  - destruct (map_has "__proto__" o) eqn:E; simpl; [|exact E].
    unfold map_has. now rewrite map_get_set_same.
  - unfold map_has. now rewrite (map_get_set_other _ _ _ _ Hne).
Qed.

Lemma prop_assign o k k' v :
  prop (assign o k' v) k
  = if String.eqb k' k && writable o k then Some v else prop o k.
Proof.
  unfold prop, assign, writable.
  destruct (String.eqb_spec k' k) as [->|Hne]; simpl.
  - destruct (String.eqb k "__proto__"); simpl.
    + destruct (map_has k o); simpl; [apply map_get_set_same | reflexivity].
    + apply map_get_set_same.
  - destruct (String.eqb k' "__proto__" && negb (map_has k' o)); [reflexivity|].
    now apply map_get_set_other.
Qed.

(** X15: the value [exportJSON] writes under a metadata key is that of the last
    custom field whose trimmed key is that key, if there is one with a
    non-blank key, and the chunk's own [metadata] value otherwise.  So a
    custom field named like a reserved field overrides it, of two custom
    fields with the same trimmed key the later one wins, and custom fields
    never touch the empty key.  The key [__proto__] is the exception: unless
    the chunk's [metadata] has a property of its own under that name, nothing
    is ever written under it. *)
Theorem exportChunk_metadata_lookup (chunk : Chunk) (k : string) :
  prop (e_metadata (exportChunk chunk)) k
  = match ch_customFields chunk with
    | Some cfs =>
        match lastWritten k cfs with
        | Some cf =>
            if writable (ch_metadata chunk) k then Some (cf_value cf) else None
        | None => prop (ch_metadata chunk) k
        end
    | None => prop (ch_metadata chunk) k
    end
  /\ prop (e_metadata (exportChunk chunk)) "" = prop (ch_metadata chunk) ""
  /\ (map_has "__proto__" (ch_metadata chunk) = false ->
      prop (e_metadata (exportChunk chunk)) "__proto__" = None).
Proof.
  assert (Hlookup : forall k,
    prop (e_metadata (exportChunk chunk)) k
    = match ch_customFields chunk with
      | Some cfs =>
          match lastWritten k cfs with
          | Some cf =>
              if writable (ch_metadata chunk) k then Some (cf_value cf) else None
          | None => prop (ch_metadata chunk) k
          end
      | None => prop (ch_metadata chunk) k
      end).
  { clear k. intros k. unfold exportChunk. simpl.
    destruct (ch_customFields chunk) as [cfs|]; [|reflexivity].
    set (step := fun metadata cf =>
           if truthy (cf_key cf) && truthy (trim (cf_key cf))
           then assign metadata (trim (cf_key cf)) (cf_value cf) else metadata).
    assert (Hproto : forall cfs,
              map_has "__proto__" (fold_left step cfs (ch_metadata chunk))
              = map_has "__proto__" (ch_metadata chunk)).
    { intros l. induction l as [|cf l IH] using rev_ind; [reflexivity|].
      rewrite fold_left_app. simpl. unfold step at 1.
      destruct (truthy (cf_key cf) && truthy (trim (cf_key cf))); [|exact IH].
      now rewrite assign_keeps_proto. }
    assert (Hwritable : forall cfs,
              writable (fold_left step cfs (ch_metadata chunk)) k
              = writable (ch_metadata chunk) k).
    { intros l. unfold writable.
      destruct (String.eqb_spec k "__proto__") as [->|_]; simpl; [apply Hproto|reflexivity]. }
    assert (Hnone : writable (ch_metadata chunk) k = false ->
                    forall cfs, prop (fold_left step cfs (ch_metadata chunk)) k = None).
    { intros Hw l. rewrite <- (Hwritable l) in Hw. unfold writable in Hw.
      apply orb_false_iff in Hw as [_ Hw]. unfold map_has, prop in *.
      now destruct (map_get k (fold_left step l (ch_metadata chunk))). }
    unfold lastWritten.
    induction cfs as [|cf cfs IH] using rev_ind; [reflexivity|].
    rewrite fold_left_app, rev_app_distr. simpl. unfold step at 1.
    destruct (truthy (cf_key cf) && truthy (trim (cf_key cf))) eqn:Hw; simpl.
    - rewrite prop_assign, Hwritable.
      destruct (String.eqb (trim (cf_key cf)) k) eqn:E; simpl; [|exact IH].
      destruct (writable (ch_metadata chunk) k) eqn:Hk; [reflexivity|].
      now apply Hnone.
    - exact IH. }
  split; [apply Hlookup|]. split.
  - rewrite Hlookup.
    destruct (ch_customFields chunk) as [cfs|]; [|reflexivity].
    unfold lastWritten.
    destruct (find _ (rev cfs)) as [cf|] eqn:Hf; [|reflexivity].
    apply find_some in Hf as [_ Hf]. apply andb_true_iff in Hf as [Hw Hk].
    apply andb_true_iff in Hw as [_ Hw]. apply String.eqb_eq in Hk.
    rewrite Hk in Hw. discriminate.
  - intros Hown. rewrite Hlookup. unfold writable. rewrite Hown. simpl.
    assert (Hmd : prop (ch_metadata chunk) "__proto__" = None).
    { unfold map_has, prop in *. now destruct (map_get "__proto__" (ch_metadata chunk)). }
    destruct (ch_customFields chunk) as [cfs|]; [|exact Hmd].
    now destruct (lastWritten "__proto__" cfs).
Qed.

Lemma exportChunk_metadata_lookup_witness :
  prop (e_metadata (exportChunk (chunkWithFields
          [ {| cf_key := "__proto__"; cf_value := "mob" |};
            {| cf_key := " source "; cf_value := "wiki" |} ])))
       "__proto__" = None.
Proof.
  apply (proj2 (proj2 (exportChunk_metadata_lookup
                         (chunkWithFields
                            [ {| cf_key := "__proto__"; cf_value := "mob" |};
                              {| cf_key := " source "; cf_value := "wiki" |} ])
                         "__proto__"))).
  reflexivity.
Defined.

Lemma importAll_uids uids n entries :
  map ch_uid (importAll uids n entries) = map uids (seq n (length entries)).
Proof.
  revert n. induction entries as [|e entries IH]; intros n; simpl; [reflexivity|].
  now rewrite IH.
Qed.

Lemma importAll_length uids n entries :
  length (importAll uids n entries) = length entries.
Proof.
  revert n. induction entries as [|e entries IH]; intros n; simpl; [reflexivity|].
  now rewrite IH.
Qed.

Lemma importChunk_shape uid entry :
  keys (ch_metadata (importChunk uid entry)) = ["page_title"; "source"; "license"]
  /\ exists cfs, ch_customFields (importChunk uid entry) = Some cfs
       /\ Forall (fun cf => isStandard (cf_key cf) = false) cfs.
Proof.
  split; [reflexivity|]. unfold importChunk. simpl. eexists. split; [reflexivity|].
  rewrite customFields_emit. apply List.Forall_forall. intros cf Hin.
  apply in_flat_map in Hin as [kv [_ Hin]].
  destruct (isStandard (fst kv)) eqn:E; [contradiction|].
  destruct Hin as [<-|[]]. exact E.
Qed.

(** X16: [importProject] keeps every earlier project and adds one project, which
    becomes current (its uid being non-empty and unused): it has the single
    category "Imported" with one chunk per entry of the array, carrying the
    uids drawn after the project's and the category's; the [metadata] of
    every chunk has exactly the three reserved keys, and no custom field is
    named like a reserved key. *)
Theorem importProject_shape
    (uids : nat -> string) (now name : string) (X : list FlatRecord) (d : Data) :
  uids 0 <> "" ->
  (forall p, In p (projects d) -> p_id p <> uids 0) ->
  let d' := fst (importProject uids now name X d) in
  let project := snd (importProject uids now name X d) in
  projects d' = projects d ++ [project]
  /\ getCurrentProject d' = Some project
  /\ map cat_name (getCategories d') = ["Imported"]
  /\ getTotalChunks d' = length X
  /\ map ch_uid (allChunks project) = map uids (seq 2 (length X))
  /\ Forall (fun ch =>
       keys (ch_metadata ch) = ["page_title"; "source"; "license"]
       /\ exists cfs, ch_customFields ch = Some cfs
            /\ Forall (fun cf => isStandard (cf_key cf) = false) cfs)
       (allChunks project).
Proof.
  intros Hne Hfresh d' project.
  assert (Hchunks : allChunks project = importAll uids 2 X).
  { unfold project, importProject, allChunks. simpl. rewrite import_loop. simpl.
    now rewrite app_nil_r. }
  assert (Hcur : getCurrentProject d' = Some project).
  { unfold d', project, getCurrentProject, importProject. cbn [fst snd currentProjectId projects p_id].
    apply truthy_iff in Hne. rewrite Hne.
    apply (find_fresh_last (projects d)
             {| p_id := uids 0; p_name := trim name; p_createdAt := now;
                p_categories := _ |}). exact Hfresh. }
  split; [reflexivity|]. split; [exact Hcur|].
  split; [unfold getCategories; rewrite Hcur; reflexivity|].
  split; [rewrite (getTotalChunks_allChunks d' project Hcur), Hchunks;
          apply importAll_length|].
  rewrite Hchunks. split; [apply importAll_uids|].
  apply List.Forall_forall. intros ch Hin. clear -Hin.
  revert Hin. generalize 2. induction X as [|x X IH]; intros n Hin; simpl in Hin;
    [contradiction|].
  destruct Hin as [<-|Hin]; [apply importChunk_shape | now apply (IH (S n))].
Qed.

Lemma importProject_shape_witness :
  getTotalChunks (fst (importProject uidsFrom "2026-02-27T10:00:00.000Z" "minecraft"
                         [cleanRecord; paddedKeyRecord] emptyStore)) = 2.
Proof.
  apply (importProject_shape uidsFrom "2026-02-27T10:00:00.000Z" "minecraft"
           [cleanRecord; paddedKeyRecord] emptyStore).
  - discriminate.
  - intros p [].
Defined.

End LocalStoreFacts.

(** ** The commit log *)

Module CommitLogFacts.
Import CommitLog.









End CommitLogFacts.

(** ** The server *)

Module ServerFacts.
Import Js JsFacts Server.

(** *** Who gets a message *)

Lemma sendAll_filter st targets msg excludeWs :
  sendAll st targets msg excludeWs
  = map (fun ws => (ws, msg))
      (List.filter (fun ws => negb (bool_decide (Some ws = excludeWs))
                              && (readyState st ws =? OPEN)) targets).
Proof.
  unfold sendAll.
  rewrite (fold_left_emit _ (fun ws =>
    if negb (bool_decide (Some ws = excludeWs)) && (readyState st ws =? OPEN)
    then [(ws, msg)] else [])).
  2:{ intros d ws _. destruct (_ && _); [reflexivity | now rewrite app_nil_r]. }
  simpl. induction targets as [|ws targets IH]; simpl; [reflexivity|].
  destruct (_ && _); simpl; now rewrite IH.
Qed.

Lemma sendAll_to_all st targets msg ws m :
  In (ws, m) (sendAll st targets msg None)
  <-> m = msg /\ In ws targets /\ readyState st ws = OPEN.
Proof.
  rewrite sendAll_filter, in_map_iff. split.
  - intros (w & [= -> ->] & Hin). apply filter_In in Hin as [Hin Hopen].
    simpl in Hopen. apply Nat.eqb_eq in Hopen. auto.
  - intros (-> & Hin & Hopen). exists ws. split; [reflexivity|].
    apply filter_In. split; [exact Hin|]. simpl. now apply Nat.eqb_eq.
Qed.

Lemma sendAll_NoDup st targets msg excludeWs :
  List.NoDup targets -> List.NoDup (sendAll st targets msg excludeWs).
Proof.
  intros Hnd. rewrite sendAll_filter.
  apply Finite.Injective_map_NoDup.
  - intros a b [= ->]. reflexivity.
  - now apply List.NoDup_filter.
Qed.

Lemma elements_In (X : gset Ws) (ws : Ws) : In ws (elements X) <-> ws ∈ X.
Proof. rewrite <- list_elem_of_In. apply elem_of_elements. Qed.

Lemma elements_NoDup (X : gset Ws) : List.NoDup (elements X).
Proof. apply NoDup_ListNoDup, NoDup_elements. Qed.

Lemma broadcastToBrowsers_reaches st code session ev d ws m :
  sessions st !! code = Some session ->
  In (ws, m) (broadcastToBrowsers st code ev d)
  <-> m = {| event := ev; data := d |} /\ ws ∈ browsers session
      /\ readyState st ws = OPEN.
Proof.
  intros Hs. unfold broadcastToBrowsers. rewrite Hs.
  now rewrite sendAll_to_all, elements_In.
Qed.

Lemma broadcastToBrowsers_NoDup st code ev d :
  List.NoDup (broadcastToBrowsers st code ev d).
Proof.
  unfold broadcastToBrowsers. destruct (sessions st !! code); [|constructor].
  apply sendAll_NoDup, elements_NoDup.
Qed.

(** *** The claims about the server *)

(** C7 (as stated, refuted). A browser (1) creates a category in a session
    that also has an mcp client (2), both connected: the only message goes to
    the browser that made the request, and the mcp client gets none. *)
Lemma C7_mcp_member_is_not_notified :
  let sent := snd (handleMutation CreateCategory "minecraft" (Some "ABC234")
                     (Returned "{}") pairState) in
  sent = [(1, {| event := "data:changed"; data := ProjectRef "minecraft" |})]
  /\ ~ reachesAllButOriginator pairState
         {| browsers := {[1]}; mcpClients := {[2]}; createdAt := 0 |} 1
         {| event := "data:changed"; data := ProjectRef "minecraft" |} sent.
Proof.
  assert (Hsent : snd (handleMutation CreateCategory "minecraft" (Some "ABC234")
                         (Returned "{}") pairState)
                  = [(1, {| event := "data:changed"; data := ProjectRef "minecraft" |})]).
  { vm_compute. reflexivity. }
  split; [exact Hsent|]. cbv zeta. rewrite Hsent.
  intros [Hall _].
  assert (Hin : In (2, {| event := "data:changed"; data := ProjectRef "minecraft" |})
                   [(1, {| event := "data:changed"; data := ProjectRef "minecraft" |})]).
  { apply Hall; [simpl; set_solver | reflexivity | discriminate]. }
  destruct Hin as [Heq|[]]. discriminate Heq.
Qed.

(** C7 (amended). A successful request to a handler that announces
    [data:changed] (all mutation handlers but the toggle, blank-chunk and
    duplicate ones), carrying the code of an active session, sends that
    event with the project name exactly once to every browser-role
    connection of the session that is open, the originator included, and to
    nobody else: mcp-role members get nothing. *)
Theorem C7_data_changed_goes_to_open_browsers
    (r : Route) (project code result : string) (st : State) (session : Session) :
  notification r project result = Some ("data:changed", ProjectRef project) ->
  code <> "" ->
  sessions st !! code = Some session ->
  fst (handleMutation r project (Some code) (Returned result) st)
    = {| status := 200; body := result |}
  /\ (forall ws m,
        In (ws, m) (snd (handleMutation r project (Some code) (Returned result) st))
        <-> m = {| event := "data:changed"; data := ProjectRef project |}
            /\ ws ∈ browsers session /\ readyState st ws = OPEN)
  /\ List.NoDup (snd (handleMutation r project (Some code) (Returned result) st)).
Proof.
  intros Hnote Hcode Hs. unfold handleMutation. rewrite Hnote. simpl.
  destruct code as [|c code']; [contradiction|]. simpl.
  split; [reflexivity|]. split.
  - intros ws m. now apply broadcastToBrowsers_reaches.
  - apply broadcastToBrowsers_NoDup.
Qed.

Lemma C7_data_changed_goes_to_open_browsers_witness :
  In (1, {| event := "data:changed"; data := ProjectRef "minecraft" |})
     (snd (handleMutation CreateCategory "minecraft" (Some "ABC234")
             (Returned "{}") pairState)).
Proof.
  apply (C7_data_changed_goes_to_open_browsers CreateCategory "minecraft" "ABC234" "{}"
           pairState {| browsers := {[1]}; mcpClients := {[2]}; createdAt := 0 |}).
  - reflexivity.
  - discriminate.
  - vm_compute. reflexivity.
  - split; [reflexivity|]. split; [set_solver | reflexivity].
Defined.

Lemma wsClose_attached st ws now code ty session :
  attached st !! ws = Some (code, ty) ->
  sessions st !! code = Some session ->
  snd (wsClose ws now st)
  = if String.eqb ty "mcp"
    then broadcastToBrowsers
           (withSessions (withReadyState st ws CLOSED)
              (<[code := leave ty ws session]> (sessions st)))
           code "mcp:disconnected" (Timestamp now)
    else [].
Proof.
  intros Ha Hs. unfold wsClose. simpl. rewrite Ha. simpl. rewrite Hs. reflexivity.
Qed.

(** C8 (as stated, refuted). Two mcp clients (2, 3) and a browser (1): when
    client 2 disconnects the browser is told [mcp:disconnected] although
    client 3 is still a member. *)
Lemma C8_disconnect_announced_while_another_remains :
  snd (step (WsClose 2 5) twoAgentsState)
    = [(1, {| event := "mcp:disconnected"; data := Timestamp 5 |})]
  /\ ~ disconnectOnlyForLast "ABC234"
         (fst (step (WsClose 2 5) twoAgentsState))
         (snd (step (WsClose 2 5) twoAgentsState)).
Proof.
  assert (Hsent : snd (step (WsClose 2 5) twoAgentsState)
                  = [(1, {| event := "mcp:disconnected"; data := Timestamp 5 |})]).
  { vm_compute. reflexivity. }
  assert (Hafter : sessions (fst (step (WsClose 2 5) twoAgentsState)) !! "ABC234"
                   = Some {| browsers := {[1]}; mcpClients := {[3]}; createdAt := 0 |}).
  { vm_compute. reflexivity. }
  split; [exact Hsent|]. intros Hlast.
  assert (Hempty : mcpClients {| browsers := {[1]}; mcpClients := {[3]};
                                 createdAt := 0 |} = ∅).
  { apply (Hlast ltac:(exists 1, (Timestamp 5); rewrite Hsent; now left) _ Hafter). }
  simpl in Hempty. set_solver.
Qed.

(** C8 (amended). Whenever an mcp-role connection closes, whether or not
    other mcp-role members remain, [mcp:disconnected] is sent to every
    browser-role connection of its session that is open, and to nobody else;
    when a browser-role connection closes nothing is sent. *)
Theorem C8_every_mcp_close_is_announced
    (st : State) (ws : Ws) (now : Z) (code ty : string) (session : Session) :
  attached st !! ws = Some (code, ty) ->
  sessions st !! code = Some session ->
  (ty = "mcp" ->
   forall b m,
     In (b, m) (snd (step (WsClose ws now) st))
     <-> m = {| event := "mcp:disconnected"; data := Timestamp now |}
         /\ b ∈ browsers session /\ b <> ws /\ readyState st b = OPEN)
  /\ (ty <> "mcp" -> snd (step (WsClose ws now) st) = []).
Proof.
  intros Ha Hs. simpl. rewrite (wsClose_attached st ws now code ty session Ha Hs).
  split.
  - intros -> b m. simpl.
    rewrite (broadcastToBrowsers_reaches _ code (leave "mcp" ws session)).
    2:{ simpl. apply lookup_insert_eq. }
    simpl. destruct (decide (b = ws)) as [->|Hne].
    + split; [intros (_ & _ & Hopen); discriminate Hopen | tauto].
    + tauto.
  - intros Hty. apply String.eqb_neq in Hty. now rewrite Hty.
Qed.

Lemma C8_every_mcp_close_is_announced_witness :
  In (1, {| event := "mcp:disconnected"; data := Timestamp 5 |})
     (snd (step (WsClose 2 5) twoAgentsState)).
Proof.
  apply (proj1 (C8_every_mcp_close_is_announced twoAgentsState 2 5 "ABC234" "mcp"
                  {| browsers := {[1]}; mcpClients := {[2; 3]}; createdAt := 0 |}
                  ltac:(vm_compute; reflexivity) ltac:(vm_compute; reflexivity))
               eq_refl).
  split; [reflexivity|]. split; [set_solver|]. split; [discriminate | reflexivity].
Defined.

Lemma size_zero_empty (X : gset Ws) : (size X =? 0) = true -> X = ∅.
Proof. intros H. apply Nat.eqb_eq in H. now apply size_empty_inv, leibniz_equiv in H. Qed.

Lemma getSession_keeps draws now st code session :
  sessions st !! code = Some session ->
  sessions (fst (getSession draws now st)) !! code = Some session.
Proof.
  intros Hs. unfold getSession.
  assert (Hgen : forall c, generateCode draws st = Some c -> sessions st !! c = None).
  { induction draws as [|c0 draws IH]; simpl; [discriminate|].
    intros c. destruct (sessions st !! c0) eqn:E; [apply IH|].
    intros [= <-]. exact E. }
  destruct (generateCode draws st) as [c|] eqn:Hc; simpl; [|exact Hs].
  rewrite lookup_insert_ne; [exact Hs|]. intros ->.
  rewrite (Hgen _ eq_refl) in Hs. discriminate.
Qed.

Lemma wsConnect_keeps ws sessionParam typeParam now st code :
  is_Some (sessions st !! code) ->
  is_Some (sessions (fst (wsConnect ws sessionParam typeParam now st)) !! code).
Proof.
  intros Hs. unfold wsConnect.
  destruct sessionParam as [sc|]; [|exact Hs].
  destruct (negb (truthy sc)); [exact Hs|]. simpl.
  destruct (sessions st !! sc) as [s|] eqn:E; [|exact Hs]. simpl.
  destruct (decide (sc = code)) as [->|Hne].
  - rewrite lookup_insert_eq. eauto.
  - now rewrite lookup_insert_ne.
Qed.

(** C9 (as stated, refuted). The only member of a session disconnects five
    milliseconds after the session was created: the close handler itself
    takes the session out of the registry. *)
Lemma C9_close_handler_removes_empty_session :
  is_Some (sessions loneBrowserState !! "ABC234")
  /\ sessions (fst (step (WsClose 1 5) loneBrowserState)) !! "ABC234" = None
  /\ ~ removedOnlyBySweep (WsClose 1 5) loneBrowserState.
Proof.
  assert (Hbefore : is_Some (sessions loneBrowserState !! "ABC234")).
  { vm_compute. eauto. }
  assert (Hafter : sessions (fst (step (WsClose 1 5) loneBrowserState)) !! "ABC234"
                   = None).
  { vm_compute. reflexivity. }
  split; [exact Hbefore|]. split; [exact Hafter|].
  intros Honly. destruct (Honly "ABC234" Hbefore Hafter) as [now Heq].
  discriminate Heq.
Qed.

(** C9 (amended). A session leaves the registry in one of two ways only:
    the periodic sweep removes it when both member sets are empty and more
    than thirty minutes have passed since its creation; or the close handler
    of one of its connections removes it, at once and whatever its age, when
    taking that connection out leaves both member sets empty.  No other
    request or message removes a session. *)
Theorem C9_session_removed_by_sweep_or_last_close
    (e : Event) (st : State) (code : string) (session : Session) :
  sessions st !! code = Some session ->
  sessions (fst (step e st)) !! code = None ->
  (exists now,
     e = Sweep now /\ browsers session = ∅ /\ mcpClients session = ∅
     /\ (now - createdAt session > staleAfter)%Z)
  \/ (exists ws now ty,
        e = WsClose ws now /\ attached st !! ws = Some (code, ty)
        /\ browsers (leave ty ws session) = ∅
        /\ mcpClients (leave ty ws session) = ∅).
Proof.
  intros Hs Hgone. destruct e as [draws now|r project sess outcome
    |ws sessionParam typeParam now|ws parsed|ws now|now]; simpl in Hgone.
  - rewrite (getSession_keeps draws now st code session Hs) in Hgone. discriminate.
  - rewrite Hs in Hgone. discriminate.
  - destruct (attached st !! ws); simpl in Hgone.
    + rewrite Hs in Hgone. discriminate.
    + destruct (wsConnect_keeps ws sessionParam typeParam now st code
                  (ltac:(eauto) : is_Some (sessions st !! code))) as [s' Hs'].
      rewrite Hs' in Hgone. discriminate.
  - rewrite Hs in Hgone. discriminate.
  - right. unfold wsClose in Hgone. simpl in Hgone.
    destruct (attached st !! ws) as [[c ty]|] eqn:Ha; simpl in Hgone.
    2:{ rewrite Hs in Hgone. discriminate. }
    destruct (sessions st !! c) as [s|] eqn:Hc; simpl in Hgone.
    2:{ rewrite Hs in Hgone. discriminate. }
    destruct (decide (c = code)) as [->|Hne].
    + assert (s = session) as -> by congruence.
      destruct ((size (browsers (leave ty ws session)) =? 0)
                && (size (mcpClients (leave ty ws session)) =? 0)) eqn:Hempty;
        simpl in Hgone.
      * apply andb_true_iff in Hempty as [Hb Hm].
        exists ws, now, ty. split; [reflexivity|]. split; [exact Ha|].
        split; now apply size_zero_empty.
      * rewrite lookup_insert_eq in Hgone. discriminate.
    + destruct ((size (browsers (leave ty ws s)) =? 0)
                && (size (mcpClients (leave ty ws s)) =? 0)); simpl in Hgone.
      * rewrite lookup_delete_ne, lookup_insert_ne, Hs in Hgone by exact Hne.
        discriminate.
      * rewrite lookup_insert_ne, Hs in Hgone by exact Hne. discriminate.
  - left. exists now. split; [reflexivity|].
    apply map_lookup_filter_None in Hgone as [Hnone|Hall].
    + rewrite Hs in Hnone. discriminate.
    + specialize (Hall session Hs). simpl in Hall.
      apply not_false_is_true in Hall. unfold stale in Hall.
      apply andb_true_iff in Hall as [Hall Hold].
      apply andb_true_iff in Hall as [Hb Hm].
      split; [now apply size_zero_empty|]. split; [now apply size_zero_empty|].
      lia.
Qed.

Lemma C9_session_removed_by_sweep_or_last_close_witness :
  exists ty,
    attached loneBrowserState !! 1 = Some ("ABC234", ty)
    /\ browsers (leave ty 1 {| browsers := {[1]}; mcpClients := ∅; createdAt := 0 |}) = ∅.
Proof.
  destruct (C9_session_removed_by_sweep_or_last_close (WsClose 1 5) loneBrowserState
              "ABC234" {| browsers := {[1]}; mcpClients := ∅; createdAt := 0 |})
    as [(now & Heq & _)|(ws & now & ty & Heq & Ha & Hb & _)].
  - vm_compute. reflexivity.
  - vm_compute. reflexivity.
  - discriminate Heq.
  - injection Heq as <- _. exists ty. split; [exact Ha | exact Hb].
Defined.

(** *** Further properties of the server *)

Lemma generateCode_unused draws st code :
  generateCode draws st = Some code -> In code draws /\ sessions st !! code = None.
Proof.
  induction draws as [|c draws IH]; simpl; [discriminate|].
  destruct (sessions st !! c) eqn:E.
  - intros H. destruct (IH H). auto.
  - intros [= <-]. auto.
Qed.

(** X17: GET /api/session hands out one of the drawn codes that names no
    session yet, registers under it a session without members created now,
    and leaves every other session as it is; when every drawn code is taken
    nothing is registered. *)
Theorem getSession_registers_unused_code (draws : list string) (now : Z) (st : State) :
  (forall code, snd (getSession draws now st) = Some code ->
     In code draws
     /\ sessions st !! code = None
     /\ sessions (fst (getSession draws now st)) !! code
        = Some {| browsers := ∅; mcpClients := ∅; createdAt := now |}
     /\ forall other, other <> code ->
          sessions (fst (getSession draws now st)) !! other = sessions st !! other)
  /\ (snd (getSession draws now st) = None ->
      fst (getSession draws now st) = st
      /\ forall code, In code draws -> is_Some (sessions st !! code)).
Proof.
  unfold getSession. destruct (generateCode draws st) as [code|] eqn:Hgen; simpl.
  - split; [|discriminate]. intros c [= <-].
    destruct (generateCode_unused _ _ _ Hgen) as [Hin Hfree].
    split; [exact Hin|]. split; [exact Hfree|]. split.
    + apply lookup_insert_eq.
    + intros other Hne. now apply lookup_insert_ne.
  - split; [discriminate|]. intros _. split; [reflexivity|].
    clear now. induction draws as [|c draws IH]; simpl in *; [intros ? []|].
    destruct (sessions st !! c) eqn:E; [|discriminate].
    intros code [<-|Hin]; [rewrite E; eauto | now apply IH].
Qed.

Lemma getSession_registers_unused_code_witness :
  sessions (fst (getSession ["ABC234"; "XYZ789"] 7 pairState)) !! "XYZ789"
  = Some {| browsers := ∅; mcpClients := ∅; createdAt := 7 |}.
Proof.
  apply (proj1 (getSession_registers_unused_code ["ABC234"; "XYZ789"] 7 pairState)
           "XYZ789").
  vm_compute. reflexivity.
Defined.

Lemma sendAll_reaches st targets msg excludeWs ws m :
  In (ws, m) (sendAll st targets msg excludeWs)
  <-> m = msg /\ In ws targets /\ Some ws <> excludeWs /\ readyState st ws = OPEN.
Proof.
  rewrite sendAll_filter, in_map_iff. split.
  - intros (w & [= -> ->] & Hin). apply filter_In in Hin as [Hin Hok].
    apply andb_true_iff in Hok as [Hex Hopen].
    apply negb_true_iff, bool_decide_eq_false in Hex.
    apply Nat.eqb_eq in Hopen. auto.
  - intros (-> & Hin & Hex & Hopen). exists ws. split; [reflexivity|].
    apply filter_In. split; [exact Hin|]. apply andb_true_iff. split.
    + now apply negb_true_iff, bool_decide_eq_false.
    + now apply Nat.eqb_eq.
Qed.

(** X18: [broadcast] hands the message to the members of both roles of the
    session whose socket is open, except the excluded connection, and to
    nobody else; for a code that names no session it sends nothing. *)
Theorem broadcast_reaches_both_roles_but_excluded
    (st : State) (code ev : string) (d : Payload) (excludeWs : option Ws) :
  (sessions st !! code = None -> broadcast st code ev d excludeWs = [])
  /\ forall session, sessions st !! code = Some session ->
       forall ws m,
         In (ws, m) (broadcast st code ev d excludeWs)
         <-> m = {| event := ev; data := d |}
             /\ (ws ∈ browsers session \/ ws ∈ mcpClients session)
             /\ Some ws <> excludeWs
             /\ readyState st ws = OPEN.
Proof.
  unfold broadcast. split.
  - intros H. now rewrite H.
  - intros session H ws m. rewrite H, sendAll_reaches, in_app_iff, !elements_In.
    reflexivity.
Qed.

Lemma broadcast_reaches_both_roles_but_excluded_witness :
  In (2, {| event := "data:changed"; data := ProjectRef "minecraft" |})
     (broadcast pairState "ABC234" "data:changed" (ProjectRef "minecraft") (Some 1)).
Proof.
  apply (proj2 (broadcast_reaches_both_roles_but_excluded pairState "ABC234"
                  "data:changed" (ProjectRef "minecraft") (Some 1))
               {| browsers := {[1]}; mcpClients := {[2]}; createdAt := 0 |}).
  - vm_compute. reflexivity.
  - split; [reflexivity|]. split; [right; set_solver|].
    split; [discriminate | reflexivity].
Defined.

Lemma truthy_iff_nonempty s : s <> "" -> truthy s = true.
Proof. destruct s; [contradiction | reflexivity]. Qed.

(** X19: a connection that gives no session code, an empty one, or one that
    names no session is turned away: it gets the single message "Invalid
    session code", is closed, gets no close handler, and the sessions are
    left as they are. *)
Theorem wsConnect_rejects_unknown_code
    (ws : Ws) (sessionParam typeParam : option string) (now : Z) (st : State) :
  sessionParam = None \/ sessionParam = Some ""
  \/ (exists code, sessionParam = Some code /\ sessions st !! code = None) ->
  snd (wsConnect ws sessionParam typeParam now st)
    = [(ws, {| event := "error"; data := ErrorMessage "Invalid session code" |})]
  /\ sessions (fst (wsConnect ws sessionParam typeParam now st)) = sessions st
  /\ attached (fst (wsConnect ws sessionParam typeParam now st)) = attached st
  /\ readyState (fst (wsConnect ws sessionParam typeParam now st)) ws = CLOSING.
Proof.
  intros Hbad. unfold wsConnect.
  assert (Hrs : forall s, readyState (withReadyState s ws CLOSING) ws = CLOSING).
  { intros s. simpl. now destruct (decide (ws = ws)). }
  destruct Hbad as [->|[->|(code & -> & Hnone)]].
  - repeat split. apply Hrs.
  - repeat split. apply Hrs.
  - destruct (negb (truthy code)); [repeat split; apply Hrs|].
    simpl. rewrite Hnone. repeat split. apply Hrs.
Qed.

Lemma wsConnect_rejects_unknown_code_witness :
  snd (wsConnect 7 (Some "ZZZZZZ") None 5 pairState)
  = [(7, {| event := "error"; data := ErrorMessage "Invalid session code" |})].
Proof.
  apply (wsConnect_rejects_unknown_code 7 (Some "ZZZZZZ") None 5 pairState).
  right. right. exists "ZZZZZZ". split; [reflexivity | vm_compute; reflexivity].
Defined.

(** X20: a connection with the code of a session is added to the mcp clients
    when it asks for the type "mcp" and to the browsers when it gives no
    type; it gets its close handler and the "connected" message, which is the
    last message sent.  For an mcp client every browser of the session whose
    socket is open is first told "mcp:connected"; for a browser nobody else
    is told anything. *)
Theorem wsConnect_joins_session
    (ws : Ws) (code : string) (typeParam : option string) (now : Z) (st : State)
    (session : Session) :
  code <> "" ->
  sessions st !! code = Some session ->
  (typeParam = Some "mcp" ->
   sessions (fst (wsConnect ws (Some code) typeParam now st)) !! code
     = Some {| browsers := browsers session; mcpClients := mcpClients session ∪ {[ws]};
               createdAt := createdAt session |}
   /\ attached (fst (wsConnect ws (Some code) typeParam now st)) !! ws
      = Some (code, "mcp")
   /\ exists announced,
        snd (wsConnect ws (Some code) typeParam now st)
        = announced ++ [(ws, {| event := "connected"; data := Connected code "mcp" |})]
        /\ forall b m,
             In (b, m) announced
             <-> m = {| event := "mcp:connected"; data := Timestamp now |}
                 /\ b ∈ browsers session /\ (b = ws \/ readyState st b = OPEN))
  /\ (typeParam = None ->
      sessions (fst (wsConnect ws (Some code) typeParam now st)) !! code
        = Some {| browsers := browsers session ∪ {[ws]};
                  mcpClients := mcpClients session; createdAt := createdAt session |}
      /\ attached (fst (wsConnect ws (Some code) typeParam now st)) !! ws
         = Some (code, "browser")
      /\ snd (wsConnect ws (Some code) typeParam now st)
         = [(ws, {| event := "connected"; data := Connected code "browser" |})]).
Proof.
  intros Hcode Hs. apply truthy_iff_nonempty in Hcode. split.
  - intros ->. unfold wsConnect. rewrite Hcode. simpl. rewrite Hs. simpl.
    split; [apply lookup_insert_eq|]. split; [apply lookup_insert_eq|].
    eexists. split; [reflexivity|]. intros b m.
    rewrite (broadcastToBrowsers_reaches _ code
               {| browsers := browsers session;
                  mcpClients := mcpClients session ∪ {[ws]};
                  createdAt := createdAt session |}).
    2:{ simpl. apply lookup_insert_eq. }
    simpl. destruct (decide (b = ws)) as [->|Hne]; [tauto|].
    split; intros (Hm & Hb & Ho); repeat split; try assumption.
    + now right.
    + destruct Ho as [Ho|Ho]; [contradiction | exact Ho].
  - intros ->. unfold wsConnect. rewrite Hcode. simpl. rewrite Hs. simpl.
    split; [apply lookup_insert_eq|]. split; [apply lookup_insert_eq|]. reflexivity.
Qed.

Lemma wsConnect_joins_session_witness :
  attached (fst (wsConnect 7 (Some "ABC234") (Some "mcp") 5 pairState)) !! 7
  = Some ("ABC234", "mcp").
Proof.
  apply (proj1 (wsConnect_joins_session 7 "ABC234" (Some "mcp") 5 pairState
                  {| browsers := {[1]}; mcpClients := {[2]}; createdAt := 0 |}
                  ltac:(discriminate) ltac:(vm_compute; reflexivity))
               eq_refl).
Defined.

(** X21: a "data:changed" message received from any connection of a session,
    browser or mcp client, is passed on with its data to every browser of
    that session whose socket is open, the sender included when it is a
    browser, and to no mcp client; any other message, and one that cannot be
    parsed, is dropped. *)
Theorem wsMessage_forwards_data_changed
    (ws : Ws) (parsed : option (string * string)) (st : State)
    (code ty : string) (session : Session) :
  attached st !! ws = Some (code, ty) ->
  sessions st !! code = Some session ->
  (forall d, parsed = Some ("data:changed", d) ->
     forall b m,
       In (b, m) (wsMessage ws parsed st)
       <-> m = {| event := "data:changed"; data := Forwarded d |}
           /\ b ∈ browsers session /\ readyState st b = OPEN)
  /\ (parsed = None -> wsMessage ws parsed st = [])
  /\ (forall ev d, parsed = Some (ev, d) -> ev <> "data:changed" ->
        wsMessage ws parsed st = []).
Proof.
  intros Ha Hs. unfold wsMessage. rewrite Ha. split; [|split].
  - intros d -> b m. simpl. now apply broadcastToBrowsers_reaches.
  - intros ->. reflexivity.
  - intros ev d -> Hne. apply String.eqb_neq in Hne. now rewrite Hne.
Qed.

Lemma wsMessage_forwards_data_changed_witness :
  In (1, {| event := "data:changed"; data := Forwarded "{}" |})
     (wsMessage 2 (Some ("data:changed", "{}")) pairState).
Proof.
  apply (proj1 (wsMessage_forwards_data_changed 2 (Some ("data:changed", "{}"))
                  pairState "ABC234" "mcp"
                  {| browsers := {[1]}; mcpClients := {[2]}; createdAt := 0 |}
                  ltac:(vm_compute; reflexivity) ltac:(vm_compute; reflexivity))
               "{}" eq_refl).
  split; [reflexivity|]. split; [set_solver | reflexivity].
Defined.

Lemma stale_iff now session :
  stale now session = true
  <-> browsers session = ∅ /\ mcpClients session = ∅
      /\ (now - createdAt session > staleAfter)%Z.
Proof.
  unfold stale. rewrite !andb_true_iff, !Nat.eqb_eq, Z.gtb_gt.
  rewrite !size_empty_iff. unfold_leibniz. tauto.
Qed.

(** X22: the clean-up removes exactly the sessions that have no member in
    either role and were created more than thirty minutes before, and keeps
    every other session unchanged: a session with a member is never removed
    by it, nor is one created at most thirty minutes before.  It does not
    touch the connections, and running it again at the same time changes
    nothing more. *)
Theorem sweep_removes_exactly_the_stale (now : Z) (st : State) :
  (forall code,
     sessions (sweep now st) !! code
     = match sessions st !! code with
       | Some session => if stale now session then None else Some session
       | None => None
       end)
  /\ (forall code session, sessions st !! code = Some session ->
        (sessions (sweep now st) !! code = None
         <-> browsers session = ∅ /\ mcpClients session = ∅
             /\ (now - createdAt session > 30 * 60 * 1000)%Z))
  /\ attached (sweep now st) = attached st
  /\ readyState (sweep now st) = readyState st
  /\ sweep now (sweep now st) = sweep now st.
Proof.
  assert (Hlook : forall code,
     sessions (sweep now st) !! code
     = match sessions st !! code with
       | Some session => if stale now session then None else Some session
       | None => None
       end).
  { intros code. unfold sweep. simpl. rewrite map_lookup_filter.
    destruct (sessions st !! code) as [session|]; simpl; [|reflexivity].
    case_guard as Hg; simpl in Hg; destruct (stale now session);
      simpl in *; congruence. }
  split; [exact Hlook|]. split; [|split; [reflexivity|split; [reflexivity|]]].
  - intros code session Hs. rewrite Hlook, Hs, <- stale_iff.
    destruct (stale now session); split; congruence.
  - unfold sweep at 1. unfold withSessions.
    change (readyState (sweep now st)) with (readyState st).
    change (attached (sweep now st)) with (attached st).
    unfold sweep at 2. unfold withSessions. f_equal.
    change (filter (fun kv => stale now (snd kv) = false) (sessions st))
      with (sessions (sweep now st)).
    apply map_eq. intros code. rewrite map_lookup_filter.
    destruct (sessions (sweep now st) !! code) as [session|] eqn:E; [|reflexivity].
    simpl. rewrite Hlook in E.
    destruct (sessions st !! code) as [s|]; [|discriminate].
    destruct (stale now s) eqn:Es; [discriminate|].
    injection E as <-.
    case_guard as Hg; simpl in Hg; [reflexivity|congruence].
Qed.

Lemma sweep_removes_exactly_the_stale_witness :
  sessions (sweep 1800001 idleState) !! "ABC234" = None
  /\ sessions (sweep 1800000 idleState) !! "ABC234" <> None.
Proof.
  split.
  - refine (proj2 (proj1 (proj2 (sweep_removes_exactly_the_stale 1800001 idleState))
                     "ABC234" {| browsers := ∅; mcpClients := ∅; createdAt := 0 |} _) _).
    + vm_compute. reflexivity.
    + split; [reflexivity|]. split; [reflexivity | simpl; lia].
  - intros Hgone.
    refine (_ (proj1 (proj1 (proj2 (sweep_removes_exactly_the_stale 1800000 idleState))
                        "ABC234" {| browsers := ∅; mcpClients := ∅; createdAt := 0 |} _)
                 Hgone)).
    + simpl. lia.
    + vm_compute. reflexivity.
Defined.

(** [consistent] reads the registry and the close handlers only. *)
Lemma consistent_same st st' :
  sessions st' = sessions st -> attached st' = attached st ->
  consistent st -> consistent st'.
Proof. unfold consistent. intros -> ->. tauto. Qed.

Lemma consistent_getSession draws now st :
  consistent st -> consistent (fst (getSession draws now st)).
Proof.
  intros [H1 H2]. unfold getSession.
  destruct (generateCode draws st) as [code|] eqn:E; [|now split].
  apply generateCode_unused in E. destruct E as [_ Hfree].
  split; simpl.
  - intros ws c ty Ha. destruct (H1 _ _ _ Ha) as (s & Hs & Hr).
    exists s. split; [|exact Hr].
    rewrite lookup_insert_ne; [exact Hs|]. intros ->. congruence.
  - intros c s ws Hs Hin. destruct (decide (c = code)) as [->|Hne].
    + rewrite lookup_insert_eq in Hs. injection Hs as <-. simpl in Hin. set_solver.
    + rewrite lookup_insert_ne in Hs by congruence. eauto.
Qed.

Lemma consistent_wsConnect ws sessionParam typeParam now st :
  attached st !! ws = None -> consistent st ->
  consistent (fst (wsConnect ws sessionParam typeParam now st)).
Proof.
  intros Hnew Hc. unfold wsConnect.
  set (clientType := match typeParam with
                     | Some t => if truthy t then t else "browser"
                     | None => "browser"
                     end).
  destruct sessionParam as [sessionCode|];
    [|now apply (consistent_same st)].
  destruct (negb (truthy sessionCode)); [now apply (consistent_same st)|].
  simpl. destruct (sessions st !! sessionCode) as [session|] eqn:Hs;
    [|now apply (consistent_same st)].
  destruct Hc as [H1 H2]. simpl.
  assert (Hout : ws ∉ browsers session ∪ mcpClients session).
  { intros Hin. destruct (H2 _ _ _ Hs Hin) as [ty Hty]. congruence. }
  split; simpl.
  - intros w c ty Ha. destruct (decide (w = ws)) as [->|Hne].
    + rewrite lookup_insert_eq in Ha. injection Ha as <- <-.
      exists (join clientType ws session). split; [apply lookup_insert_eq|].
      unfold join. destruct (String.eqb clientType "mcp"); simpl; set_solver.
    + rewrite lookup_insert_ne in Ha by congruence.
      destruct (H1 _ _ _ Ha) as (s & Hsc & Hr).
      destruct (decide (c = sessionCode)) as [->|Hcne].
      * rewrite Hs in Hsc. injection Hsc as <-.
        exists (join clientType ws session). split; [apply lookup_insert_eq|].
        unfold join.
        destruct (String.eqb ty "mcp"), (String.eqb clientType "mcp"); simpl;
          set_solver.
      * exists s. split; [|exact Hr]. now rewrite lookup_insert_ne by congruence.
  - intros c s w Hsc Hin. destruct (decide (w = ws)) as [->|Hne].
    + destruct (decide (c = sessionCode)) as [->|Hcne].
      * exists clientType. apply lookup_insert_eq.
      * rewrite lookup_insert_ne in Hsc by congruence.
        destruct (H2 _ _ _ Hsc Hin) as [ty Hty]. congruence.
    + rewrite lookup_insert_ne by congruence.
      destruct (decide (c = sessionCode)) as [->|Hcne].
      * rewrite lookup_insert_eq in Hsc. injection Hsc as <-.
        apply (H2 _ _ _ Hs). revert Hin. unfold join.
        destruct (String.eqb clientType "mcp"); simpl; set_solver.
      * rewrite lookup_insert_ne in Hsc by congruence. eauto.
Qed.

Lemma consistent_wsClose ws now st :
  consistent st -> consistent (fst (wsClose ws now st)).
Proof.
  intros Hc. unfold wsClose. simpl.
  destruct (attached st !! ws) as [[sessionCode clientType]|] eqn:Ha;
    [|now apply (consistent_same st)].
  destruct Hc as [H1 H2]. simpl.
  destruct (H1 _ _ _ Ha) as (session & Hs & Hrole). rewrite Hs. simpl.
  set (left := leave clientType ws session).
  assert (Hleft : forall w, w ∈ browsers left ∪ mcpClients left
                    <-> w ∈ browsers session ∪ mcpClients session /\ w <> ws).
  { intros w. unfold left, leave.
    destruct (String.eqb clientType "mcp"); simpl; set_solver. }
  assert (Hkeep : forall w ty, w <> ws ->
            (if String.eqb ty "mcp"
             then w ∈ mcpClients session /\ w ∉ browsers session
             else w ∈ browsers session /\ w ∉ mcpClients session) ->
            if String.eqb ty "mcp"
            then w ∈ mcpClients left /\ w ∉ browsers left
            else w ∈ browsers left /\ w ∉ mcpClients left).
  { intros w ty Hne. unfold left, leave.
    destruct (String.eqb ty "mcp"), (String.eqb clientType "mcp"); simpl;
      set_solver. }
  destruct ((size (browsers left) =? 0) && (size (mcpClients left) =? 0)) eqn:Hempty.
  - apply andb_true_iff in Hempty. destruct Hempty as [Hb Hm].
    apply size_zero_empty in Hb, Hm.
    split; simpl.
    + intros w c ty Haw. destruct (decide (w = ws)) as [->|Hne];
        [now rewrite lookup_delete_eq in Haw|].
      rewrite lookup_delete_ne in Haw by congruence.
      destruct (H1 _ _ _ Haw) as (s & Hsc & Hr).
      destruct (decide (c = sessionCode)) as [->|Hcne].
      * rewrite Hs in Hsc. injection Hsc as <-. exfalso.
        assert (Hin : w ∈ browsers left ∪ mcpClients left).
        { apply Hleft. split; [|exact Hne].
          destruct (String.eqb ty "mcp"); set_solver. }
        rewrite Hb, Hm in Hin. set_solver.
      * exists s. split; [|exact Hr].
        rewrite lookup_delete_ne by congruence.
        now rewrite lookup_insert_ne by congruence.
    + intros c s w Hsc Hin. destruct (decide (c = sessionCode)) as [->|Hcne];
        [now rewrite lookup_delete_eq in Hsc|].
      rewrite lookup_delete_ne in Hsc by congruence.
      rewrite lookup_insert_ne in Hsc by congruence.
      destruct (H2 _ _ _ Hsc Hin) as [ty Hty]. exists ty.
      rewrite lookup_delete_ne; [exact Hty|]. intros <-. congruence.
  - split; simpl.
    + intros w c ty Haw. destruct (decide (w = ws)) as [->|Hne];
        [now rewrite lookup_delete_eq in Haw|].
      rewrite lookup_delete_ne in Haw by congruence.
      destruct (H1 _ _ _ Haw) as (s & Hsc & Hr).
      destruct (decide (c = sessionCode)) as [->|Hcne].
      * rewrite Hs in Hsc. injection Hsc as <-.
        exists left. split; [apply lookup_insert_eq|]. now apply Hkeep.
      * exists s. split; [|exact Hr]. now rewrite lookup_insert_ne by congruence.
    + intros c s w Hsc Hin. destruct (decide (c = sessionCode)) as [->|Hcne].
      * rewrite lookup_insert_eq in Hsc. injection Hsc as <-.
        apply Hleft in Hin. destruct Hin as [Hin Hne].
        destruct (H2 _ _ _ Hs Hin) as [ty Hty]. exists ty.
        now rewrite lookup_delete_ne by congruence.
      * rewrite lookup_insert_ne in Hsc by congruence.
        destruct (H2 _ _ _ Hsc Hin) as [ty Hty]. exists ty.
        rewrite lookup_delete_ne; [exact Hty|]. intros <-. congruence.
Qed.

Lemma consistent_sweep now st : consistent st -> consistent (sweep now st).
Proof.
  intros [H1 H2]. unfold sweep. split; simpl.
  - intros w c ty Ha. destruct (H1 _ _ _ Ha) as (s & Hs & Hr).
    exists s. split; [|exact Hr].
    apply map_lookup_filter_Some. split; [exact Hs|]. simpl.
    destruct (stale now s) eqn:E; [|reflexivity]. exfalso.
    apply stale_iff in E. destruct E as (Hb & Hm & _).
    rewrite Hb, Hm in Hr. destruct (String.eqb ty "mcp"); set_solver.
  - intros c s w Hs Hin. apply map_lookup_filter_Some in Hs.
    destruct Hs as [Hs _]. eauto.
Qed.

Lemma consistent_step e st : consistent st -> consistent (fst (step e st)).
Proof.
  intros Hc. destruct e as [draws now|r project session outcome
                            |ws sessionParam typeParam now|ws parsed|ws now|now];
    simpl.
  - now apply consistent_getSession.
  - exact Hc.
  - destruct (attached st !! ws) eqn:Ha; [exact Hc|].
    now apply consistent_wsConnect.
  - exact Hc.
  - now apply consistent_wsClose.
  - now apply consistent_sweep.
Qed.

(** X23: in every state the server can reach from its start by requests,
    connections, messages, closes and clean-ups, the members of the sessions
    are exactly the connections that have a close handler: such a connection
    is a member of the session it was accepted with, which is still
    registered, in the set of its role only.  So no connection is at once a
    browser and an mcp client of a session, and none is a member of two
    sessions. *)
Theorem reachable_states_are_consistent (st : State) :
  reachable st ->
  consistent st
  /\ (forall code session, sessions st !! code = Some session ->
        browsers session ∩ mcpClients session = ∅)
  /\ (forall code1 code2 session1 session2 ws,
        sessions st !! code1 = Some session1 ->
        sessions st !! code2 = Some session2 ->
        ws ∈ browsers session1 ∪ mcpClients session1 ->
        ws ∈ browsers session2 ∪ mcpClients session2 ->
        code1 = code2).
Proof.
  intros Hr.
  assert (Hc : consistent st).
  { induction Hr as [|e st Hr IH].
    - split; simpl; intros *; rewrite lookup_empty; discriminate.
    - now apply consistent_step. }
  split; [exact Hc|]. destruct Hc as [H1 H2]. split.
  - intros code session Hs. apply leibniz_equiv. apply elem_of_equiv_empty.
    intros w Hin. apply elem_of_intersection in Hin. destruct Hin as [Hb Hm].
    destruct (H2 code session w Hs ltac:(set_solver)) as [ty Hty].
    destruct (H1 _ _ _ Hty) as (s & Hs' & Hrole).
    rewrite Hs in Hs'. injection Hs' as <-.
    destruct (String.eqb ty "mcp"); tauto.
  - intros code1 code2 session1 session2 ws Hs1 Hs2 Hin1 Hin2.
    destruct (H2 _ _ _ Hs1 Hin1) as [ty1 Hty1].
    destruct (H2 _ _ _ Hs2 Hin2) as [ty2 Hty2]. congruence.
Qed.

Lemma reachable_states_are_consistent_witness :
  consistent
    (fst (step (WsConnect 1 (Some "ABC234") None 1)
            (fst (step (GetSession ["ABC234"] 0) initial)))).
Proof.
  apply (reachable_states_are_consistent
           (fst (step (WsConnect 1 (Some "ABC234") None 1)
                   (fst (step (GetSession ["ABC234"] 0) initial))))).
  apply reachable_step, reachable_step, reachable_initial.
Defined.

(** X24: a session code stops being valid when the last member of its session
    disconnects: in a reachable state, once the only member of a session has
    closed, the code names no session, and a connection that presents it is
    answered with the error "Invalid session code" and closed instead of
    being made a member. *)
Theorem code_is_invalid_after_last_close
    (st : State) (ws : Ws) (code ty : string) (session : Session) (now : Z)
    (ws' : Ws) (typeParam : option string) (now' : Z) :
  reachable st ->
  attached st !! ws = Some (code, ty) ->
  sessions st !! code = Some session ->
  browsers session ∪ mcpClients session = {[ws]} ->
  let closed := fst (wsClose ws now st) in
  sessions closed !! code = None
  /\ snd (wsConnect ws' (Some code) typeParam now' closed)
     = [(ws', {| event := "error"; data := ErrorMessage "Invalid session code" |})]
  /\ sessions (fst (wsConnect ws' (Some code) typeParam now' closed)) = sessions closed
  /\ attached (fst (wsConnect ws' (Some code) typeParam now' closed)) = attached closed
  /\ readyState (fst (wsConnect ws' (Some code) typeParam now' closed)) ws' = CLOSING.
Proof.
  intros Hr Ha Hs Hone closed.
  destruct (reachable_states_are_consistent st Hr) as [[H1 _] _].
  destruct (H1 _ _ _ Ha) as (s & Hs' & Hrole).
  rewrite Hs in Hs'. injection Hs' as <-.
  assert (Hgone : sessions closed !! code = None).
  { unfold closed, wsClose. simpl. rewrite Ha. simpl. rewrite Hs. simpl.
    assert (Hin : forall x, x ∈ browsers session ∪ mcpClients session -> x = ws).
    { intros x Hx. rewrite Hone in Hx. now apply elem_of_singleton in Hx. }
    assert (Hb : browsers (leave ty ws session) = ∅).
    { clear - Hin Hrole. unfold leave. apply leibniz_equiv, elem_of_equiv_empty.
      intros x Hx. destruct (String.eqb ty "mcp"); simpl in Hx.
      - rewrite (Hin x) in Hx by set_solver. tauto.
      - apply elem_of_difference in Hx. destruct Hx as [Hx Hne].
        apply Hne, elem_of_singleton, Hin. set_solver. }
    assert (Hm : mcpClients (leave ty ws session) = ∅).
    { clear - Hin Hrole. unfold leave. apply leibniz_equiv, elem_of_equiv_empty.
      intros x Hx. destruct (String.eqb ty "mcp"); simpl in Hx.
      - apply elem_of_difference in Hx. destruct Hx as [Hx Hne].
        apply Hne, elem_of_singleton, Hin. set_solver.
      - rewrite (Hin x) in Hx by set_solver. tauto. }
    rewrite Hb, Hm. simpl. apply lookup_delete_eq. }
  split; [exact Hgone|].
  unfold wsConnect. destruct (negb (truthy code)); simpl.
  - repeat split. now destruct (decide (ws' = ws')).
  - rewrite Hgone. simpl. repeat split. now destruct (decide (ws' = ws')).
Qed.

Lemma code_is_invalid_after_last_close_witness :
  snd (wsConnect 2 (Some "ABC234") None 9
         (fst (wsClose 1 5
                 (fst (step (WsConnect 1 (Some "ABC234") None 1)
                         (fst (step (GetSession ["ABC234"] 0) initial)))))))
  = [(2, {| event := "error"; data := ErrorMessage "Invalid session code" |})].
Proof.
  apply (code_is_invalid_after_last_close
           (fst (step (WsConnect 1 (Some "ABC234") None 1)
                   (fst (step (GetSession ["ABC234"] 0) initial))))
           1 "ABC234" "browser"
           {| browsers := {[1]}; mcpClients := ∅; createdAt := 0 |} 5 2 None 9).
  - apply reachable_step, reachable_step, reachable_initial.
  - vm_compute. reflexivity.
  - vm_compute. reflexivity.
  - vm_compute. reflexivity.
Defined.

End ServerFacts.

(** ** The helpers of the front end *)

Module AppHelpersFacts.
Import Js AppHelpers.

Local Open Scope Z_scope.

(** X25: [_formatTimeAgo] answers by the whole seconds, minutes, hours and days
    that have passed: "just now" below one minute (and for a time in the
    future), between 1 and 59 minutes below one hour, between 1 and 23 hours
    below one day, between 1 and 29 days below thirty days, and the locale
    date from thirty days on.  The number shown is the elapsed time divided
    by the unit, rounded down. *)
Theorem formatTimeAgo_buckets (now then_ : Z) (localeDate : string) :
  let elapsed := now - then_ in
  (elapsed < 60000 -> _formatTimeAgo now then_ localeDate = "just now")
  /\ (60000 <= elapsed < 3600000 ->
      _formatTimeAgo now then_ localeDate = pretty (elapsed / 60000) +:+ "m ago"
      /\ 1 <= elapsed / 60000 <= 59)
  /\ (3600000 <= elapsed < 86400000 ->
      _formatTimeAgo now then_ localeDate = pretty (elapsed / 3600000) +:+ "h ago"
      /\ 1 <= elapsed / 3600000 <= 23)
  /\ (86400000 <= elapsed < 2592000000 ->
      _formatTimeAgo now then_ localeDate = pretty (elapsed / 86400000) +:+ "d ago"
      /\ 1 <= elapsed / 86400000 <= 29)
  /\ (2592000000 <= elapsed -> _formatTimeAgo now then_ localeDate = localeDate).
Proof.
  intros elapsed. unfold _formatTimeAgo. fold elapsed.
  assert (Hmins : elapsed / 1000 / 60 = elapsed / 60000)
    by (rewrite Z.div_div by lia; reflexivity).
  assert (Hhrs : elapsed / 60000 / 60 = elapsed / 3600000)
    by (rewrite Z.div_div by lia; reflexivity).
  assert (Hdays : elapsed / 3600000 / 24 = elapsed / 86400000)
    by (rewrite Z.div_div by lia; reflexivity).
  rewrite Hmins, Hhrs, Hdays.
  assert (Below : forall unit count, 0 < unit ->
            elapsed < unit * count -> (elapsed / unit <? count) = true).
  { intros unit count Hu H. apply Z.ltb_lt. now apply Z.div_lt_upper_bound. }
  assert (Above : forall unit count, 0 < unit ->
            unit * count <= elapsed -> (elapsed / unit <? count) = false).
  { intros unit count Hu H. apply Z.ltb_ge. now apply Z.div_le_lower_bound. }
  split; [|split; [|split; [|split]]].
  - intros H. now rewrite (Below 1000 60) by lia.
  - intros [Hlo Hhi].
    rewrite (Above 1000 60), (Below 60000 60) by lia.
    split; [reflexivity|]. split.
    + apply Z.div_le_lower_bound; lia.
    + assert (elapsed / 60000 < 60) by (apply Z.div_lt_upper_bound; lia). lia.
  - intros [Hlo Hhi].
    rewrite (Above 1000 60), (Above 60000 60), (Below 3600000 24) by lia.
    split; [reflexivity|]. split.
    + apply Z.div_le_lower_bound; lia.
    + assert (elapsed / 3600000 < 24) by (apply Z.div_lt_upper_bound; lia). lia.
  - intros [Hlo Hhi].
    rewrite (Above 1000 60), (Above 60000 60), (Above 3600000 24),
            (Below 86400000 30) by lia.
    split; [reflexivity|]. split.
    + apply Z.div_le_lower_bound; lia.
    + assert (elapsed / 86400000 < 30) by (apply Z.div_lt_upper_bound; lia). lia.
  - intros Hlo.
    now rewrite (Above 1000 60), (Above 60000 60), (Above 3600000 24),
                (Above 86400000 30) by lia.
Qed.

Lemma formatTimeAgo_buckets_witness :
  _formatTimeAgo 7260000 0 "2/27/2026" = "2h ago".
Proof.
  apply (proj1 (proj2 (proj2 (formatTimeAgo_buckets 7260000 0 "2/27/2026")))).
  lia.
Defined.

Local Close Scope Z_scope.

Lemma hasChar_append c a b : hasChar c (a +:+ b) = hasChar c a || hasChar c b.
Proof.
  induction a as [|x a IH]; simpl; [reflexivity|].
  now rewrite IH, orb_assoc.
Qed.

(** After [replaceAll c by_], the character [c'] is gone when the replacement
    text is free of it and it was either the replaced character or absent. *)
Lemma replaceAll_free c c' by_ s :
  hasChar c' by_ = false ->
  c' = c \/ hasChar c' s = false ->
  hasChar c' (replaceAll c by_ s) = false.
Proof.
  intros Hby Hs. induction s as [|a s IH]; simpl; [reflexivity|].
  destruct (Ascii.eqb a c) eqn:E.
  - rewrite hasChar_append, Hby. simpl. apply IH.
    destruct Hs as [->|Hs]; [now left|]. simpl in Hs.
    apply orb_false_iff in Hs as [_ Hs]. now right.
  - simpl. destruct Hs as [->|Hs].
    + rewrite E. simpl. apply IH. now left.
    + simpl in Hs. apply orb_false_iff in Hs as [Ha Hs]. rewrite Ha. simpl.
      apply IH. now right.
Qed.

Lemma replaceAll_absent c by_ s : hasChar c s = false -> replaceAll c by_ s = s.
Proof.
  induction s as [|a s IH]; simpl; [reflexivity|].
  intros H. apply orb_false_iff in H as [Ha Hs]. now rewrite Ha, IH.
Qed.

(** X26: the text [_escAttr] returns never contains a double quote, a [<] or a
    [>], so it cannot end a double-quoted attribute value or open a tag; a
    text without these characters is returned as it is, one that holds any
    of them is changed, and an undefined one gives the empty text. *)
Theorem escAttr_has_no_quote_or_angle (str : option string) :
  hasChar quoteChar (_escAttr str) = false
  /\ hasChar lessChar (_escAttr str) = false
  /\ hasChar greaterChar (_escAttr str) = false
  /\ (forall s, str = Some s ->
        hasChar quoteChar s = false -> hasChar lessChar s = false ->
        hasChar greaterChar s = false -> _escAttr str = s)
  /\ (forall s, str = Some s ->
        hasChar quoteChar s || hasChar lessChar s || hasChar greaterChar s = true ->
        _escAttr str <> s)
  /\ (str = None -> _escAttr str = "").
Proof.
  assert (Hq : hasChar quoteChar (_escAttr str) = false).
  { unfold _escAttr.
    apply replaceAll_free; [reflexivity|]. right.
    apply replaceAll_free; [reflexivity|]. right.
    apply replaceAll_free; [reflexivity|]. now left. }
  assert (Hl : hasChar lessChar (_escAttr str) = false).
  { unfold _escAttr.
    apply replaceAll_free; [reflexivity|]. right.
    apply replaceAll_free; [reflexivity|]. now left. }
  assert (Hg : hasChar greaterChar (_escAttr str) = false).
  { unfold _escAttr. apply replaceAll_free; [reflexivity|]. now left. }
  split; [exact Hq|]. split; [exact Hl|]. split; [exact Hg|]. split; [|split].
  - intros s -> Hq' Hl' Hg'. unfold _escAttr. simpl.
    now rewrite (replaceAll_absent quoteChar _ s Hq'),
                (replaceAll_absent lessChar _ s Hl'),
                (replaceAll_absent greaterChar _ s Hg').
  - intros s _ Hsome Heq. rewrite Heq in Hq, Hl, Hg.
    rewrite Hq, Hl, Hg in Hsome. discriminate.
  - intros ->. reflexivity.
Qed.

Lemma escAttr_has_no_quote_or_angle_witness :
  _escAttr (Some sayHi) = "say &quot;&lt;hi&gt;&quot;"
  /\ hasChar quoteChar (_escAttr (Some sayHi)) = false
  /\ hasChar lessChar (_escAttr (Some sayHi)) = false
  /\ hasChar greaterChar (_escAttr (Some sayHi)) = false
  /\ _escAttr (Some sayHi) <> sayHi.
Proof.
  destruct (escAttr_has_no_quote_or_angle (Some sayHi))
    as (Hq & Hl & Hg & _ & Hchanged & _).
  split; [reflexivity|]. split; [exact Hq|]. split; [exact Hl|]. split; [exact Hg|].
  apply (Hchanged sayHi eq_refl). reflexivity.
Defined.

End AppHelpersFacts.
